(** * MPPI planner (mppiisaac/planner/mppi.py): shallow embedding

    The planner works on [torch] tensors of [float32] numbers.  The
    embedding is written once over an interface [Scalar] of tensor
    elements and read at two carriers:

    - [R], the real numbers: every finite float is read as the real it
      denotes and rounding is left out;
    - [xreal], the reals extended with the IEEE special values
      [+inf], [-inf] and [nan], with the IEEE rules for them.

    Tensors are nested lists: a vector is [list F], a matrix
    [list (list F)] (rows first), a batch [list (list (list F))]
    (sample, horizon step, action dimension).  Python exceptions are the
    [None] of [option]. *)

From Stdlib Require Import Reals Lra Lia List Bool Arith ZArith Permutation.
Import ListNotations.
From Stdlib Require String Ascii DecimalString DecimalNat.
Import String.StringSyntax Ascii.AsciiSyntax.
Delimit Scope string_scope with string.
Delimit Scope char_scope with char.

Set Implicit Arguments.

(** ** Tensor elements *)

Class Scalar (F : Type) : Type := {
  sofZ : Z -> F;                 (* integer literals                     *)
  sadd : F -> F -> F;
  ssub : F -> F -> F;
  smul : F -> F -> F;
  sdiv : F -> F -> F;            (* tensor division: never raises        *)
  sneg : F -> F;
  sabs : F -> F;
  sexp : F -> F;
  smin : F -> F -> F;            (* torch.min of two elements            *)
  smax : F -> F -> F;
  sleb : F -> F -> bool;         (* a <= b                               *)
  sltb : F -> F -> bool;         (* a <  b                               *)
  struthy : F -> bool            (* Python truth value of a number       *)
}.

Notation "'do' x <- c ; k" :=
  (match c with Some x => k | None => None end)
  (at level 10, x pattern, c at level 100, k at level 200).

Section Tensors.
Context {F : Type} {SF : Scalar F}.

Definition s0 : F := sofZ 0.
Definition s1 : F := sofZ 1.

  (** The literal [0.01] of [command]. *)
Definition near_zero : F := sdiv (sofZ 1) (sofZ 100).

  (** Python's [1 / x] on numbers raises [ZeroDivisionError] at zero. *)
Definition py_inv (x : F) : option F :=
    if struthy x then Some (sdiv s1 x) else None.

Fixpoint map2 {A B C} (f : A -> B -> C) (l : list A) (l' : list B) : list C :=
    match l, l' with
    | a :: t, b :: t' => f a b :: map2 f t t'
    | _, _ => []
    end.

Definition vadd (v w : list F) : list F := map2 sadd v w.
Definition vsub (v w : list F) : list F := map2 ssub v w.
Definition vmul (v w : list F) : list F := map2 smul v w.
Definition vscale (a : F) (v : list F) : list F := map (smul a) v.
Definition zeros (n : nat) : list F := repeat s0 n.

  (** [torch.sum] of a vector. *)
Definition torch_sum (v : list F) : F := fold_right sadd s0 v.

  (** [torch.min] of a vector; an empty tensor has no minimum and the
      call raises. *)
Definition torch_min (v : list F) : option F :=
    match v with
    | [] => None
    | x :: rest => Some (fold_left smin rest x)
    end.

  (** [torch.sum(m, dim=0)] of a matrix whose rows have [n] entries. *)
Definition sum_dim0 (n : nat) (m : list (list F)) : list F :=
    fold_right vadd (zeros n) m.

  (** [torch.sum(m)] over both axes of a matrix. *)
Definition sum_all (m : list (list F)) : F :=
    torch_sum (map torch_sum m).

  (** Shapes. *)
Definition is_vector (n : nat) (v : list F) : bool := length v =? n.
Definition is_matrix (r c : nat) (m : list (list F)) : bool :=
    (length m =? r) && forallb (is_vector c) m.
Definition is_batch (k r c : nat) (b : list (list (list F))) : bool :=
    (length b =? k) && forallb (is_matrix r c) b.

  (** ** The softmin weights

      [_ensure_non_zero(cost, beta, factor) =
         torch.exp(-factor * (cost - beta))]. *)
Definition _ensure_non_zero (cost : list F) (beta factor : F) : list F :=
    map (fun c => sexp (smul (sneg factor) (ssub c beta))) cost.

  (** Lines 168-172 of [command]:
      [beta = torch.min(cost_total)],
      [cost_total_non_zero = _ensure_non_zero(cost_total, beta, 1 / lambda_)],
      [eta = torch.sum(cost_total_non_zero)],
      [omega = (1.0 / eta) * cost_total_non_zero].
      The result is [(cost_total_non_zero, eta, omega)]. *)
Definition softmin (lambda_ : F) (cost_total : list F)
    : option (list F * F * list F) :=
    do beta <- torch_min cost_total;
    do factor <- py_inv lambda_;
    let cost_total_non_zero := _ensure_non_zero cost_total beta factor in
    let eta := torch_sum cost_total_non_zero in
    Some (cost_total_non_zero, eta, vscale (sdiv s1 eta) cost_total_non_zero).

End Tensors.

(** ** The planner *)

Section Planner.
Context {F : Type} {SF : Scalar F}.

(** [RolloutState]: the batch state the dynamics collaborator threads
  through the horizon loop; the planner never looks inside. *)
Variable St : Type.

(** What the planner calls in [torch] and [scipy]. *)
Record Library : Type := {
  (* the values of torch.inverse on a square matrix; a singular one raises *)
  inverse_values : list (list F) -> option (list (list F));
  (* what MultivariateNormal(loc, covariance_matrix) checks after the
   symmetry of the covariance: its Cholesky factorisation and the rest
   of the argument validation *)
  mvn_valid : list F -> list (list F) -> bool;
  (* signal.savgol_filter(x, window, order, deriv=0, delta=1.0, axis=0,
   mode="interp", cval=0.0); it raises on a window it does not accept *)
  savgol_filter : list (list F) -> nat -> nat -> option (list (list F))
}.

Variable lib : Library.

(** The fields of [MPPIConfig] the planner reads.  [u_per_command] is a
  Python [int], the counts are naturals. *)
Record MPPIConfig : Type := {
  cfg_num_samples : nat;
  cfg_horizon : nat;
  cfg_noise_sigma : option (list (list F));
  cfg_noise_mu : option (list F);
  cfg_lambda_ : F;
  cfg_u_min : F;
  cfg_u_max : F;
  cfg_u_init : F;
  cfg_U_init : option (list (list F));
  cfg_u_scale : F;
  cfg_u_per_command : Z;
  cfg_rollout_samples : nat;
  cfg_rollout_var_cost : F;
  cfg_rollout_var_discount : F;
  cfg_sample_null_action : bool;
  cfg_noise_abs_cost : bool;
  cfg_filter_u : bool
}.

(** [self] after [__init__].  [dynamics] takes the batch state and the
  K x nu batch of scaled actions ([_dynamics] passes [t=None] whatever
  the step) and returns the next state and the effective actions;
  [running_cost] returns the K costs of a state; either may raise.
  [terminal_state_cost] is [None] unless a caller sets it. *)
Record MPPIPlanner : Type := {
  dynamics : St -> list (list F) -> option (St * list (list F));
  running_cost : St -> option (list F);
  terminal_state_cost :
    option (list St -> list (list (list F)) -> option (list F));
  nx : nat;
  noise_sigma : list (list F);
  noise_mu : list F;
  noise_sigma_inv : list (list F);
  u_init : F;
  U : list (list F);
  u_max : F;
  u_min : F;
  K : nat;
  T : nat;
  filter_u : bool;
  nu : nat;
  lambda_ : F;
  u_scale : F;
  u_per_command : Z;
  sample_null_action : bool;
  noise_abs_cost : bool;
  M : nat;
  rollout_var_cost : F;
  rollout_var_discount : F
}.

Definition set_U (p : MPPIPlanner) (U' : list (list F)) : MPPIPlanner :=
  {| dynamics := dynamics p; running_cost := running_cost p;
     terminal_state_cost := terminal_state_cost p; nx := nx p;
     noise_sigma := noise_sigma p; noise_mu := noise_mu p;
     noise_sigma_inv := noise_sigma_inv p; u_init := u_init p;
     U := U'; u_max := u_max p; u_min := u_min p; K := K p; T := T p;
     filter_u := filter_u p; nu := nu p; lambda_ := lambda_ p;
     u_scale := u_scale p; u_per_command := u_per_command p;
     sample_null_action := sample_null_action p;
     noise_abs_cost := noise_abs_cost p; M := M p;
     rollout_var_cost := rollout_var_cost p;
     rollout_var_discount := rollout_var_discount p |}.

(** The same planner with [cfg.filter_u] read as [b]. *)
Definition set_filter_u (p : MPPIPlanner) (b : bool) : MPPIPlanner :=
  {| dynamics := dynamics p; running_cost := running_cost p;
   terminal_state_cost := terminal_state_cost p; nx := nx p;
   noise_sigma := noise_sigma p; noise_mu := noise_mu p;
   noise_sigma_inv := noise_sigma_inv p; u_init := u_init p;
   U := U p; u_max := u_max p; u_min := u_min p; K := K p; T := T p;
   filter_u := b; nu := nu p; lambda_ := lambda_ p;
   u_scale := u_scale p; u_per_command := u_per_command p;
   sample_null_action := sample_null_action p;
   noise_abs_cost := noise_abs_cost p; M := M p;
   rollout_var_cost := rollout_var_cost p;
   rollout_var_discount := rollout_var_discount p |}.

(** "sampled results from last command": what a cycle leaves on [self].
  [states] and [actions] hold the values of the horizon steps in order
  (the source stacks them along a new horizon axis). *)
Record Sampled : Type := {
  noise : list (list (list F));
  perturbed_action : list (list (list F));
  cost_total : list F;
  cost_total_non_zero : list F;
  omega : list F;
  states : list St;
  actions : list (list (list F))
}.

(** *** [__init__] *)

(** [if not l: l = d] on an optional list: [None] and [[]] are false. *)
Definition or_default {A} (l : option (list A)) (d : list A) : list A :=
  match l with Some (x :: t) => x :: t | _ => d end.

(** [np.identity(n).tolist()] *)
Definition identity (n : nat) : list (list F) :=
  map (fun i => map (fun j => if Nat.eqb i j then s1 else s0) (seq 0 n))
      (seq 0 n).

(** [all([len(m[0]) == len(row) for row in m])] *)
Definition rows_same_length (m : list (list F)) : bool :=
  forallb (fun row => length (hd [] m) =? length row)%nat m.

(** [torch.inverse] takes (batches of) square matrices only: a tensor
  with fewer than two axes, as [torch.tensor([])], or with rows of
  another length than their number is refused before any value is
  computed. *)
Definition is_square (m : list (list F)) : bool :=
  match m with
  | [] => false
  | _ => forallb (fun row => length row =? length m)%nat m
  end.

Definition torch_inverse (m : list (list F)) : option (list (list F)) :=
  if is_square m then inverse_values lib m else None.

(** [torch.isclose(a, b, atol=1e-6)] with the default [rtol=1e-05]: equal
    elements are close; other elements are close when their distance is
    finite and at most [atol + |rtol * b|].  A distance [e] is finite when
    [e - e] is zero (it is [nan] for an infinite or undefined [e]). *)
Definition torch_isclose (a b : F) : bool :=
  let actual_error := sabs (ssub a b) in
  let allowed_error :=
    sadd (sdiv (sofZ 1) (sofZ 1000000))
         (sabs (smul (sdiv (sofZ 1) (sofZ 100000)) b)) in
  (sleb a b && sleb b a)
  || (sleb (ssub actual_error actual_error) s0
      && sleb actual_error allowed_error).

(** What [MultivariateNormal] checks first of its [covariance_matrix]
    (the constraint [positive_definite] starts with the check of
    [symmetric]): [torch.isclose(value, value.mT, atol=1e-6)] at every
    place of the matrix. *)
Definition is_symmetric (m : list (list F)) : bool :=
  forallb
    (fun i =>
       forallb
         (fun j => torch_isclose (nth j (nth i m []) s0)
                                 (nth i (nth j m []) s0))
         (seq 0 (length m)))
    (seq 0 (length m)).

Definition __init__ (cfg : MPPIConfig) (nx0 : nat)
    (dyn : St -> list (list F) -> option (St * list (list F)))
    (cost : St -> option (list F)) : option MPPIPlanner :=
  (* if not cfg.noise_sigma: cfg.noise_sigma = np.identity(int(nx / 2)).tolist() *)
  let sigma := or_default (cfg_noise_sigma cfg) (identity (Nat.div nx0 2)) in
  (* assert all([len(cfg.noise_sigma[0]) == len(row) for row in cfg.noise_sigma]) *)
  if negb (rows_same_length sigma) then None else
  (* if not cfg.noise_mu: cfg.noise_mu = [0.0] * len(cfg.noise_sigma) *)
  let mu := or_default (cfg_noise_mu cfg) (repeat s0 (length sigma)) in
  (* if not cfg.U_init: cfg.U_init = [[0.0] * len(cfg.noise_mu)] * cfg.horizon *)
  let U0 := or_default (cfg_U_init cfg)
              (repeat (repeat s0 (length mu)) (cfg_horizon cfg)) in
  (* if cfg.u_max and not cfg.u_min: cfg.u_min = -cfg.u_max *)
  let umin := if struthy (cfg_u_max cfg) && negb (struthy (cfg_u_min cfg))
              then sneg (cfg_u_max cfg) else cfg_u_min cfg in
  (* if cfg.u_min and not cfg.u_max: cfg.u_max = -cfg.u_min *)
  let umax := if struthy umin && negb (struthy (cfg_u_max cfg))
              then sneg umin else cfg_u_max cfg in
  (* assert cfg.u_max > 0 and cfg.u_min < 0 *)
  if negb (sltb s0 umax && sltb umin s0) then None else
  (* self.noise_sigma_inv = torch.inverse(self.noise_sigma) *)
  do sigma_inv <- torch_inverse sigma;
  (* self.noise_dist = MultivariateNormal(self.noise_mu, covariance_matrix=...):
     the covariance has to be symmetric and to pass the rest of the
     validation *)
  if negb (is_symmetric sigma) then None else
  if negb (mvn_valid lib mu sigma) then None else
  (* self.U = torch.tensor(cfg.U_init): a ragged list is refused *)
  if negb (rows_same_length U0) then None else
  Some {| dynamics := dyn; running_cost := cost;
          terminal_state_cost := None; nx := nx0;
          noise_sigma := sigma; noise_mu := mu;
          noise_sigma_inv := sigma_inv; u_init := cfg_u_init cfg;
          U := U0; u_max := umax; u_min := umin;
          K := cfg_num_samples cfg; T := cfg_horizon cfg;
          filter_u := cfg_filter_u cfg; nu := length sigma;
          lambda_ := cfg_lambda_ cfg; u_scale := cfg_u_scale cfg;
          u_per_command := cfg_u_per_command cfg;
          sample_null_action := cfg_sample_null_action cfg;
          noise_abs_cost := cfg_noise_abs_cost cfg;
          M := cfg_rollout_samples cfg;
          rollout_var_cost := cfg_rollout_var_cost cfg;
          rollout_var_discount := cfg_rollout_var_discount cfg |}.

End Planner.

Arguments Library : clear implicits.
Arguments MPPIConfig : clear implicits.
Arguments MPPIPlanner : clear implicits.
Arguments Sampled : clear implicits.

(** ** One planning cycle *)

Section Cycle.
Context {F : Type} {SF : Scalar F}.
Variable St : Type.
Variable lib : Library F.

(** [l[i] = x] for an index inside the list; the callers below check the
    shapes first, as an index outside raises [IndexError] in the source. *)
Fixpoint upd {A} (i : nat) (x : A) (l : list A) : list A :=
  match l, i with
  | [], _ => []
  | _ :: t, O => x :: t
  | a :: t, S j => a :: upd j x t
  end.

(** [b[:, t]] and [b[:, t] = u] on a batch. *)
Definition col (t : nat) (b : list (list (list F))) : list (list F) :=
  map (fun traj => nth t traj []) b.

Definition set_col (t : nat) (u : list (list F)) (b : list (list (list F)))
  : list (list (list F)) :=
  map2 (fun traj uk => upd t uk traj) b u.

Definition zeros_like (v : list F) : list F := map (fun _ => s0) v.

(** [torch.roll(U, -1, dims=0)]: every row moves one place towards the
    front and the first row comes back in at the end. *)
Definition torch_roll (U0 : list (list F)) : list (list F) :=
  match U0 with
  | [] => []
  | first :: rest => rest ++ [first]
  end.

(** [v @ m] for a row vector [v]: the sum of the rows of [m] scaled by the
    entries of [v]. *)
Definition vecmat (v : list F) (m : list (list F)) : list F :=
  sum_dim0 (length v) (map2 vscale v m).

(** Python's [l[:n]]; a negative [n] counts from the end. *)
Definition py_prefix {A} (n : Z) (l : list A) : list A :=
  if (0 <=? n)%Z then firstn (Z.to_nat n) l
  else firstn (length l - Z.to_nat (- n)) l.

(** [_bound_action]; [self.u_max] is a tensor after [__init__], never
    [None]. *)
Definition _bound_action (p : MPPIPlanner F St) (action : list (list (list F)))
  : list (list (list F)) :=
  map (map (map (fun a => smax (smin a (u_max p)) (u_min p)))) action.

(** What the horizon loop of [_compute_rollout_costs] carries: the state,
    [self.perturbed_action] (the very tensor the loop reads its actions
    from), [cost_samples], and the lists [states] and [actions]. *)
Definition LoopState : Type :=
  (St * list (list (list F)) * list F * list St * list (list (list F)))%type.

Definition rollout_step (p : MPPIPlanner F St) (t : nat) (acc : LoopState)
  : option LoopState :=
  let '(state, pa, cost_samples, sts, acts) := acc in
  (* u = self.u_scale * perturbed_actions[:, t].repeat(self.M, 1, 1) *)
  let u := map (vscale (u_scale p)) (col t pa) in
  (* if self.sample_null_action:
         u[:, self.K - 1, :] = torch.zeros_like(u[:, self.K - 1, :])
         self.perturbed_action[self.K - 1][t] = u[:, self.K - 1, :]   *)
  do (u1, pa1) <-
    (if sample_null_action p then
       match K p with
       | O => None
       | S k =>
           let z := zeros_like (nth k u []) in
           Some (upd k z u, upd k (upd t z (nth k pa [])) pa)
       end
     else Some (u, pa));
  (* state, u = self._dynamics(state, u, t) *)
  do (state', u') <- dynamics p state u1;
  (* c = self._running_cost(state) *)
  do c <- running_cost p state';
  (* self.perturbed_action[:, t] = u *)
  if negb (is_matrix (K p) (nu p) u') then None else
  (* cost_samples += c *)
  if negb (is_vector (K p) c) then None else
  Some (state', set_col t u' pa1, vadd cost_samples c,
        sts ++ [state'], acts ++ [u']).

(** [cost_samples] in what the loop carries. *)
Definition loop_cost (r : LoopState) : list F :=
  let '(_, _, cs, _, _) := r in cs.

Fixpoint rollout_loop (p : MPPIPlanner F St) (ts : list nat) (acc : LoopState)
  : option LoopState :=
  match ts with
  | [] => Some acc
  | t :: rest => do acc' <- rollout_step p t acc; rollout_loop p rest acc'
  end.

(** [_compute_rollout_costs], for [M = 1] rollout per control trajectory:
    the write [self.perturbed_action[:, t] = u] takes an effective action
    of shape K x nu, and the collaborator of this repository returns the
    (M, K, nu) tensor it was given, which fits for one replica only.  With
    one replica [cost_samples.mean(dim=0)] is [cost_samples] and [cost_var]
    stays zero.  The result also carries the tensor [self.perturbed_action]
    as the loop left it. *)
Definition _compute_rollout_costs (p : MPPIPlanner F St) (state0 : St)
    (perturbed_actions : list (list (list F)))
  : option (list F * list St * list (list (list F)) * list (list (list F))) :=
  (* K, T, nu = perturbed_actions.shape; assert nu == self.nu *)
  if negb (is_batch (K p) (T p) (nu p) perturbed_actions) then None else
  if negb (M p =? 1)%nat then None else
  let cost_total0 := zeros (K p) in
  let cost_samples0 := cost_total0 in
  let cost_var := zeros_like cost_total0 in
  do (_, pa', cost_samples, sts, acts) <-
    rollout_loop p (seq 0 (T p))
      (state0, perturbed_actions, cost_samples0, [], []);
  (* torch.stack(actions, dim=-2) raises on an empty list *)
  if (T p =? 0)%nat then None else
  (* if self.terminal_state_cost: cost_samples += terminal_state_cost(states, actions) *)
  do cost_samples' <-
    match terminal_state_cost p with
    | None => Some cost_samples
    | Some terminal =>
        do c <- terminal sts acts;
        if is_vector (K p) c then Some (vadd cost_samples c) else None
    end;
  (* cost_total += cost_samples.mean(dim=0) *)
  let cost_total1 := vadd cost_total0 cost_samples' in
  (* cost_total += cost_var * self.rollout_var_cost *)
  let cost_total2 :=
    vadd cost_total1 (map (fun v => smul v (rollout_var_cost p)) cost_var) in
  Some (cost_total2, sts, acts, pa').

(** [_compute_total_cost_batch]; [draw] is the value of
    [self.noise_dist.sample((self.K, self.T))], a K x T x nu batch.  The
    first line is the shape agreement the tensor operations below insist
    on.  Result: cost_total, states, actions, noise, perturbed_action. *)
Definition _compute_total_cost_batch (p : MPPIPlanner F St) (state0 : St)
    (draw : list (list (list F)))
  : option (list F * list St * list (list (list F))
            * list (list (list F)) * list (list (list F))) :=
  if negb (is_batch (K p) (T p) (nu p) draw && is_matrix (T p) (nu p) (U p)
           && is_matrix (nu p) (nu p) (noise_sigma_inv p)) then None else
  (* self.perturbed_action = self.U + self.noise *)
  let pa := map (fun nk => map2 vadd (U p) nk) draw in
  (* self.perturbed_action = self._bound_action(self.perturbed_action) *)
  let pa := _bound_action p pa in
  do (cost, sts, acts, pa') <- _compute_rollout_costs p state0 pa;
  (* self.actions /= self.u_scale *)
  let acts' := map (map (map (fun a => sdiv a (u_scale p)))) acts in
  (* self.noise = self.perturbed_action - self.U *)
  let noise' := map (fun pk => map2 vsub pk (U p)) pa' in
  (* action_cost = self.lambda_ * [torch.abs](self.noise) @ self.noise_sigma_inv *)
  let action_cost :=
    if noise_abs_cost p then
      map (map (fun n => vecmat (vscale (lambda_ p) (map sabs n))
                                (noise_sigma_inv p))) noise'
    else
      map (map (fun n => vecmat (vscale (lambda_ p) n) (noise_sigma_inv p)))
          noise' in
  (* perturbation_cost = torch.sum(self.U * action_cost, dim=(1, 2)) *)
  let perturbation_cost :=
    map (fun ac => sum_all (map2 vmul (U p) ac)) action_cost in
  (* self.cost_total += perturbation_cost *)
  Some (vadd cost perturbation_cost, sts, acts', noise', pa').

(** What [command] returns: a vector when [u_per_command == 1], the first
    rows of [U] otherwise. *)
Inductive Action : Type :=
| Vector (v : list F)
| Sequence (m : list (list F)).

(** [act] is what the last two statements of [command] make of a control
    sequence [U2]: its first [n] rows, or its first row when [n == 1]. *)
Definition read_from (n : Z) (U2 : list (list F)) (act : Action) : Prop :=
  if (n =? 1)%Z then
    match act with
    | Vector a => exists rest, py_prefix n U2 = a :: rest
    | Sequence _ => False
    end
  else act = Sequence (py_prefix n U2).

(** The update loop [for t in range(self.T): self.U[t] += torch.sum(
    self.omega.view(-1, 1) * self.noise[:, t], dim=0)]. *)
Definition update_U (p : MPPIPlanner F St) (om : list F)
    (nse : list (list (list F))) (U0 : list (list F)) : list (list F) :=
  fold_left
    (fun Uc t =>
       upd t (vadd (nth t Uc []) (sum_dim0 (nu p) (map2 vscale om (col t nse))))
           Uc)
    (seq 0 (T p)) U0.

(** [command(state)] with the noise of this cycle.  The result is the
    planner with its new [U], the tensors the cycle leaves on [self], and
    the returned action.  [state0] is the state as [self.state] holds it
    after the conversion of lines 162-164 (a state that [torch.tensor]
    refuses never gets here); the attributes [sgf_window] and [sgf_order]
    that the cycle also sets are the two numbers handed to the filter. *)
Definition command (p : MPPIPlanner F St) (state0 : St)
    (draw : list (list (list F)))
  : option (MPPIPlanner F St * Sampled F St * Action) :=
  (* self.U = torch.roll(self.U, -1, dims=0) *)
  let p1 := set_U p (torch_roll (U p)) in
  do (cost, sts, acts, nse, pa) <- _compute_total_cost_batch p1 state0 draw;
  do (nz, eta, om) <- softmin (lambda_ p1) cost;
  let U2 := update_U p1 om nse (U p1) in
  (* action = self.U *)
  let action := U2 in
  (* if self.sample_null_action and cost_total[-1] <= 0.01:
         action = torch.zeros_like(action) *)
  let action :=
    if sample_null_action p1 && sleb (last cost s0) near_zero
    then map zeros_like action else action in
  (* if self.filter_u: action = savgol_filter(action, self.T, 2, ...) *)
  do action <-
    (if filter_u p1 then savgol_filter lib action (T p1) 2 else Some action);
  (* action = self.U[: self.u_per_command] *)
  let action := py_prefix (u_per_command p1) U2 in
  (* if self.u_per_command == 1: action = action[0] *)
  do out <-
    (if (u_per_command p1 =? 1)%Z then
       match action with
       | [] => None
       | a :: _ => Some (Vector a)
       end
     else Some (Sequence action));
  Some (set_U p1 U2,
        {| noise := nse; perturbed_action := pa; cost_total := cost;
           cost_total_non_zero := nz; omega := om; states := sts;
           actions := acts |},
        out).

(** [reset()]; [draw] is the value of [self.noise_dist.sample((self.T,))]. *)
Definition reset (p : MPPIPlanner F St) (draw : list (list F)) : MPPIPlanner F St :=
  set_U p draw.

End Cycle.

(** ** Real-number reading of the elements *)

Definition Rleb (a b : R) : bool := if Rle_dec a b then true else false.
Definition Rltb (a b : R) : bool := if Rlt_dec a b then true else false.
Definition Rtruthy (a : R) : bool := if Req_dec_T a 0 then false else true.

#[export] Instance R_scalar : Scalar R := {|
  sofZ := IZR;
  sadd := Rplus;
  ssub := Rminus;
  smul := Rmult;
  sdiv := Rdiv;
  sneg := Ropp;
  sabs := Rabs;
  sexp := exp;
  smin := Rmin;
  smax := Rmax;
  sleb := Rleb;
  sltb := Rltb;
  struthy := Rtruthy
|}.

Open Scope R_scope.

(** ** Reading with the IEEE special values

    A tensor element is a finite number, one of the two infinities, or
    not-a-number.  Finite arithmetic is that of the reals (no rounding, no
    overflow, one zero, read as [+0]); the special values follow IEEE 754
    as [torch] applies it: any operation on [nan] is [nan], so are
    [inf - inf], [0 * inf] and [inf / inf], every comparison with [nan]
    is false, and [torch.min]/[torch.max] return [nan] when they meet one. *)

Inductive xreal : Type :=
| Fin (r : R)
| PInf
| NInf
| NaN.

Definition xneg (a : xreal) : xreal :=
  match a with
  | Fin r => Fin (- r)
  | PInf => NInf
  | NInf => PInf
  | NaN => NaN
  end.

Definition xadd (a b : xreal) : xreal :=
  match a, b with
  | NaN, _ | _, NaN => NaN
  | PInf, NInf | NInf, PInf => NaN
  | PInf, _ | _, PInf => PInf
  | NInf, _ | _, NInf => NInf
  | Fin x, Fin y => Fin (x + y)
  end.

Definition xsub (a b : xreal) : xreal := xadd a (xneg b).

(** The sign of a product with an infinity. *)
Definition xsigned_inf (positive : bool) : xreal :=
  if positive then PInf else NInf.

Definition xmul (a b : xreal) : xreal :=
  match a, b with
  | NaN, _ | _, NaN => NaN
  | Fin x, Fin y => Fin (x * y)
  | PInf, PInf | NInf, NInf => PInf
  | PInf, NInf | NInf, PInf => NInf
  | PInf, Fin x | Fin x, PInf =>
      if Req_dec_T x 0 then NaN else xsigned_inf (Rltb 0 x)
  | NInf, Fin x | Fin x, NInf =>
      if Req_dec_T x 0 then NaN else xsigned_inf (Rltb x 0)
  end.

Definition xdiv (a b : xreal) : xreal :=
  match a, b with
  | NaN, _ | _, NaN => NaN
  | Fin x, Fin y =>
      if Req_dec_T y 0 then
        (if Req_dec_T x 0 then NaN else xsigned_inf (Rltb 0 x))
      else Fin (x / y)
  | Fin _, PInf | Fin _, NInf => Fin 0
  | PInf, Fin y => xsigned_inf (Rleb 0 y)
  | NInf, Fin y => xsigned_inf (Rltb y 0)
  | _, _ => NaN
  end.

Definition xabs (a : xreal) : xreal :=
  match a with
  | Fin r => Fin (Rabs r)
  | PInf | NInf => PInf
  | NaN => NaN
  end.

Definition xexp (a : xreal) : xreal :=
  match a with
  | Fin r => Fin (exp r)
  | PInf => PInf
  | NInf => Fin 0
  | NaN => NaN
  end.

Definition xleb (a b : xreal) : bool :=
  match a, b with
  | NaN, _ | _, NaN => false
  | NInf, _ | _, PInf => true
  | _, NInf | PInf, _ => false
  | Fin x, Fin y => Rleb x y
  end.

Definition xltb (a b : xreal) : bool :=
  match a, b with
  | NaN, _ | _, NaN => false
  | PInf, _ | _, NInf => false
  | NInf, _ | _, PInf => true
  | Fin x, Fin y => Rltb x y
  end.

Definition xmin (a b : xreal) : xreal :=
  match a, b with
  | NaN, _ | _, NaN => NaN
  | _, _ => if xleb a b then a else b
  end.

Definition xmax (a b : xreal) : xreal :=
  match a, b with
  | NaN, _ | _, NaN => NaN
  | _, _ => if xleb a b then b else a
  end.

(** [bool(x)] of a Python float: only zero is false ([nan] is true). *)
Definition xtruthy (a : xreal) : bool :=
  match a with
  | Fin r => Rtruthy r
  | _ => true
  end.

#[export] Instance xreal_scalar : Scalar xreal := {|
  sofZ := fun z => Fin (IZR z);
  sadd := xadd;
  ssub := xsub;
  smul := xmul;
  sdiv := xdiv;
  sneg := xneg;
  sabs := xabs;
  sexp := xexp;
  smin := xmin;
  smax := xmax;
  sleb := xleb;
  sltb := xltb;
  struthy := xtruthy
|}.

Definition non_finite (a : xreal) : Prop :=
  match a with Fin _ => False | _ => True end.

(** ** Properties of results, and the inputs of the examples *)

(** [lo <= x <= hi], on an element and on a returned action. *)
Definition within (lo hi x : R) : Prop := lo <= x <= hi.

Definition action_within (lo hi : R) (a : Action (F := R)) : Prop :=
  match a with
  | Vector v => Forall (within lo hi) v
  | Sequence m => Forall (Forall (within lo hi)) m
  end.

(** Rollout consistency (spec, section 8), the manual side: follow the one
    trajectory step by step, hand the scaled action (the zero vector when
    the null action is sampled) to the dynamics, take the running cost of
    the state it returns, and add the costs up in the order of the steps. *)
Fixpoint manual_cost_sum {St : Type} (p : MPPIPlanner R St) (state : St)
    (traj : list (list R)) (acc : R) : option R :=
  match traj with
  | [] => Some acc
  | a :: rest =>
      let u := if sample_null_action p then zeros_like a
               else vscale (u_scale p) a in
      do (state', _) <- dynamics p state [u];
      do c <- running_cost p state';
      manual_cost_sum p state' rest (acc + hd 0 c)
  end.

(** A collaborator in the manner of [MPPIisaacPlanner]: the state is a
    placeholder, [dynamics] hands the action back as it came, and the cost
    is the same number for each of the [k] samples. *)
Definition echo_dynamics {F : Type} (s : unit) (u : list (list F))
  : option (unit * list (list F)) := Some (s, u).

Definition flat_cost {F : Type} (k : nat) (c : F) (s : unit)
  : option (list F) := Some (repeat c k).

(** The least-squares parabola through the points [(i, ys[i])], read off at
    every [i]: with the positions centred the three basis polynomials
    [1], [x] and [x^2 - mean(x^2)] are orthogonal and the fit is the sum of
    the three projections. *)
Definition parabola_fit (ys : list R) : list R :=
  let n := IZR (Z.of_nat (length ys)) in
  let xs := map (fun i => IZR (Z.of_nat i) - (n - 1) / 2)
                (seq 0 (length ys)) in
  let S2 := torch_sum (map (fun x => x * x) xs) in
  let qs := map (fun x => x * x - S2 / n) xs in
  let a0 := torch_sum ys / n in
  let a1 := torch_sum (map2 Rmult xs ys) / S2 in
  let a2 := torch_sum (map2 Rmult qs ys)
            / torch_sum (map (fun q => q * q) qs) in
  map2 (fun x q => a0 + a1 * x + a2 * q) xs qs.

(** [signal.savgol_filter(x, window, order, axis=0, mode="interp")] the
    way [command] calls it, with an odd window as long as [x] and order 2:
    every column of [x] is replaced by its least-squares parabola (the
    centre by the convolution, both halves by the edge fit, over the same
    window).  An order that is not below the window raises; the other
    windows are not covered by this table and answer [None] as well. *)
Definition savgol_whole_window (x : list (list R)) (window order : nat)
  : option (list (list R)) :=
  if (window =? length x)%nat && Nat.odd window && (order =? 2)%nat
     && (order <? window)%nat
  then
    let fitted :=
      map (fun j => parabola_fit (map (fun row => nth j row 0) x))
          (seq 0 (length (hd [] x))) in
    Some (map (fun t => map (fun column => nth t column 0) fitted)
              (seq 0 (length x)))
  else None.

(** The library calls for one action dimension: the inverse and the
    validity of a 1 x 1 covariance, and the filter above. *)
Definition scalar_library : Library R := {|
  inverse_values := fun m =>
    match m with
    | [[a]] => if Rtruthy a then Some [[1 / a]] else None
    | _ => None
    end;
  mvn_valid := fun mu m =>
    match mu, m with
    | [_], [[a]] => Rltb 0 a
    | _, _ => false
    end;
  savgol_filter := savgol_whole_window
|}.

(** The same with no call answered, for cycles that make none. *)
Definition silent_library (F : Type) : Library F := {|
  inverse_values := fun _ => None;
  mvn_valid := fun _ _ => false;
  savgol_filter := fun _ _ _ => None
|}.

(** A collaborator that hands back twice the action it was given. *)
Definition doubling_dynamics (s : unit) (u : list (list R))
  : option (unit * list (list R)) := Some (s, map (map (Rmult 2)) u).

(** One action dimension, unit covariance, bounds [-1, 1], [lambda_ = 1]. *)
Definition scalar_planner {F : Type} {SF : Scalar F}
    (dyn : unit -> list (list F) -> option (unit * list (list F)))
    (k t : nat) (U0 : list (list F)) (scale : F) (null : bool) (c : F)
  : MPPIPlanner F unit := {|
  dynamics := dyn;
  running_cost := flat_cost k c;
  terminal_state_cost := None;
  nx := 2;
  noise_sigma := [[s1]];
  noise_mu := [s0];
  noise_sigma_inv := [[s1]];
  u_init := s0;
  U := U0;
  u_max := s1;
  u_min := sneg s1;
  K := k;
  T := t;
  filter_u := false;
  nu := 1;
  lambda_ := s1;
  u_scale := scale;
  u_per_command := 1;
  sample_null_action := null;
  noise_abs_cost := false;
  M := 1;
  rollout_var_cost := s0;
  rollout_var_discount := sdiv (sofZ 95) (sofZ 100)
|}.

(** A configuration for one action dimension with unit covariance; the
    mean and the initial sequence are left to their defaults. *)
Definition scalar_config (umin umax : R) : MPPIConfig R := {|
  cfg_num_samples := 1;
  cfg_horizon := 1;
  cfg_noise_sigma := Some [[1]];
  cfg_noise_mu := None;
  cfg_lambda_ := 1;
  cfg_u_min := umin;
  cfg_u_max := umax;
  cfg_u_init := 0;
  cfg_U_init := None;
  cfg_u_scale := 1;
  cfg_u_per_command := 1;
  cfg_rollout_samples := 1;
  cfg_rollout_var_cost := 0;
  cfg_rollout_var_discount := 95 / 100;
  cfg_sample_null_action := false;
  cfg_noise_abs_cost := false;
  cfg_filter_u := false
|}.

(** The library calls for two action dimensions: the inverse by the
    adjugate, and the Cholesky factorisation, which reads the lower
    triangle and succeeds when both of its pivots are positive. *)
Definition pair_library : Library R := {|
  inverse_values := fun m =>
    match m with
    | [[a; b]; [c; d]] =>
        let det := a * d - b * c in
        if Rtruthy det
        then Some [[d / det; - b / det]; [- c / det; a / det]]
        else None
    | _ => None
    end;
  mvn_valid := fun mu m =>
    match mu, m with
    | [_; _], [[a; _]; [c; d]] => Rltb 0 a && Rltb 0 (d - c * c / a)
    | _, _ => false
    end;
  savgol_filter := savgol_whole_window
|}.

(** A configuration for two action dimensions with the covariance
    [sigma]; the mean and the initial sequence are left to their
    defaults, the bounds are the defaults [-1] and [1]. *)
Definition pair_config (sigma : list (list R)) : MPPIConfig R := {|
  cfg_num_samples := 1;
  cfg_horizon := 1;
  cfg_noise_sigma := Some sigma;
  cfg_noise_mu := None;
  cfg_lambda_ := 1;
  cfg_u_min := -1;
  cfg_u_max := 1;
  cfg_u_init := 0;
  cfg_U_init := None;
  cfg_u_scale := 1;
  cfg_u_per_command := 1;
  cfg_rollout_samples := 1;
  cfg_rollout_var_cost := 0;
  cfg_rollout_var_discount := 95 / 100;
  cfg_sample_null_action := false;
  cfg_noise_abs_cost := false;
  cfg_filter_u := false
|}.

(** The same planner with other bounds. *)
Definition set_bounds {F : Type} {St : Type} (p : MPPIPlanner F St)
    (lo hi : F) : MPPIPlanner F St :=
  {| dynamics := dynamics p; running_cost := running_cost p;
     terminal_state_cost := terminal_state_cost p; nx := nx p;
     noise_sigma := noise_sigma p; noise_mu := noise_mu p;
     noise_sigma_inv := noise_sigma_inv p; u_init := u_init p;
     U := U p; u_max := hi; u_min := lo; K := K p; T := T p;
     filter_u := filter_u p; nu := nu p; lambda_ := lambda_ p;
     u_scale := u_scale p; u_per_command := u_per_command p;
     sample_null_action := sample_null_action p;
     noise_abs_cost := noise_abs_cost p; M := M p;
     rollout_var_cost := rollout_var_cost p;
     rollout_var_discount := rollout_var_discount p |}.

(** The same planner with another running cost (the wrapper's
    [update_objective] swaps the objective its [running_cost] reads). *)
Definition set_running_cost {F : Type} {St : Type} (p : MPPIPlanner F St)
    (cost : St -> option (list F)) : MPPIPlanner F St :=
  {| dynamics := dynamics p; running_cost := cost;
     terminal_state_cost := terminal_state_cost p; nx := nx p;
     noise_sigma := noise_sigma p; noise_mu := noise_mu p;
     noise_sigma_inv := noise_sigma_inv p; u_init := u_init p;
     U := U p; u_max := u_max p; u_min := u_min p; K := K p; T := T p;
     filter_u := filter_u p; nu := nu p; lambda_ := lambda_ p;
     u_scale := u_scale p; u_per_command := u_per_command p;
     sample_null_action := sample_null_action p;
     noise_abs_cost := noise_abs_cost p; M := M p;
     rollout_var_cost := rollout_var_cost p;
     rollout_var_discount := rollout_var_discount p |}.

(** A running cost raised by the same number [c] for every sample. *)
Definition offset_cost {F : Type} {SF : Scalar F} {St : Type}
    (cost : St -> option (list F)) (c : F) (s : St) : option (list F) :=
  option_map (map (fun x => sadd x c)) (cost s).

(** The tensors of a cycle with [cost_total] replaced. *)
Definition set_cost_total {F : Type} {St : Type} (smp : Sampled F St)
    (cost : list F) : Sampled F St :=
  {| noise := noise smp; perturbed_action := perturbed_action smp;
     cost_total := cost; cost_total_non_zero := cost_total_non_zero smp;
     omega := omega smp; states := states smp; actions := actions smp |}.

(** Shape and a property of the elements together: a row of [c] elements
    that satisfy [P], a trajectory of [r] such rows, a batch of [k] such
    trajectories. *)
Definition row_ok {F : Type} (P : F -> Prop) (c : nat) (v : list F) : Prop :=
  length v = c /\ Forall P v.

Definition traj_ok {F : Type} (P : F -> Prop) (r c : nat)
    (m : list (list F)) : Prop :=
  length m = r /\ Forall (row_ok P c) m.

Definition batch_ok {F : Type} (P : F -> Prop) (k r c : nat)
    (b : list (list (list F))) : Prop :=
  length b = k /\ Forall (traj_ok P r c) b.

(** What the horizon loop keeps true of what it carries. *)
Definition loop_ok {F : Type} {St : Type} (P : F -> Prop)
    (p : MPPIPlanner F St) (acc : LoopState (F := F) St) : Prop :=
  let '(_, pa, cs, _, _) := acc in
  batch_ok P (K p) (T p) (nu p) pa /\ length cs = K p.

(** Every element of a returned action is [nan]. *)
Definition action_all_nan (a : Action (F := xreal)) : Prop :=
  match a with
  | Vector v => Forall (eq NaN) v
  | Sequence m => Forall (Forall (eq NaN)) m
  end.

(** ** The heart mesh (assets/urdf/heart_gen.py)

    [generate_stl_files] evaluates [heart_implicit] on a grid and hands
    the values to a contouring routine at level zero. *)

Definition heart_implicit (x y z : R) : R :=
  ((5 * x) ^ 2 + (9 / 4) * (5 * y) ^ 2 + (5 * z) ^ 2 - 1) ^ 3
  - (5 * x) ^ 2 * (5 * z) ^ 3
  - (9 / 80) * (5 * y) ^ 2 * (5 * z) ^ 3.

(** The [i]-th of the [num] points of [np.linspace(start, stop, num)]. *)
Definition linspace (start stop : R) (num : nat) (i : nat) : R :=
  start + INR i * ((stop - start) / INR (num - 1)).

(** [np.linspace(-1.5, 1.5, 250)], the grid on each of the three axes. *)
Definition heart_grid (i : nat) : R := linspace (-3 / 2) (3 / 2) 250 i.

(** ** The asset generators (conf/actors/create_cfg.py,
    assets/urdf/heart_gen.py)

    Each generator creates its output directory when that is missing and
    then writes one file per index of [range(num_files)].  Embedded is
    what the body of that loop computes at an index [i]: the path it
    opens for writing and, for the actor configurations, the dictionary
    it dumps.  Whether the directory can be made and a file opened is the
    answer of the file system and is not part of the embedding. *)

(** [f'{i}'] for a count [i]: its decimal digits. *)
Definition str_of_nat (i : nat) : String.string :=
  DecimalString.NilEmpty.string_of_uint (Nat.to_uint i).

Definition startswith_sep (s : String.string) : bool :=
  match s with
  | String.String c _ => Ascii.eqb c "/"%char
  | String.EmptyString => false
  end.

Fixpoint endswith_sep (s : String.string) : bool :=
  match s with
  | String.EmptyString => false
  | String.String c String.EmptyString => Ascii.eqb c "/"%char
  | String.String _ rest => endswith_sep rest
  end.

(** [os.path.join(a, b)] on POSIX paths: an absolute [b] replaces [a];
    otherwise [b] is appended, after a separator unless [a] is empty or
    ends with one. *)
Definition os_path_join (a b : String.string) : String.string :=
  if startswith_sep b then b
  else if String.eqb a String.EmptyString || endswith_sep a
       then String.append a b
       else String.append a (String.append "/"%string b).

(** [f'{stem}_{i}{ext}'] *)
Definition indexed_name (stem : String.string) (i : nat)
    (ext : String.string) : String.string :=
  String.append stem
    (String.append "_"%string (String.append (str_of_nat i) ext)).

(** The dictionary [actor_cfg]. *)
Record ActorCfg : Type := {
  actor_cfg_type : String.string;
  actor_cfg_name : String.string;
  actor_cfg_urdf_file : String.string;
  actor_cfg_flip_visual : bool;
  actor_cfg_collision : bool;
  actor_cfg_gravity : bool;
  actor_cfg_init_pos : list R;
  actor_cfg_fixed : bool;
  actor_cfg_handle : String.string;
  actor_cfg_color : list Z
}.

(** create_cfg.py, in the loop of [generate_actor_yaml_files]: the
    dictionary [actor_cfg] of index [i] and the [file_path] it is dumped
    to. *)
Definition actor_cfg (actor_name : String.string) (i : nat)
    (init_pos_val : list R) : ActorCfg :=
  {| actor_cfg_type := "nonconvex_mesh"%string;
     actor_cfg_name :=
       String.append actor_name (String.append "_"%string (str_of_nat i));
     actor_cfg_urdf_file :=
       String.append actor_name
         (String.append "/uncertain/"%string
            (indexed_name actor_name i ".urdf"%string));
     actor_cfg_flip_visual := false;
     actor_cfg_collision := true;
     actor_cfg_gravity := false;
     actor_cfg_init_pos := init_pos_val;
     actor_cfg_fixed := true;
     actor_cfg_handle := "None"%string;
     actor_cfg_color := [255; 0; 0]%Z |}.

Definition file_path (actor_name output_dir : String.string) (i : nat)
  : String.string :=
  os_path_join output_dir (indexed_name actor_name i ".yaml"%string).

(** heart_gen.py: [output_path] in the loop of [generate_urdf_files] and
    [stl_filename] in the loop of [generate_stl_files], at index [i];
    [obs] is the module's name of the obstacle. *)
Definition output_path (obs output_dir : String.string) (i : nat)
  : String.string :=
  os_path_join output_dir (indexed_name obs i ".urdf"%string).

Definition stl_filename (obs output_dir : String.string) (i : nat)
  : String.string :=
  os_path_join output_dir (indexed_name obs i ".stl"%string).

(** * Theorems *)

Lemma Rtruthy_true (a : R) : a <> 0 -> Rtruthy a = true.
Proof.
  intros H. unfold Rtruthy.
  destruct (Req_dec_T a 0); [contradiction | reflexivity].
Qed.

Lemma Rtruthy_false (a : R) : a = 0 -> Rtruthy a = false.
Proof.
  intros H. unfold Rtruthy.
  destruct (Req_dec_T a 0); [reflexivity | contradiction].
Qed.

Lemma fold_min_le_init (l : list R) (x : R) : fold_left Rmin l x <= x.
Proof.
  revert x. induction l as [|y l IH]; intros x; simpl.
  - lra.
  - eapply Rle_trans; [apply IH | apply Rmin_l].
Qed.

Lemma fold_min_lower (l : list R) (x : R) :
  Forall (fun y => fold_left Rmin l x <= y) l.
Proof.
  revert x. induction l as [|y l IH]; intros x; simpl; constructor.
  - eapply Rle_trans; [apply fold_min_le_init | apply Rmin_r].
  - apply IH.
Qed.

Lemma fold_min_member (l : list R) (x : R) :
  In (fold_left Rmin l x) (x :: l).
Proof.
  revert x. induction l as [|y l IH]; intros x; simpl.
  - now left.
  - destruct (IH (Rmin x y)) as [H | H].
    + unfold Rmin in H at 1. destruct (Rle_dec x y).
      * left. exact H.
      * right. left. exact H.
    + right. right. exact H.
Qed.

(** [torch_min] returns an entry of the vector that is below all of them. *)
Lemma torch_min_spec (cost : list R) (beta : R) :
  torch_min cost = Some beta ->
  In beta cost /\ Forall (fun y => beta <= y) cost.
Proof.
  destruct cost as [|x rest]; [discriminate|].
  intros H. injection H as <-. split; [apply fold_min_member|].
  constructor; [apply fold_min_le_init | apply fold_min_lower].
Qed.

(** ** The softmin step over the reals *)

Lemma fold_min_shift (l : list R) (x c : R) :
  fold_left Rmin (map (fun y => y + c) l) (x + c) = fold_left Rmin l x + c.
Proof.
  revert x. induction l as [|y l IH]; intros x; simpl.
  - reflexivity.
  - replace (Rmin (x + c) (y + c)) with (Rmin x y + c); [apply IH|].
    unfold Rmin. destruct (Rle_dec x y), (Rle_dec (x + c) (y + c)); lra.
Qed.

Lemma torch_sum_nonneg (l : list R) :
  Forall (fun y => 0 <= y) l -> 0 <= torch_sum l.
Proof.
  induction 1 as [|y l Hy _ IH]; simpl.
  - unfold s0. simpl. lra.
  - lra.
Qed.

Lemma torch_sum_ge_member (l : list R) (a : R) :
  Forall (fun y => 0 <= y) l -> In a l -> a <= torch_sum l.
Proof.
  induction 1 as [|y l Hy Hl IH]; simpl; intros Hin.
  - contradiction.
  - pose proof (torch_sum_nonneg Hl) as Hs.
    destruct Hin as [-> | Hin].
    + lra.
    + specialize (IH Hin). lra.
Qed.

Lemma torch_sum_vscale (a : R) (l : list R) :
  torch_sum (vscale a l) = a * torch_sum l.
Proof.
  unfold torch_sum, vscale.
  induction l as [|y l IH]; simpl in *.
  - unfold s0. simpl. lra.
  - rewrite IH. lra.
Qed.

Lemma ensure_non_zero_pos (cost : list R) (beta factor : R) :
  Forall (fun y => 0 < y) (_ensure_non_zero cost beta factor).
Proof.
  unfold _ensure_non_zero. apply Forall_forall. intros y Hy.
  apply in_map_iff in Hy. destruct Hy as [c [<- _]]. apply exp_pos.
Qed.

Lemma ensure_non_zero_has_one (cost : list R) (beta factor : R) :
  In beta cost -> In 1 (_ensure_non_zero cost beta factor).
Proof.
  intros Hin. unfold _ensure_non_zero. apply in_map_iff.
  exists beta. split; [|exact Hin]. simpl.
  replace (- factor * (beta - beta)) with 0 by lra. apply exp_0.
Qed.

(** On a non-empty cost vector and a non-zero temperature the softmin step
    raises nothing, and its normaliser is at least one. *)
Lemma softmin_defined (lam : R) (cost : list R) :
  lam <> 0 -> cost <> [] ->
  exists beta,
    torch_min cost = Some beta /\
    softmin lam cost =
      Some (_ensure_non_zero cost beta (1 / lam),
            torch_sum (_ensure_non_zero cost beta (1 / lam)),
            vscale (1 / torch_sum (_ensure_non_zero cost beta (1 / lam)))
                   (_ensure_non_zero cost beta (1 / lam))) /\
    1 <= torch_sum (_ensure_non_zero cost beta (1 / lam)).
Proof.
  intros Hlam Hne. destruct cost as [|x rest]; [contradiction|].
  exists (fold_left Rmin rest x). split; [reflexivity|]. split.
  - unfold softmin, torch_min, py_inv. simpl.
    rewrite (Rtruthy_true Hlam). reflexivity.
  - apply torch_sum_ge_member.
    + eapply Forall_impl; [|apply ensure_non_zero_pos]. simpl. intros; lra.
    + apply ensure_non_zero_has_one, fold_min_member.
Qed.

(** C1.  For every non-empty cost vector and every temperature
    [lambda_ > 0], the softmin step of [command] yields weights [omega],
    one per sample, that are all non-negative and sum to one. *)
Theorem softmin_weights_distribution (lam : R) (cost : list R) :
  0 < lam -> cost <> [] ->
  exists nz eta om,
    softmin lam cost = Some (nz, eta, om) /\
    length om = length cost /\
    Forall (fun w => 0 <= w) om /\
    torch_sum om = 1.
Proof.
  intros Hlam Hne.
  destruct (@softmin_defined lam cost) as [beta [_ [Heq Heta]]];
    [lra | exact Hne |].
  set (nz := _ensure_non_zero cost beta (1 / lam)) in *.
  exists nz, (torch_sum nz), (vscale (1 / torch_sum nz) nz).
  split; [exact Heq|]. split; [|split].
  - unfold vscale, nz, _ensure_non_zero. now rewrite !length_map.
  - unfold vscale. apply Forall_forall. intros w Hw.
    apply in_map_iff in Hw. destruct Hw as [y [<- Hy]].
    pose proof (ensure_non_zero_pos cost beta (1 / lam)) as Hpos.
    rewrite Forall_forall in Hpos. specialize (Hpos y Hy). simpl.
    assert (0 < 1 / torch_sum nz) by (apply Rdiv_lt_0_compat; lra).
    apply Rmult_le_pos; lra.
  - rewrite torch_sum_vscale. field. lra.
Qed.

Lemma softmin_weights_distribution_witness :
  exists nz eta om,
    softmin 1 [3; 1; 2] = Some (nz, eta, om) /\
    length om = length [3; 1; 2] /\
    Forall (fun w => 0 <= w) om /\
    torch_sum om = 1.
Proof.
  apply softmin_weights_distribution; [lra | discriminate].
Defined.

(** C4.  Adding one constant to every entry of [cost_total] changes
    nothing in the result of the softmin step: the exponentials, their sum
    and the weights [omega] are the same. *)
Theorem softmin_shift_invariant (lam c : R) (cost : list R) :
  softmin lam (map (fun x => x + c) cost) = softmin lam cost.
Proof.
  destruct cost as [|x rest]; [reflexivity|].
  unfold softmin, torch_min.
  change (map (fun y => y + c) (x :: rest))
    with ((x + c) :: map (fun y => y + c) rest).
  cbv beta iota. rewrite fold_min_shift.
  destruct (py_inv lam) as [factor|]; [|reflexivity].
  assert (Hnz : _ensure_non_zero ((x + c) :: map (fun y => y + c) rest)
                  (fold_left Rmin rest x + c) factor
                = _ensure_non_zero (x :: rest) (fold_left Rmin rest x) factor).
  { unfold _ensure_non_zero.
    change ((x + c) :: map (fun y => y + c) rest)
      with (map (fun y => y + c) (x :: rest)).
    rewrite map_map. apply map_ext. intros y. simpl. f_equal. lra. }
  cbv zeta. rewrite Hnz. reflexivity.
Qed.

(** C10.  For every non-empty cost vector and every [lambda_ > 0] the
    normaliser [eta] of the softmin step is at least one, so the division
    by [eta] is a division by a non-zero number. *)
Theorem softmin_eta_ge_one (lam : R) (cost : list R) :
  0 < lam -> cost <> [] ->
  exists nz eta om,
    softmin lam cost = Some (nz, eta, om) /\ 1 <= eta /\ eta <> 0.
Proof.
  intros Hlam Hne.
  destruct (@softmin_defined lam cost) as [beta [_ [Heq Heta]]];
    [lra | exact Hne |].
  eexists _, _, _. split; [exact Heq|]. split; [exact Heta | lra].
Qed.

Lemma softmin_eta_ge_one_witness :
  exists nz eta om,
    softmin 2 [5; 7] = Some (nz, eta, om) /\ 1 <= eta /\ eta <> 0.
Proof.
  apply softmin_eta_ge_one; [lra | discriminate].
Defined.

(** ** The shift of the control sequence *)

Example torch_roll_three :
  torch_roll [[1]; [2]; [3]] = [[2]; [3]; [1]].
Proof. reflexivity. Qed.

Example py_prefix_one : py_prefix 1 [[1]; [2]; [3]] = [[1]].
Proof. reflexivity. Qed.

Example py_prefix_negative : py_prefix (-1) [[1]; [2]; [3]] = [[1]; [2]].
Proof. reflexivity. Qed.

Lemma torch_roll_length {F : Type} (U0 : list (list F)) :
  length (torch_roll U0) = length U0.
Proof.
  destruct U0 as [|first rest]; simpl; [reflexivity|].
  rewrite length_app. simpl. lia.
Qed.


Lemma torch_roll_back {F : Type} (U0 : list (list F)) (d : list F) :
  U0 <> [] ->
  nth (length U0 - 1) (torch_roll U0) d = nth 0 U0 d.
Proof.
  destruct U0 as [|first rest]; simpl; intros Hne; [contradiction|].
  rewrite app_nth2 by lia.
  replace (length rest - 0 - length rest)%nat with 0%nat by lia.
  reflexivity.
Qed.

(** ** Lists updated by index *)

Lemma upd_length {A} (i : nat) (x : A) (l : list A) :
  length (upd i x l) = length l.
Proof.
  revert i. induction l as [|a l IH]; intros [|i]; simpl; auto.
Qed.

Lemma nth_upd_same {A} (i : nat) (x d : A) (l : list A) :
  (i < length l)%nat -> nth i (upd i x l) d = x.
Proof.
  revert i. induction l as [|a l IH]; intros [|i]; simpl; intros H;
    try lia; auto. apply IH. lia.
Qed.

Lemma nth_upd_other {A} (i j : nat) (x d : A) (l : list A) :
  i <> j -> nth j (upd i x l) d = nth j l d.
Proof.
  revert i j. induction l as [|a l IH]; intros [|i] [|j] H; simpl; auto;
    try lia.
Qed.

Lemma skipn_upd {A} (i : nat) (x : A) (l : list A) :
  skipn (S i) (upd i x l) = skipn (S i) l.
Proof.
  revert i. induction l as [|a l IH]; intros [|i]; simpl; auto.
  apply (IH i).
Qed.

Lemma skipn_cons_nth {A} (i : nat) (l rest : list A) (a d : A) :
  skipn i l = a :: rest -> nth i l d = a /\ skipn (S i) l = rest.
Proof.
  revert i. induction l as [|b l IH]; intros [|i] H; simpl in *;
    try discriminate.
  - injection H as -> ->. auto.
  - apply IH. exact H.
Qed.

Lemma Forall_upd {A} (P : A -> Prop) (i : nat) (x : A) (l : list A) :
  P x -> Forall P l -> Forall P (upd i x l).
Proof.
  intros Hx Hl. revert i. induction Hl as [|a l Ha Hl IH]; intros [|i];
    simpl; constructor; auto.
Qed.

(** ** Shapes *)

Lemma is_vector_true {F : Type} (n : nat) (v : list F) :
  is_vector n v = true <-> length v = n.
Proof. unfold is_vector. apply Nat.eqb_eq. Qed.

Lemma is_matrix_true {F : Type} (r c : nat) (m : list (list F)) :
  is_matrix r c m = true <->
  length m = r /\ Forall (fun v => length v = c) m.
Proof.
  unfold is_matrix. rewrite andb_true_iff, Nat.eqb_eq, forallb_forall,
    Forall_forall.
  split; intros [H1 H2]; split; auto; intros v Hv;
    apply is_vector_true; auto.
Qed.

Lemma is_batch_true {F : Type} (k r c : nat) (b : list (list (list F))) :
  is_batch k r c b = true <->
  length b = k /\
  Forall (fun m => length m = r /\ Forall (fun v => length v = c) m) b.
Proof.
  unfold is_batch. rewrite andb_true_iff, Nat.eqb_eq, forallb_forall,
    Forall_forall.
  split; intros [H1 H2]; split; auto; intros v Hv;
    apply is_matrix_true; auto.
Qed.

Lemma zeros_like_vscale (a : R) (v : list R) :
  zeros_like (vscale a v) = zeros_like v.
Proof. unfold zeros_like, vscale. now rewrite map_map. Qed.

(** ** Rollout of a single trajectory *)

Section SingleTrajectory.
Variable St : Type.
Variable p : MPPIPlanner R St.
Hypothesis one_sample : K p = 1%nat.
Hypothesis dynamics_shape : forall s u s' u',
  is_matrix 1 (nu p) u = true ->
  dynamics p s u = Some (s', u') -> is_matrix 1 (nu p) u' = true.
Hypothesis cost_shape : forall s c,
  running_cost p s = Some c -> length c = 1%nat.

Lemma rollout_loop_single (rest : list (list R)) :
  forall (t0 : nat) (trajc : list (list R)) (s : St) (acc : R)
         (sts : list St) (acts : list (list (list R))),
    skipn t0 trajc = rest ->
    Forall (fun a => length a = nu p) rest ->
    option_map (@loop_cost R St)
      (rollout_loop p (seq t0 (length rest)) (s, [trajc], [acc], sts, acts))
    = option_map (fun v => [v]) (manual_cost_sum p s rest acc).
Proof.
  induction rest as [|a rest IH];
    intros t0 trajc s acc sts acts Hskip Hshape.
  - reflexivity.
  - destruct (skipn_cons_nth _ _ [] Hskip) as [Hnth Hrest].
    apply Forall_cons_iff in Hshape. destruct Hshape as [Ha Hshape'].
    cbn [length seq rollout_loop manual_cost_sum].
    unfold rollout_step. rewrite one_sample.
    cbn [col map nth upd]. rewrite Hnth.
    assert (Hstep :
      (if sample_null_action p
       then Some ([zeros_like (vscale (u_scale p) a)],
                  [upd t0 (zeros_like (vscale (u_scale p) a)) trajc])
       else Some ([vscale (u_scale p) a], [trajc]))
      = Some ([if sample_null_action p then zeros_like a
               else vscale (u_scale p) a],
              [if sample_null_action p
               then upd t0 (zeros_like a) trajc else trajc])).
    { destruct (sample_null_action p); [rewrite zeros_like_vscale|];
        reflexivity. }
    rewrite Hstep. clear Hstep.
    assert (Hin : is_matrix 1 (nu p)
                    [if sample_null_action p then zeros_like a
                     else vscale (u_scale p) a] = true).
    { apply is_matrix_true. split; [reflexivity|]. constructor; [|constructor].
      unfold zeros_like, vscale.
      destruct (sample_null_action p); now rewrite length_map. }
    destruct (dynamics p s _) as [[s' u']|] eqn:Hdyn; [|reflexivity].
    destruct (running_cost p s') as [c|] eqn:Hc; [|reflexivity].
    rewrite (@dynamics_shape _ _ _ _ Hin Hdyn).
    pose proof (@cost_shape _ _ Hc) as Hlen.
    apply (@dynamics_shape _ _ _ _ Hin) in Hdyn. apply is_matrix_true in Hdyn.
    destruct Hdyn as [Hu' _].
    destruct u' as [|uk [|? ?]]; try discriminate.
    destruct c as [|c0 [|? ?]]; try discriminate.
    cbn [negb is_vector length Nat.eqb set_col map2 vadd hd].
    apply IH; [|exact Hshape']. rewrite skipn_upd.
    destruct (sample_null_action p); [rewrite skipn_upd|]; exact Hrest.
Qed.

(** C5.  With one sample, one rollout per sample, no terminal cost and
    [rollout_var_cost = 0], [_compute_rollout_costs] returns as
    [cost_total] the sum, over the steps of the horizon, of the running
    costs of the states the dynamics returns one after the other along
    that trajectory; it raises exactly when that manual sum meets a
    raising collaborator. *)
Theorem rollout_cost_single_trajectory (s : St) (traj : list (list R)) :
  M p = 1%nat ->
  terminal_state_cost p = None ->
  rollout_var_cost p = 0 ->
  T p = length traj -> T p <> 0%nat ->
  Forall (fun a => length a = nu p) traj ->
  option_map (fun r => fst (fst (fst r))) (_compute_rollout_costs p s [traj])
  = option_map (fun v => [v]) (manual_cost_sum p s traj 0).
Proof.
  intros HM Hterm Hrvc HT HT0 Hshape.
  unfold _compute_rollout_costs.
  assert (Hb : is_batch (K p) (T p) (nu p) [traj] = true).
  { apply is_batch_true. rewrite one_sample. split; [reflexivity|].
    constructor; [|constructor]. split; [now rewrite HT | exact Hshape]. }
  rewrite Hb, HM, Hterm, Hrvc, one_sample.
  cbn [negb Nat.eqb zeros repeat].
  pose proof (@rollout_loop_single traj 0 traj s 0 [] [] eq_refl Hshape)
    as Hloop.
  rewrite <- HT in Hloop. change (@s0 R R_scalar) with 0.
  destruct (rollout_loop p (seq 0 (T p)) (s, [traj], [0], [], []))
    as [[[[[s' pa'] cs] sts] acts]|]; simpl in Hloop.
  - destruct (manual_cost_sum p s traj 0) as [v|]; [|discriminate].
    injection Hloop as ->.
    apply Nat.eqb_neq in HT0. rewrite HT0. simpl.
    unfold vadd. simpl.
    replace (0 + v + 0 * 0) with v by lra. reflexivity.
  - destruct (manual_cost_sum p s traj 0); [discriminate | reflexivity].
Qed.

End SingleTrajectory.

Lemma rollout_cost_single_trajectory_witness :
  let p := scalar_planner echo_dynamics 1 2 [[0]; [0]] 1 false 3 in
  option_map (fun r => fst (fst (fst r)))
    (_compute_rollout_costs p tt [[[1]; [0]]])
  = option_map (fun v => [v]) (manual_cost_sum p tt [[1]; [0]] 0).
Proof.
  apply (@rollout_cost_single_trajectory unit
           (scalar_planner echo_dynamics 1 2 [[0]; [0]] 1 false 3)).
  - reflexivity.
  - intros s u s' u' Hu H. injection H as _ <-. exact Hu.
  - intros s c H. injection H as <-. reflexivity.
  - reflexivity.
  - reflexivity.
  - reflexivity.
  - reflexivity.
  - discriminate.
  - repeat constructor.
Defined.

(** ** What [command] returns *)

(** The stages of a cycle that returned: the costs and the noise come from
    [_compute_total_cost_batch] on the rolled [U], the weights from the
    softmin step, the new [U] is the weighted update of the rolled one, and
    the action is read from that new [U]. *)
Lemma command_inv {F : Type} {SF : Scalar F} {St : Type}
    (lib : Library F) (p p' : MPPIPlanner F St) (s : St)
    (draw : list (list (list F))) (smp : Sampled F St) (act : Action) :
  command lib p s draw = Some (p', smp, act) ->
  let p1 := set_U p (torch_roll (U p)) in
  _compute_total_cost_batch p1 s draw
    = Some (cost_total smp, states smp, actions smp, noise smp,
            perturbed_action smp) /\
  (exists eta, softmin (lambda_ p) (cost_total smp)
               = Some (cost_total_non_zero smp, eta, omega smp)) /\
  p' = set_U p1 (update_U p1 (omega smp) (noise smp) (torch_roll (U p))) /\
  read_from (u_per_command p) (U p') act.
Proof.
  unfold command. intros H.
  set (p1 := set_U p (torch_roll (U p))) in *.
  destruct (_compute_total_cost_batch p1 s draw)
    as [[[[[cost sts] acts] nse] pa]|]; [|discriminate].
  change (lambda_ p1) with (lambda_ p) in H.
  destruct (softmin (lambda_ p) cost) as [[[nz eta] om]|] eqn:Hsm;
    [|discriminate].
  change (U p1) with (torch_roll (U p)) in H.
  destruct (if filter_u p1 then _ else _); [|discriminate].
  change (u_per_command p1) with (u_per_command p) in H.
  unfold read_from.
  destruct (u_per_command p =? 1)%Z.
  - destruct (py_prefix (u_per_command p) _) as [|a rest] eqn:Hpre;
      [discriminate|].
    injection H as <- <- <-. cbn [cost_total states actions noise
      perturbed_action cost_total_non_zero omega set_U U].
    repeat split; eauto.
  - injection H as <- <- <-. cbn [cost_total states actions noise
      perturbed_action cost_total_non_zero omega set_U U].
    repeat split; eauto.
Qed.

(** ** Evaluating a cycle on numbers *)

Ltac r_minmax :=
  repeat match goal with
  | |- context [Rmin ?a ?b] =>
      (rewrite (Rmin_left a b) by lra) || (rewrite (Rmin_right a b) by lra)
  | |- context [Rmax ?a ?b] =>
      (rewrite (Rmax_left a b) by lra) || (rewrite (Rmax_right a b) by lra)
  end.

Ltac r_exp0 :=
  repeat match goal with
  | |- context [exp ?a] => progress (replace a with 0 by lra)
  end; rewrite ?exp_0.

Ltac run_command :=
  unfold command, _compute_total_cost_batch, _compute_rollout_costs,
    softmin, py_inv;
  cbn; rewrite Rtruthy_true by lra; cbn; reflexivity.

Lemma null_action_cycle :
  let p := scalar_planner echo_dynamics 2 1 [[0]] 1 true 0 in
  exists p' smp v,
    command scalar_library p tt [[[1]]; [[1]]] = Some (p', smp, Vector [v]) /\
    last (cost_total smp) 0 <= near_zero /\
    v = 1 / 2.
Proof.
  intros p. eexists _, _, _. split.
  - unfold p. run_command.
  - cbn. split.
    + r_minmax. unfold near_zero. cbn. lra.
    + r_minmax. r_exp0. lra.
Qed.

(** C3, evaluated.  Two samples, one step, one action dimension, [U = 0],
    noise [1] on both samples, running cost zero, the null action sampled:
    the cost of the last sample is [0 <= 0.01], and [command] returns
    [1/2], the first entry of the updated [U], not the zero vector. *)
Theorem command_null_action_not_zero :
  let p := scalar_planner echo_dynamics 2 1 [[0]] 1 true 0 in
  exists p' smp,
    command scalar_library p tt [[[1]]; [[1]]]
      = Some (p', smp, Vector [1 / 2]) /\
    sample_null_action p = true /\
    last (cost_total smp) 0 <= near_zero /\
    Vector [1 / 2] <> Vector (zeros 1).
Proof.
  intros p. destruct null_action_cycle as [p' [smp [v [H [Hc Hv]]]]].
  subst v. exists p', smp. repeat split; auto.
  intros E. injection E as E. lra.
Qed.

Lemma scaled_cycle :
  let p := scalar_planner echo_dynamics 1 1 [[0]] 2 false 0 in
  exists p' smp v,
    command scalar_library p tt [[[1]]] = Some (p', smp, Vector [v]) /\
    v = 2.
Proof.
  intros p. eexists _, _, _. split.
  - unfold p. run_command.
  - cbn. r_minmax. r_exp0. lra.
Qed.

(** With [u_scale = 1] and a dynamics that changes the action it is
    handed (here it doubles it), the clipped action [1] comes back as the
    effective action [2] and the cycle returns [2]. *)
Lemma doubled_cycle :
  let p := scalar_planner doubling_dynamics 1 1 [[0]] 1 false 0 in
  exists p' smp v,
    command scalar_library p tt [[[1]]] = Some (p', smp, Vector [v]) /\
    v = 2.
Proof.
  intros p. eexists _, _, _. split.
  - unfold p. run_command.
  - cbn. r_minmax. r_exp0. lra.
Qed.

(** C2, as stated, fails: with [u_scale = 2], bounds [-1, 1], one sample
    and noise [1], the clipped action [1] is handed to the dynamics as [2],
    comes back as the effective action, is written into
    [perturbed_action], and the cycle returns [2 > u_max]. *)
Lemma command_out_of_bounds_counterexample :
  let p := scalar_planner echo_dynamics 1 1 [[0]] 2 false 0 in
  exists p' smp act,
    command scalar_library p tt [[[1]]] = Some (p', smp, act) /\
    u_min p = -1 /\ u_max p = 1 /\
    ~ action_within (u_min p) (u_max p) act.
Proof.
  intros p. destruct scaled_cycle as [p' [smp [v [H Hv]]]].
  subst v. exists p', smp, (Vector [2]). split; [exact H|].
  split; [cbn; lra|]. split; [reflexivity|].
  cbn. intros Hw. inversion Hw as [|? ? Hb _]. unfold within in Hb. lra.
Qed.

(** ** The filter *)

Lemma parabola_fit_unit_pulse :
  savgol_whole_window [[1]; [0]; [0]; [0]; [0]] 5 2
  = Some [[31 / 35]; [9 / 35]; [-3 / 35]; [-5 / 35]; [3 / 35]].
Proof.
  unfold savgol_whole_window, parabola_fit. cbn.
  repeat (f_equal; try (unfold s0; cbn; field_simplify; lra)).
Qed.

Lemma rollout_loop_ext {F : Type} {SF : Scalar F} {St : Type}
    (p q : MPPIPlanner F St) :
  (forall t acc, rollout_step p t acc = rollout_step q t acc) ->
  forall ts acc, rollout_loop p ts acc = rollout_loop q ts acc.
Proof.
  intros Hstep ts. induction ts as [|t ts IH]; intros acc; simpl.
  - reflexivity.
  - rewrite Hstep. destruct (rollout_step q t acc); [apply IH | reflexivity].
Qed.

Lemma cost_batch_filter_free {F : Type} {SF : Scalar F} {St : Type}
    (p : MPPIPlanner F St) (b b' : bool) (s : St)
    (draw : list (list (list F))) :
  _compute_total_cost_batch
    (set_U (set_filter_u p b) (torch_roll (U (set_filter_u p b)))) s draw
  = _compute_total_cost_batch
      (set_U (set_filter_u p b') (torch_roll (U (set_filter_u p b')))) s draw.
Proof.
  unfold _compute_total_cost_batch, _compute_rollout_costs.
  rewrite (rollout_loop_ext
             (set_U (set_filter_u p b) (torch_roll (U (set_filter_u p b))))
             (set_U (set_filter_u p b') (torch_roll (U (set_filter_u p b')))))
    by reflexivity.
  reflexivity.
Qed.

(** With or without [filter_u] a cycle that returns leaves the same
    tensors and returns the same action: what the filter computes is
    stored in a local name that the next statement overwrites with
    [self.U[: self.u_per_command]]. *)
Lemma command_discards_filter {F : Type} {SF : Scalar F} {St : Type}
    (lib : Library F) (p p' : MPPIPlanner F St) (s : St)
    (draw : list (list (list F))) (smp : Sampled F St) (act : Action) :
  command lib (set_filter_u p true) s draw = Some (p', smp, act) ->
  command lib (set_filter_u p false) s draw
    = Some (set_filter_u p' false, smp, act).
Proof.
  unfold command.
  rewrite (cost_batch_filter_free p true false).
  change (lambda_ (set_U (set_filter_u p true) (torch_roll (U (set_filter_u p true)))))
    with (lambda_ p).
  change (lambda_ (set_U (set_filter_u p false) (torch_roll (U (set_filter_u p false)))))
    with (lambda_ p).
  destruct (_compute_total_cost_batch _ s draw)
    as [[[[[cost sts] acts] nse] pa]|]; [|discriminate].
  destruct (softmin (lambda_ p) cost) as [[[nz eta] om]|]; [|discriminate].
  cbn [filter_u set_U set_filter_u U u_per_command T sample_null_action].
  change (update_U (set_U (set_filter_u p true) (torch_roll (U p))) om nse)
    with (update_U (set_U (set_filter_u p false) (torch_roll (U p))) om nse).
  destruct (savgol_filter lib _ (T p) 2); [|discriminate].
  destruct (if (u_per_command p =? 1)%Z then _ else _); [|discriminate].
  intros H. injection H as <- <- <-. reflexivity.
Qed.

Lemma filter_cycle :
  let p := set_filter_u
             (scalar_planner echo_dynamics 1 5 [[0]; [0]; [0]; [0]; [0]] 1 false 0) true in
  exists p' smp v0 v1 v2 v3 v4,
    command scalar_library p tt [[[1]; [0]; [0]; [0]; [0]]]
      = Some (p', smp, Vector [v0]) /\
    U p' = [[v0]; [v1]; [v2]; [v3]; [v4]] /\
    v0 = 1 /\ v1 = 0 /\ v2 = 0 /\ v3 = 0 /\ v4 = 0.
Proof.
  intros p. eexists _, _, _, _, _, _, _. split; [|split].
  - unfold p. run_command.
  - cbn. reflexivity.
  - cbn. r_minmax. r_exp0. repeat split; lra.
Qed.

(** C7, evaluated.  One sample, horizon 5, one action dimension, [U = 0],
    noise [1] on the first step only, filtering enabled: the updated
    sequence is [1, 0, 0, 0, 0]; its filtered version starts with [31/35];
    [command] returns [1], the entry of the sequence that was not
    filtered. *)
Theorem command_returns_unfiltered :
  let p := set_filter_u
             (scalar_planner echo_dynamics 1 5 [[0]; [0]; [0]; [0]; [0]] 1 false 0) true in
  exists p' smp filtered,
    command scalar_library p tt [[[1]; [0]; [0]; [0]; [0]]]
      = Some (p', smp, Vector [1]) /\
    filter_u p = true /\
    savgol_filter scalar_library (U p') (T p) 2 = Some filtered /\
    hd [] filtered = [31 / 35] /\
    Vector [1] <> Vector (hd [] filtered).
Proof.
  intros p.
  destruct filter_cycle as [p' [smp [v0 [v1 [v2 [v3 [v4 H]]]]]]].
  destruct H as [H [HU [-> [-> [-> [-> ->]]]]]].
  exists p', smp, [[31 / 35]; [9 / 35]; [-3 / 35]; [-5 / 35]; [3 / 35]].
  split; [exact H|]. split; [reflexivity|]. rewrite HU.
  split; [exact parabola_fit_unit_pulse|]. split; [reflexivity|].
  cbn. intros E. injection E as E. lra.
Qed.

Lemma command_discards_filter_witness :
  let p := scalar_planner echo_dynamics 1 5 [[0]; [0]; [0]; [0]; [0]] 1 false 0 in
  exists p' smp v,
    command scalar_library (set_filter_u p false) tt
      [[[1]; [0]; [0]; [0]; [0]]]
    = Some (set_filter_u p' false, smp, Vector [v]).
Proof.
  intros p.
  destruct filter_cycle as [p' [smp [v0 [v1 [v2 [v3 [v4 [H _]]]]]]]].
  exists p', smp, v0.
  exact (command_discards_filter scalar_library p tt _ H).
Defined.

(** ** The bounds of the returned action *)

Lemma map2_length {A B C} (f : A -> B -> C) (l : list A) (l' : list B) :
  length (map2 f l l') = Nat.min (length l) (length l').
Proof.
  revert l'. induction l as [|a l IH]; intros [|b l']; simpl; auto.
Qed.

Lemma map2_Forall {A B C} (f : A -> B -> C)
    (PA : A -> Prop) (PB : B -> Prop) (PC : C -> Prop)
    (l : list A) (l' : list B) :
  (forall a b, PA a -> PB b -> PC (f a b)) ->
  Forall PA l -> Forall PB l' -> Forall PC (map2 f l l').
Proof.
  intros Hf Hl. revert l'. induction Hl as [|a l Ha Hl IH];
    intros l' Hl'; simpl; [constructor|].
  destruct Hl' as [|b l' Hb Hl']; constructor; auto.
Qed.

Lemma nth_map2 {A B C} (f : A -> B -> C) (l : list A) (l' : list B)
    (i : nat) (da : A) (db : B) (dc : C) :
  (i < length l)%nat -> (i < length l')%nat ->
  nth i (map2 f l l') dc = f (nth i l da) (nth i l' db).
Proof.
  revert l' i. induction l as [|a l IH]; intros [|b l'] [|i]; simpl;
    intros H1 H2; try lia; auto.
  apply IH; lia.
Qed.

Lemma Forall_nth_in {A} (P : A -> Prop) (l : list A) (i : nat) (d : A) :
  Forall P l -> (i < length l)%nat -> P (nth i l d).
Proof.
  intros H Hi. rewrite Forall_forall in H. apply H. now apply nth_In.
Qed.

Lemma clip_within (lo hi a : R) :
  lo <= hi -> within lo hi (Rmax (Rmin a hi) lo).
Proof.
  intros H. unfold within, Rmax, Rmin.
  destruct (Rle_dec a hi); destruct (Rle_dec _ lo); lra.
Qed.

(** A weighted sum of deviations [x_k - c] of bounded numbers. *)
Lemma weighted_deviation_bounds (lo hi c : R) (ws xs : list R) :
  Forall (fun w => 0 <= w) ws ->
  Forall (within lo hi) xs ->
  length ws = length xs ->
  (lo - c) * torch_sum ws
    <= torch_sum (map2 (fun w x => w * (x - c)) ws xs)
    <= (hi - c) * torch_sum ws.
Proof.
  intros Hw. revert xs. unfold torch_sum.
  induction Hw as [|w ws Hw0 Hw IH]; intros xs Hx Hlen.
  - simpl. unfold s0. simpl. lra.
  - destruct Hx as [|x xs Hx0 Hx]; [discriminate|].
    simpl in Hlen. injection Hlen as Hlen.
    specialize (IH xs Hx Hlen). simpl in *. unfold within in Hx0. nra.
Qed.

Lemma sum_dim0_length {F : Type} {SF : Scalar F} (n : nat)
    (m : list (list F)) :
  Forall (fun v => length v = n) m -> length (sum_dim0 n m) = n.
Proof.
  unfold sum_dim0. induction 1 as [|v m Hv Hm IH]; simpl.
  - unfold zeros. apply repeat_length.
  - unfold vadd at 1. rewrite map2_length, Hv, IH. lia.
Qed.

Lemma nth_sum_dim0 (n i : nat) (m : list (list R)) :
  Forall (fun v => length v = n) m -> (i < n)%nat ->
  nth i (sum_dim0 n m) 0 = torch_sum (map (fun v => nth i v 0) m).
Proof.
  intros Hm Hi. induction Hm as [|v m Hv Hm IH].
  - unfold sum_dim0, zeros, torch_sum. simpl. apply nth_repeat.
  - change (sum_dim0 n (v :: m)) with (vadd v (sum_dim0 n m)).
    unfold vadd. rewrite (nth_map2 _ _ _ 0 0 0).
    + rewrite IH. reflexivity.
    + lia.
    + rewrite sum_dim0_length; auto.
Qed.

(** One row of the update: [U[t]] plus the weighted sum of the noise
    [row_k - U[t]] of in-bounds rows is in bounds when the weights are a
    distribution. *)
Lemma convex_row (lo hi : R) (n : nat) (Ut : list R)
    (om : list R) (rows : list (list R)) :
  Forall (fun w => 0 <= w) om -> torch_sum om = 1 ->
  length om = length rows ->
  Forall (fun r => length r = n /\ Forall (within lo hi) r) rows ->
  length Ut = n ->
  Forall (within lo hi)
    (vadd Ut (sum_dim0 n (map2 vscale om (map (fun r => vsub r Ut) rows)))).
Proof.
  intros Hom Hsum Hlen Hrows HUt.
  assert (Hshape : Forall (fun v => length v = n)
            (map2 vscale om (map (fun r => vsub r Ut) rows))).
  { apply (@map2_Forall _ _ _ vscale (fun _ => True)
             (fun v => length v = n)).
    - intros w v _ Hv. unfold vscale. now rewrite length_map.
    - apply Forall_forall. auto.
    - apply Forall_map. eapply Forall_impl; [|exact Hrows].
      intros r [Hr _]. unfold vsub. rewrite map2_length. simpl. lia. }
  apply Forall_nth. intros i d Hi.
  unfold vadd in Hi. rewrite map2_length, sum_dim0_length, HUt in Hi by auto.
  assert (Hin : (i < n)%nat) by lia.
  rewrite (nth_indep _ d 0)
    by (unfold vadd; rewrite map2_length, sum_dim0_length, HUt; auto; lia).
  unfold vadd. rewrite (nth_map2 _ _ _ 0 0 0);
    [| lia | rewrite sum_dim0_length; auto].
  rewrite nth_sum_dim0 by auto.
  set (c := nth i Ut 0).
  assert (Hpoint :
    map (fun v => nth i v 0) (map2 vscale om (map (fun r => vsub r Ut) rows))
    = map2 (fun w x => w * (x - c)) om (map (fun r => nth i r 0) rows)).
  { clear Hshape Hsum Hom. revert rows Hlen Hrows.
    induction om as [|w om IH]; intros [|r rows] Hlen Hrows;
      simpl; try reflexivity; try discriminate.
    apply Forall_cons_iff in Hrows. destruct Hrows as [[Hr _] Hrows].
    simpl in Hlen. injection Hlen as Hlen.
    rewrite (IH rows Hlen Hrows). f_equal.
    unfold vscale, vsub.
    rewrite (nth_indep _ 0 (w * 0)) by
      (rewrite length_map, map2_length; lia).
    rewrite map_nth. rewrite (nth_map2 _ _ _ 0 0 0) by lia. reflexivity. }
  rewrite Hpoint.
  pose proof (@weighted_deviation_bounds lo hi c om
                (map (fun r => nth i r 0) rows) Hom) as Hb.
  assert (Hx : Forall (within lo hi) (map (fun r => nth i r 0) rows)).
  { apply Forall_map. eapply Forall_impl; [|exact Hrows].
    intros r [Hr Hw]. apply Forall_nth_in; [exact Hw | lia]. }
  specialize (Hb Hx). rewrite length_map in Hb. specialize (Hb Hlen).
  rewrite Hsum in Hb. unfold within. simpl. lra.
Qed.

(** ** What the rollout keeps true of [perturbed_action]

    [P] is a property of action elements that scaling by [u_scale], the
    zero of the null action, clipping and the dynamics collaborator all
    respect. *)

Section Invariant.
Context {F : Type} {SF : Scalar F}.
Variable St : Type.
Variable p : MPPIPlanner F St.
Variable P : F -> Prop.

Hypothesis scale_P : forall x, P x -> P (smul (u_scale p) x).
Hypothesis zero_P : P s0.
Hypothesis clip_P : forall a, P (smax (smin a (u_max p)) (u_min p)).
Hypothesis dynamics_P : forall s u s' u',
  dynamics p s u = Some (s', u') ->
  Forall (Forall P) u -> Forall (Forall P) u'.

Lemma col_ok (t : nat) (pa : list (list (list F))) :
  (t < T p)%nat ->
  batch_ok P (K p) (T p) (nu p) pa ->
  length (col t pa) = K p /\ Forall (row_ok P (nu p)) (col t pa).
Proof.
  intros Ht [Hlen Hpa]. unfold col. split; [now rewrite length_map|].
  apply Forall_map. eapply Forall_impl; [|exact Hpa].
  intros traj [Hl Hrows]. apply Forall_nth_in; [exact Hrows | lia].
Qed.

Lemma upd_traj_ok (t : nat) (v : list F) (traj : list (list F)) :
  row_ok P (nu p) v -> traj_ok P (T p) (nu p) traj ->
  traj_ok P (T p) (nu p) (upd t v traj).
Proof.
  intros Hv [Hl Hrows]. split; [now rewrite upd_length|].
  now apply Forall_upd.
Qed.

Lemma rollout_step_ok (t : nat) (acc acc' : LoopState (F := F) St) :
  (t < T p)%nat -> loop_ok P p acc ->
  rollout_step p t acc = Some acc' -> loop_ok P p acc'.
Proof.
  destruct acc as [[[[s pa] cs] sts] acts].
  intros Ht [Hpa Hcs] Hstep. unfold rollout_step in Hstep.
  destruct (col_ok Ht Hpa) as [Hcl Hcol].
  assert (Hu : length (map (vscale (u_scale p)) (col t pa)) = K p /\
               Forall (row_ok P (nu p))
                 (map (vscale (u_scale p)) (col t pa))).
  { split; [now rewrite length_map|]. apply Forall_map.
    eapply Forall_impl; [|exact Hcol]. intros v [Hl Hw].
    split; [unfold vscale; now rewrite length_map|].
    unfold vscale. apply Forall_map. eapply Forall_impl; [|exact Hw].
    exact scale_P. }
  destruct Hu as [Hul Hu].
  set (u := map (vscale (u_scale p)) (col t pa)) in *.
  assert (Hnull : exists u1 pa1,
    (if sample_null_action p then
       match K p with
       | O => None
       | S k => Some (upd k (zeros_like (nth k u [])) u,
                      upd k (upd t (zeros_like (nth k u [])) (nth k pa [])) pa)
       end
     else Some (u, pa)) = Some (u1, pa1) /\
    length u1 = K p /\ Forall (row_ok P (nu p)) u1 /\
    batch_ok P (K p) (T p) (nu p) pa1).
  { destruct (sample_null_action p).
    - destruct (K p) as [|k] eqn:HK.
      + simpl in Hstep. discriminate.
      + assert (Hz : row_ok P (nu p) (zeros_like (nth k u []))).
        { assert (Hk : row_ok P (nu p) (nth k u []))
            by (apply Forall_nth_in; [exact Hu | lia]).
          destruct Hk as [Hkl _]. split.
          - unfold zeros_like. now rewrite length_map.
          - unfold zeros_like. apply Forall_map. apply Forall_forall.
            intros x _. exact zero_P. }
        eexists _, _. split; [reflexivity|].
        split; [now rewrite upd_length|]. split; [now apply Forall_upd|].
        destruct Hpa as [Hpl Hpa]. split; [now rewrite upd_length|].
        apply Forall_upd; [|exact Hpa]. apply upd_traj_ok; [exact Hz|].
        apply Forall_nth_in; [exact Hpa | lia].
    - eexists _, _. split; [reflexivity|]. auto. }
  destruct Hnull as [u1 [pa1 [Heq [Hu1l [Hu1 Hpa1]]]]].
  rewrite Heq in Hstep. clear Heq.
  destruct (dynamics p s u1) as [[s' u']|] eqn:Hdyn; [|discriminate].
  destruct (running_cost p s') as [c|]; [|discriminate].
  destruct (is_matrix (K p) (nu p) u') eqn:Hshape; [|discriminate].
  destruct (is_vector (K p) c) eqn:Hc; [|discriminate].
  simpl in Hstep. injection Hstep as <-.
  apply is_matrix_true in Hshape. destruct Hshape as [Hu'l Hu'shape].
  apply is_vector_true in Hc.
  assert (Hu'w : Forall (Forall P) u').
  { apply (@dynamics_P _ _ _ _ Hdyn). eapply Forall_impl; [|exact Hu1].
    intros v [_ Hv]. exact Hv. }
  assert (Hu' : Forall (row_ok P (nu p)) u').
  { apply Forall_forall. intros v Hv. rewrite Forall_forall in Hu'shape, Hu'w.
    split; auto. }
  destruct Hpa1 as [Hp1l Hpa1]. split; [split|].
  - unfold set_col. rewrite map2_length. lia.
  - unfold set_col.
    apply (@map2_Forall _ _ _ (fun traj uk => upd t uk traj)
             (traj_ok P (T p) (nu p)) (row_ok P (nu p)));
      auto.
    intros traj uk Htraj Huk. now apply upd_traj_ok.
  - unfold vadd. rewrite map2_length. lia.
Qed.

Lemma rollout_loop_ok (ts : list nat) :
  Forall (fun t => (t < T p)%nat) ts ->
  forall acc acc', loop_ok P p acc ->
    rollout_loop p ts acc = Some acc' -> loop_ok P p acc'.
Proof.
  induction 1 as [|t ts Ht Hts IH]; intros acc acc' Hok Hloop; simpl in Hloop.
  - injection Hloop as <-. exact Hok.
  - destruct (rollout_step p t acc) as [acc1|] eqn:Hstep; [|discriminate].
    eapply IH; [|exact Hloop]. eapply rollout_step_ok; eauto.
Qed.

Lemma rollout_costs_ok (s : St) (pa pa' : list (list (list F)))
    (cost : list F) (sts : list St) (acts : list (list (list F))) :
  batch_ok P (K p) (T p) (nu p) pa ->
  _compute_rollout_costs p s pa = Some (cost, sts, acts, pa') ->
  batch_ok P (K p) (T p) (nu p) pa' /\ length cost = K p /\ T p <> 0%nat.
Proof.
  intros Hpa H. unfold _compute_rollout_costs in H.
  destruct (is_batch (K p) (T p) (nu p) pa); [|discriminate].
  destruct (M p =? 1)%nat; [|discriminate]. cbn [negb] in H.
  destruct (rollout_loop p (seq 0 (T p)) (s, pa, zeros (K p), [], []))
    as [[[[[s' pa1] cs] sts1] acts1]|] eqn:Hloop; [|discriminate].
  assert (Hok : loop_ok P p (s', pa1, cs, sts1, acts1)).
  { eapply rollout_loop_ok; [| |exact Hloop].
    - apply Forall_forall. intros t Ht. apply in_seq in Ht. lia.
    - split; [exact Hpa|]. unfold zeros. apply repeat_length. }
  destruct Hok as [Hpa1 Hcs].
  destruct (T p =? 0)%nat eqn:HT; [discriminate|].
  apply Nat.eqb_neq in HT.
  assert (Hcs' : forall cs',
    match terminal_state_cost p with
    | Some terminal =>
        do c <- terminal sts1 acts1;
        if is_vector (K p) c then Some (vadd cs c) else None
    | None => Some cs
    end = Some cs' -> length cs' = K p).
  { intros cs' E. destruct (terminal_state_cost p) as [terminal|].
    - destruct (terminal sts1 acts1) as [c|]; [|discriminate].
      destruct (is_vector (K p) c) eqn:Hc; [|discriminate].
      apply is_vector_true in Hc. injection E as <-.
      unfold vadd. rewrite map2_length. lia.
    - injection E as <-. exact Hcs. }
  destruct (match terminal_state_cost p with Some _ => _ | None => _ end)
    as [cs'|] eqn:Hterm; [|discriminate].
  specialize (Hcs' cs' eq_refl).
  injection H as <- _ _ <-. split; [exact Hpa1|]. split; [|exact HT].
  unfold vadd, zeros_like, zeros.
  rewrite !map2_length, !length_map, !repeat_length. lia.
Qed.

Lemma bound_action_ok (draw : list (list (list F))) :
  is_batch (K p) (T p) (nu p) draw = true ->
  is_matrix (T p) (nu p) (U p) = true ->
  batch_ok P (K p) (T p) (nu p)
    (_bound_action p (map (fun nk => map2 vadd (U p) nk) draw)).
Proof.
  intros Hd HU. apply is_batch_true in Hd. destruct Hd as [Hdl Hd].
  apply is_matrix_true in HU. destruct HU as [HUl HU].
  unfold _bound_action. split; [now rewrite !length_map|].
  rewrite map_map. apply Forall_map.
  eapply Forall_impl; [|exact Hd]. intros nk [Hnl Hnk].
  split; [rewrite length_map, map2_length; lia|].
  apply Forall_map.
  apply (@map2_Forall _ _ _ vadd (fun v => length v = nu p)
           (fun v => length v = nu p)); auto.
  intros a b Ha Hb. split.
  - unfold vadd. rewrite length_map, map2_length. lia.
  - apply Forall_map. apply Forall_forall. intros x _. apply clip_P.
Qed.

Lemma cost_batch_ok (s : St) (draw nse pa' : list (list (list F)))
    (cost : list F) (sts : list St) (acts : list (list (list F))) :
  _compute_total_cost_batch p s draw = Some (cost, sts, acts, nse, pa') ->
  batch_ok P (K p) (T p) (nu p) pa' /\ length cost = K p /\
  nse = map (fun pk => map2 vsub pk (U p)) pa' /\
  is_matrix (T p) (nu p) (U p) = true /\ T p <> 0%nat.
Proof.
  intros H. unfold _compute_total_cost_batch in H.
  destruct (is_batch (K p) (T p) (nu p) draw) eqn:Hd; [|discriminate].
  destruct (is_matrix (T p) (nu p) (U p)) eqn:HU; [|discriminate].
  destruct (is_matrix (nu p) (nu p) (noise_sigma_inv p)); [|discriminate].
  cbn [andb negb] in H.
  destruct (_compute_rollout_costs p s _)
    as [[[[cost0 sts0] acts0] pa0]|] eqn:Hroll; [|discriminate].
  destruct (rollout_costs_ok _ (bound_action_ok _ Hd HU) Hroll)
    as [Hpa0 [Hc0 HT]].
  injection H as <- _ _ <- <-.
  split; [exact Hpa0|]. split; [|split; [|split]]; try reflexivity;
    try exact HT.
  destruct Hpa0 as [Hl _]. unfold vadd.
  rewrite map2_length, Hc0, length_map.
  destruct (noise_abs_cost p); rewrite !length_map, Hl; lia.
Qed.

Lemma update_fold_nth (f : nat -> list F -> list F) (n : nat) :
  forall (t0 : nat) (U0 : list (list F)) (t : nat),
    (t0 + n <= length U0)%nat ->
    let U2 := fold_left (fun Uc i => upd i (f i (nth i Uc [])) Uc)
                        (seq t0 n) U0 in
    length U2 = length U0 /\
    nth t U2 [] = if (t0 <=? t)%nat && (t <? t0 + n)%nat
                  then f t (nth t U0 []) else nth t U0 [].
Proof.
  induction n as [|n IH]; intros t0 U0 t Hlen; cbn [seq fold_left].
  - split; [reflexivity|].
    destruct (t0 <=? t)%nat eqn:E1; destruct (t <? t0 + 0)%nat eqn:E2;
      try reflexivity.
    apply Nat.leb_le in E1. apply Nat.ltb_lt in E2. lia.
  - destruct (IH (S t0) (upd t0 (f t0 (nth t0 U0 [])) U0) t) as [Hl Hn].
    { rewrite upd_length. lia. }
    cbv zeta in Hl, Hn. rewrite upd_length in Hl.
    split; [exact Hl|]. rewrite Hn.
    destruct (Nat.eq_dec t t0) as [->|Hne].
    + replace (S t0 <=? t0)%nat with false
        by (symmetry; apply Nat.leb_gt; lia).
      replace (t0 <=? t0)%nat with true
        by (symmetry; apply Nat.leb_le; lia).
      replace (t0 <? t0 + S n)%nat with true
        by (symmetry; apply Nat.ltb_lt; lia).
      cbn [andb]. apply nth_upd_same. lia.
    + rewrite nth_upd_other by auto.
      replace (t <? S t0 + n)%nat with (t <? t0 + S n)%nat
        by (f_equal; lia).
      destruct (t0 <=? t)%nat eqn:E1; destruct (S t0 <=? t)%nat eqn:E2;
        try reflexivity.
      * apply Nat.leb_le in E1. apply Nat.leb_gt in E2. lia.
      * apply Nat.leb_gt in E1. apply Nat.leb_le in E2. lia.
Qed.

End Invariant.

(** Every row of the updated [U] is a convex combination of the rows the
    rollout left in [perturbed_action]. *)
Lemma update_U_ok {St : Type} (p : MPPIPlanner R St) (lo hi : R)
    (om : list R) (pa' : list (list (list R))) :
  Forall (fun w => 0 <= w) om -> torch_sum om = 1 -> length om = K p ->
  batch_ok (within lo hi) (K p) (T p) (nu p) pa' ->
  is_matrix (T p) (nu p) (U p) = true ->
  Forall (Forall (within lo hi))
    (update_U p om (map (fun pk => map2 vsub pk (U p)) pa') (U p)).
Proof.
  intros Hom Hsum Hlen Hpa HU.
  apply is_matrix_true in HU. destruct HU as [HUl HU].
  set (nse := map (fun pk => map2 vsub pk (U p)) pa').
  set (f := fun t Ut =>
              vadd Ut (sum_dim0 (nu p) (map2 vscale om (col t nse)))).
  assert (Hfold : forall t,
    length (update_U p om nse (U p)) = length (U p) /\
    nth t (update_U p om nse (U p)) []
      = if (0 <=? t)%nat && (t <? 0 + T p)%nat
        then f t (nth t (U p) []) else nth t (U p) []).
  { intros t. apply (@update_fold_nth R f (T p) 0 (U p) t). lia. }
  apply Forall_nth. intros t d Ht.
  destruct (Hfold t) as [Hl Hn]. rewrite Hl, HUl in Ht.
  rewrite (nth_indep _ d []) by (rewrite Hl, HUl; exact Ht).
  rewrite Hn.
  replace (t <? 0 + T p)%nat with true by (symmetry; apply Nat.ltb_lt; lia).
  cbn [Nat.leb andb]. unfold f.
  assert (Hcol : col t nse
                 = map (fun r => vsub r (nth t (U p) [])) (col t pa')).
  { unfold col, nse. rewrite !map_map. apply map_ext_in.
    intros pk Hpk. destruct Hpa as [_ Hpa]. rewrite Forall_forall in Hpa.
    destruct (Hpa pk Hpk) as [Hpl _].
    apply (nth_map2 vsub pk (U p) [] [] []); lia. }
  rewrite Hcol. destruct (@col_ok R St p (within lo hi) t pa' Ht Hpa) as [Hcl Hrows].
  apply convex_row; auto.
  - lia.
  - apply (@Forall_nth_in _ (fun v => length v = nu p)); [exact HU | lia].
Qed.


Lemma softmin_some_distribution (lam : R) (cost nz om : list R) (eta : R) :
  softmin lam cost = Some (nz, eta, om) ->
  length om = length cost /\ Forall (fun w => 0 <= w) om /\ torch_sum om = 1.
Proof.
  intros H.
  assert (Hlam : lam <> 0).
  { intros ->. unfold softmin in H. destruct (torch_min cost); [|discriminate].
    unfold py_inv in H. simpl in H. rewrite Rtruthy_false in H by reflexivity.
    discriminate. }
  assert (Hne : cost <> []) by (intros ->; discriminate).
  destruct (softmin_defined Hlam Hne) as [beta [_ [Heq Heta]]].
  rewrite Heq in H. injection H as <- <- <-.
  set (nz := _ensure_non_zero cost beta (1 / lam)) in *.
  split; [|split].
  - unfold vscale, nz, _ensure_non_zero. now rewrite !length_map.
  - unfold vscale. apply Forall_forall. intros w Hw.
    apply in_map_iff in Hw. destruct Hw as [y [<- Hy]].
    pose proof (ensure_non_zero_pos cost beta (1 / lam)) as Hpos.
    rewrite Forall_forall in Hpos. specialize (Hpos y Hy). simpl.
    assert (0 < 1 / torch_sum nz) by (apply Rdiv_lt_0_compat; lra).
    apply Rmult_le_pos; lra.
  - rewrite torch_sum_vscale. field. lra.
Qed.

Lemma Forall_firstn_of {A} (P : A -> Prop) (n : nat) (l : list A) :
  Forall P l -> Forall P (firstn n l).
Proof.
  intros H. revert n. induction H as [|a l Ha Hl IH]; intros [|n]; simpl;
    constructor; auto.
Qed.

Lemma Forall_py_prefix {A} (P : A -> Prop) (n : Z) (l : list A) :
  Forall P l -> Forall P (py_prefix n l).
Proof.
  intros H. unfold py_prefix.
  destruct (0 <=? n)%Z; now apply Forall_firstn_of.
Qed.

(** C2, as amended.  When [u_scale = 1], zero lies within the bounds, and
    the dynamics collaborator returns effective actions within
    [[u_min, u_max]] whenever the actions it is handed are, every element
    of the action a cycle returns lies within [[u_min, u_max]]: the
    perturbed actions are clipped, the dynamics keeps what it writes back
    within the bounds, the noise is that tensor minus [U], and the update
    makes every row of [U] a convex combination of its rows. *)
Theorem command_action_within_bounds {St : Type}
    (lib : Library R) (p p' : MPPIPlanner R St) (s : St)
    (draw : list (list (list R))) (smp : Sampled R St) (act : Action) :
  u_scale p = 1 ->
  within (u_min p) (u_max p) 0 ->
  (forall s0 u s' u',
     dynamics p s0 u = Some (s', u') ->
     Forall (Forall (within (u_min p) (u_max p))) u ->
     Forall (Forall (within (u_min p) (u_max p))) u') ->
  command lib p s draw = Some (p', smp, act) ->
  action_within (u_min p) (u_max p) act.
Proof.
  intros Hscale Hzero Hdyn Hcmd.
  apply command_inv in Hcmd. cbv zeta in Hcmd.
  set (p1 := set_U p (torch_roll (U p))) in *.
  destruct Hcmd as [Hbatch [[eta Hsoft] [Hp' Hread]]].
  assert (Hle : u_min p <= u_max p) by (unfold within in Hzero; lra).
  assert (Hsc : forall x, within (u_min p) (u_max p) x ->
                  within (u_min p) (u_max p) (smul (u_scale p1) x)).
  { intros x Hx. change (u_scale p1) with (u_scale p). rewrite Hscale.
    unfold within in *. simpl. lra. }
  destruct (@cost_batch_ok R _ St p1 (within (u_min p) (u_max p)) Hsc Hzero
              (fun a => clip_within a Hle) Hdyn s draw _ _ _ _ _ Hbatch)
    as [Hpa [Hcost [Hnse [HU _]]]].
  destruct (softmin_some_distribution _ _ Hsoft) as [Hlen [Hom Hsum]].
  assert (HU2 : Forall (Forall (within (u_min p) (u_max p))) (U p')).
  { rewrite Hp'. cbn [U set_U]. rewrite Hnse.
    apply (@update_U_ok St p1 (u_min p) (u_max p)); auto.
    rewrite Hlen. exact Hcost. }
  unfold read_from in Hread. unfold action_within.
  destruct (u_per_command p =? 1)%Z.
  - destruct act as [a|m]; [|contradiction].
    destruct Hread as [rest Hpre].
    pose proof (Forall_py_prefix (u_per_command p) HU2) as Hpref.
    rewrite Hpre in Hpref. now inversion Hpref.
  - subst act. now apply Forall_py_prefix.
Qed.

Lemma command_action_within_bounds_witness :
  let p := scalar_planner echo_dynamics 2 1 [[0]] 1 true 0 in
  exists p' smp act,
    command scalar_library p tt [[[1]]; [[1]]] = Some (p', smp, act) /\
    action_within (u_min p) (u_max p) act.
Proof.
  intros p. destruct null_action_cycle as [p' [smp [v [H _]]]].
  exists p', smp, (Vector [v]). split; [exact H|].
  apply (@command_action_within_bounds unit scalar_library p p' tt
           [[[1]]; [[1]]] smp (Vector [v])).
  - reflexivity.
  - unfold within. cbn. lra.
  - intros s0 u s' u' E Hu. injection E as _ <-. exact Hu.
  - exact H.
Defined.

(** ** Construction *)

Lemma Rleb_true (a b : R) : a <= b -> Rleb a b = true.
Proof.
  intros. unfold Rleb. destruct (Rle_dec a b); [reflexivity | contradiction].
Qed.

Lemma Rleb_false (a b : R) : b < a -> Rleb a b = false.
Proof. intros. unfold Rleb. destruct (Rle_dec a b); [lra | reflexivity]. Qed.

Lemma Rltb_true (a b : R) : a < b -> Rltb a b = true.
Proof.
  intros. unfold Rltb. destruct (Rlt_dec a b); [reflexivity | contradiction].
Qed.

Lemma Rltb_false (a b : R) : b <= a -> Rltb a b = false.
Proof. intros. unfold Rltb. destruct (Rlt_dec a b); [lra | reflexivity]. Qed.

Ltac r_decide :=
  repeat match goal with
  | |- context [Rleb ?a ?b] =>
      (rewrite (@Rleb_true a b) by lra) || (rewrite (@Rleb_false a b) by lra)
  | |- context [Rltb ?a ?b] =>
      (rewrite (@Rltb_true a b) by lra) || (rewrite (@Rltb_false a b) by lra)
  | |- context [Rtruthy ?a] =>
      (rewrite (@Rtruthy_true a) by lra) || (rewrite (@Rtruthy_false a) by lra)
  | |- context [Req_dec_T ?a ?b] =>
      destruct (Req_dec_T a b);
      [try (exfalso; lra) | try (exfalso; lra)]; [idtac]
  end.

Lemma is_square_rows (m : list (list R)) :
  is_square m = true -> rows_same_length m = true.
Proof.
  unfold is_square, rows_same_length. destruct m as [|row m]; [discriminate|].
  intros H. rewrite forallb_forall in *. intros r Hr.
  pose proof (H r Hr) as H1. pose proof (H row (or_introl eq_refl)) as H2.
  apply Nat.eqb_eq in H1, H2. apply Nat.eqb_eq. simpl. lia.
Qed.

(** The bounds after the two defaulting statements pass the assertion
    exactly when neither bound has the wrong sign and not both are zero. *)
Lemma bounds_assertion (umin umax : R) :
  let umin' := if Rtruthy umax && negb (Rtruthy umin) then - umax else umin in
  let umax' := if Rtruthy umin' && negb (Rtruthy umax) then - umin' else umax in
  Rltb 0 umax' && Rltb umin' 0 = false <->
  umax < 0 \/ 0 < umin \/ (umax = 0 /\ umin = 0).
Proof.
  cbv zeta.
  destruct (Req_dec_T umax 0) as [Hx|Hx];
    destruct (Req_dec_T umin 0) as [Hn|Hn];
    repeat first [ rewrite (Rtruthy_false Hx) | rewrite (Rtruthy_true Hx)
                 | rewrite (Rtruthy_false Hn) | rewrite (Rtruthy_true Hn)
                 | progress cbn [andb negb] | rewrite andb_false_r ].
  - rewrite (@Rltb_false 0 umax) by lra. cbn. split; auto.
  - destruct (Rlt_dec umin 0).
    + rewrite !Rltb_true by lra. cbn. split; [discriminate|].
      intros [H|[H|[_ H]]]; lra.
    + rewrite (@Rltb_false umin 0) by lra. rewrite andb_false_r.
      split; auto. intros _. right. left. destruct (Rdichotomy _ _ Hn); lra.
  - destruct (Rlt_dec 0 umax).
    + rewrite !Rltb_true by lra. cbn. split; [discriminate|].
      intros [H|[H|[H _]]]; lra.
    + rewrite (@Rltb_false 0 umax) by lra. cbn. split; auto.
      intros _. left. destruct (Rdichotomy _ _ Hx); lra.
  - destruct (Rlt_dec 0 umax); destruct (Rlt_dec umin 0).
    + rewrite !Rltb_true by lra. cbn. split; [discriminate|].
      intros [H|[H|[H _]]]; lra.
    + rewrite (@Rltb_false umin 0) by lra. rewrite andb_false_r.
      split; auto. intros _. right. left. destruct (Rdichotomy _ _ Hn); lra.
    + rewrite (@Rltb_false 0 umax) by lra. cbn. split; auto.
      intros _. left. destruct (Rdichotomy _ _ Hx); lra.
    + rewrite (@Rltb_false 0 umax) by lra. cbn. split; auto.
      intros _. left. destruct (Rdichotomy _ _ Hx); lra.
Qed.

Lemma torch_isclose_refl (a : R) : torch_isclose a a = true.
Proof.
  unfold torch_isclose. simpl. rewrite Rleb_true by lra. reflexivity.
Qed.

Lemma torch_isclose_far (a b : R) :
  1 / 1000000 + Rabs (1 / 100000 * b) < Rabs (a - b) ->
  torch_isclose a b = false.
Proof.
  intros H. unfold torch_isclose. simpl.
  assert (Hne : a <> b).
  { intros ->. rewrite Rminus_diag, Rabs_R0 in H.
    pose proof (Rabs_pos (1 / 100000 * b)). lra. }
  replace (Rleb a b && Rleb b a) with false.
  - rewrite (@Rleb_false (Rabs (a - b))) by exact H.
    now rewrite andb_false_r.
  - symmetry. destruct (Rdichotomy _ _ Hne).
    + rewrite (@Rleb_false b a) by lra. apply andb_false_r.
    + rewrite (@Rleb_false a b) by lra. reflexivity.
Qed.

Lemma is_symmetric_scalar (a : R) : is_symmetric [[a]] = true.
Proof.
  unfold is_symmetric. cbn [length seq forallb nth].
  now rewrite torch_isclose_refl.
Qed.

(** One entry that is not close to its mirror entry makes the matrix
    asymmetric for the validation. *)
Lemma is_symmetric_false_at (m : list (list R)) (i j : nat) :
  (i < length m)%nat -> (j < length m)%nat ->
  1 / 1000000 + Rabs (1 / 100000 * nth i (nth j m []) 0)
    < Rabs (nth j (nth i m []) 0 - nth i (nth j m []) 0) ->
  is_symmetric m = false.
Proof.
  intros Hi Hj Hfar. apply torch_isclose_far in Hfar.
  destruct (is_symmetric m) eqn:E; [|reflexivity].
  unfold is_symmetric in E. rewrite forallb_forall in E.
  assert (Hin : forall k, (k < length m)%nat -> In k (seq 0 (length m)))
    by (intros k Hk; apply in_seq; lia).
  specialize (E i (Hin i Hi)). rewrite forallb_forall in E.
  specialize (E j (Hin j Hj)). change (@s0 R R_scalar) with 0 in E.
  congruence.
Qed.

(** The bounds of a planner that was built: what the two defaulting
    statements made of the configured ones, and the assertion. *)
Lemma init_bounds {St : Type} (lib : Library R) (cfg : MPPIConfig R)
    (nx0 : nat) (dyn : St -> list (list R) -> option (St * list (list R)))
    (cost : St -> option (list R)) (p : MPPIPlanner R St) :
  __init__ lib cfg nx0 dyn cost = Some p ->
  let umin := if Rtruthy (cfg_u_max cfg) && negb (Rtruthy (cfg_u_min cfg))
              then - cfg_u_max cfg else cfg_u_min cfg in
  let umax := if Rtruthy umin && negb (Rtruthy (cfg_u_max cfg))
              then - umin else cfg_u_max cfg in
  u_min p = umin /\ u_max p = umax /\ umin < 0 < umax.
Proof.
  intros H. cbv zeta. unfold __init__ in H.
  destruct (negb (rows_same_length _)); [discriminate|].
  change (@struthy R R_scalar) with Rtruthy in H.
  change (@sneg R R_scalar) with Ropp in H.
  match type of H with
  | context [negb (sltb s0 ?a && sltb ?b s0)] =>
      destruct (sltb s0 a) eqn:Hmax; [|discriminate];
      destruct (sltb b s0) eqn:Hmin; [|discriminate]
  end.
  cbn [andb negb] in H.
  destruct (torch_inverse lib _); [|discriminate].
  destruct (negb (is_symmetric _)); [discriminate|].
  destruct (negb (mvn_valid lib _ _)); [discriminate|].
  destruct (negb (rows_same_length _)); [discriminate|].
  injection H as <-. cbn [u_min u_max].
  simpl in Hmax, Hmin. unfold Rltb in Hmax, Hmin.
  destruct (Rlt_dec 0 _) as [H1|]; [|discriminate].
  destruct (Rlt_dec _ 0) as [H2|]; [|discriminate].
  repeat split; assumption.
Qed.

(** When the covariance is square and symmetric, the library accepts it,
    the initial sequence is rectangular and the bounds are not of the three
    refused kinds, construction returns a planner whose bounds satisfy
    [u_min < 0 < u_max]. *)
Lemma init_accepts {St : Type} (lib : Library R) (cfg : MPPIConfig R)
    (nx0 : nat) (dyn : St -> list (list R) -> option (St * list (list R)))
    (cost : St -> option (list R)) :
  let sigma := or_default (cfg_noise_sigma cfg) (identity (Nat.div nx0 2)) in
  let mu := or_default (cfg_noise_mu cfg) (repeat 0 (length sigma)) in
  let U0 := or_default (cfg_U_init cfg)
              (repeat (repeat 0 (length mu)) (cfg_horizon cfg)) in
  is_square sigma = true ->
  inverse_values lib sigma <> None ->
  is_symmetric sigma = true ->
  mvn_valid lib mu sigma = true ->
  rows_same_length U0 = true ->
  ~ (cfg_u_max cfg < 0 \/ 0 < cfg_u_min cfg \/
     (cfg_u_max cfg = 0 /\ cfg_u_min cfg = 0)) ->
  exists p, __init__ lib cfg nx0 dyn cost = Some p /\
            u_min p < 0 < u_max p.
Proof.
  intros sigma mu U0 Hsq Hinv Hsym Hmvn HU Hb.
  unfold __init__. fold sigma. rewrite (is_square_rows _ Hsq).
  cbn [negb]. change (@s0 R R_scalar) with 0. fold mu. fold U0.
  pose proof (bounds_assertion (cfg_u_min cfg) (cfg_u_max cfg)) as Hassert.
  cbv zeta in Hassert.
  match goal with
  | |- context [negb (sltb 0 ?a && sltb ?b 0)] =>
      destruct (sltb 0 a && sltb b 0) eqn:E
  end.
  - cbn [negb]. unfold torch_inverse. rewrite Hsq.
    destruct (inverse_values lib sigma) as [inv|]; [|contradiction].
    rewrite Hsym, Hmvn, HU. cbn [negb]. eexists. split; [reflexivity|].
    cbn [u_min u_max]. apply andb_true_iff in E. destruct E as [E1 E2].
    simpl in E1, E2. unfold Rltb in E1, E2.
    destruct (Rlt_dec 0 _) as [H1|]; [|discriminate].
    destruct (Rlt_dec _ 0) as [H2|]; [|discriminate].
    simpl. split; assumption.
  - exfalso. apply Hb. apply Hassert. simpl in E. exact E.
Qed.

(** C8, as amended.  Construction raises when the covariance (given, or
    the default identity) is not a square matrix, when one of its entries
    differs from the mirror entry by more than the tolerance of the
    validation, when [u_max < 0], when [u_min > 0], and when both bounds
    are zero.  A single zero bound is no error: a planner that was built
    has it replaced by the negation of the other bound and keeps bounds
    that are both given, and with bounds that are not of the three refused
    kinds construction goes through whenever the covariance and the
    initial sequence are accepted. *)
Theorem init_configuration_errors {St : Type} (lib : Library R)
    (cfg : MPPIConfig R) (nx0 : nat)
    (dyn : St -> list (list R) -> option (St * list (list R)))
    (cost : St -> option (list R)) :
  let sigma := or_default (cfg_noise_sigma cfg) (identity (Nat.div nx0 2)) in
  let mu := or_default (cfg_noise_mu cfg) (repeat 0 (length sigma)) in
  let U0 := or_default (cfg_U_init cfg)
              (repeat (repeat 0 (length mu)) (cfg_horizon cfg)) in
  (is_square sigma = false \/
   (exists i j, (i < length sigma)%nat /\ (j < length sigma)%nat /\
      1 / 1000000 + Rabs (1 / 100000 * nth i (nth j sigma []) 0)
        < Rabs (nth j (nth i sigma []) 0 - nth i (nth j sigma []) 0)) \/
   cfg_u_max cfg < 0 \/ 0 < cfg_u_min cfg \/
   (cfg_u_max cfg = 0 /\ cfg_u_min cfg = 0) ->
   __init__ lib cfg nx0 dyn cost = None) /\
  (forall p, __init__ lib cfg nx0 dyn cost = Some p ->
     (cfg_u_max cfg = 0 ->
      u_max p = - cfg_u_min cfg /\ u_min p = cfg_u_min cfg) /\
     (cfg_u_min cfg = 0 ->
      u_min p = - cfg_u_max cfg /\ u_max p = cfg_u_max cfg) /\
     (cfg_u_max cfg <> 0 -> cfg_u_min cfg <> 0 ->
      u_max p = cfg_u_max cfg /\ u_min p = cfg_u_min cfg)) /\
  (is_square sigma = true -> inverse_values lib sigma <> None ->
   is_symmetric sigma = true -> mvn_valid lib mu sigma = true ->
   rows_same_length U0 = true ->
   ~ (cfg_u_max cfg < 0 \/ 0 < cfg_u_min cfg \/
      (cfg_u_max cfg = 0 /\ cfg_u_min cfg = 0)) ->
   exists p, __init__ lib cfg nx0 dyn cost = Some p).
Proof.
  intros sigma mu U0. split; [|split].
  - intros H. unfold __init__. fold sigma.
    destruct (rows_same_length sigma) eqn:Hrows; [|reflexivity].
    cbn [negb]. change (@s0 R R_scalar) with 0. fold mu.
    pose proof (bounds_assertion (cfg_u_min cfg) (cfg_u_max cfg)) as Hb.
    cbv zeta in Hb.
    match goal with
    | |- context [negb (sltb 0 ?a && sltb ?b 0)] =>
        destruct (sltb 0 a && sltb b 0) eqn:Hassert
    end; [|reflexivity].
    cbn [negb]. destruct H as [H|[H|H]].
    + unfold torch_inverse. rewrite H. reflexivity.
    + destruct H as [i [j [Hi [Hj Hfar]]]].
      rewrite (is_symmetric_false_at sigma Hi Hj Hfar).
      destruct (torch_inverse lib sigma); reflexivity.
    + exfalso. apply Hb in H. simpl in Hassert. rewrite Hassert in H.
      discriminate.
  - intros p H. apply init_bounds in H. cbv zeta in H.
    destruct H as [Hmin [Hmax Hsign]]. rewrite Hmin, Hmax. clear Hmin Hmax.
    revert Hsign. unfold Rtruthy.
    destruct (Req_dec_T (cfg_u_max cfg) 0) as [Hx|Hx];
      destruct (Req_dec_T (cfg_u_min cfg) 0) as [Hn|Hn];
      cbn [andb negb];
      repeat match goal with
             | |- context [Req_dec_T ?a ?b] =>
                 destruct (Req_dec_T a b); cbn [andb negb]
             end;
      intros Hsign; repeat split; intros; try contradiction; lra.
  - intros Hsq Hinv Hsym Hmvn HU Hb.
    destruct (@init_accepts St lib cfg nx0 dyn cost Hsq Hinv Hsym Hmvn HU Hb)
      as [p [Hp _]].
    exists p. exact Hp.
Qed.

Lemma init_configuration_errors_witness :
  __init__ scalar_library (scalar_config 1 2) 2 (echo_dynamics (F := R))
       (flat_cost 1 0) = None /\
  exists p : MPPIPlanner R unit,
    __init__ scalar_library (scalar_config (-1) 0) 2 (echo_dynamics (F := R))
         (flat_cost 1 0) = Some p /\
    u_max p = - -1 /\ u_min p = -1.
Proof.
  split.
  - apply (proj1 (@init_configuration_errors unit scalar_library
                    (scalar_config 1 2) 2 (echo_dynamics (F := R))
                    (flat_cost 1 0))).
    right. right. right. left. simpl. lra.
  - pose proof (@init_configuration_errors unit scalar_library
                  (scalar_config (-1) 0) 2 (echo_dynamics (F := R))
                  (flat_cost 1 0)) as H.
    cbv zeta in H. destruct H as [_ [Hmirror Haccept]].
    destruct Haccept as [p Hp].
    + reflexivity.
    + simpl. rewrite Rtruthy_true by lra. discriminate.
    + apply is_symmetric_scalar.
    + simpl. apply Rltb_true. lra.
    + reflexivity.
    + simpl. intros [H|[H|[_ H]]]; lra.
    + exists p. split; [exact Hp|].
      destruct (Hmirror p Hp) as [Hzero _]. apply Hzero. reflexivity.
Defined.

Lemma torch_isclose_near (a b : R) :
  Rabs (a - b) <= 1 / 1000000 + Rabs (1 / 100000 * b) ->
  torch_isclose a b = true.
Proof.
  intros H. unfold torch_isclose. simpl.
  rewrite (@Rleb_true (Rabs (a - b) - Rabs (a - b)) 0) by lra.
  rewrite (@Rleb_true (Rabs (a - b))) by exact H.
  apply orb_true_r.
Qed.

(** C8, as stated, fails.  With [u_max = 0] and [u_min = -1] the zero
    bound counts as not given, construction replaces it by [-u_min = 1]
    and succeeds; so it does with [u_min = 0] and [u_max = 1].  And a
    covariance whose two off-diagonal entries are [0] and [5e-7] is not
    symmetric, yet within the tolerance of the validation: construction
    succeeds with it. *)
Lemma init_accepts_zero_u_max_counterexample :
  (exists p : MPPIPlanner R unit,
     __init__ scalar_library (scalar_config (-1) 0) 2 (echo_dynamics (F := R))
          (flat_cost 1 0) = Some p /\
     cfg_u_max (scalar_config (-1) 0) <= 0 /\
     u_max p = - -1 /\ u_min p = -1) /\
  (exists p : MPPIPlanner R unit,
     __init__ scalar_library (scalar_config 0 1) 2 (echo_dynamics (F := R))
          (flat_cost 1 0) = Some p /\
     cfg_u_min (scalar_config 0 1) >= 0 /\
     u_max p = 1 /\ u_min p = - 1) /\
  (exists p : MPPIPlanner R unit,
     let sigma := [[1; 0]; [1 / 2000000; 1]] in
     __init__ pair_library (pair_config sigma) 4 (echo_dynamics (F := R))
          (flat_cost 1 0) = Some p /\
     nth 1 (nth 0 sigma []) 0 <> nth 0 (nth 1 sigma []) 0 /\
     noise_sigma p = sigma).
Proof.
  split; [|split].
  - eexists. split; [|split].
    + unfold __init__. cbn.
      repeat (progress (r_decide; rewrite ?torch_isclose_refl; cbn)).
      reflexivity.
    + cbn. lra.
    + cbn. split; reflexivity.
  - eexists. split; [|split].
    + unfold __init__. cbn.
      repeat (progress (r_decide; rewrite ?torch_isclose_refl; cbn)).
      reflexivity.
    + cbn. lra.
    + cbn. split; reflexivity.
  - eexists. cbv zeta. split; [|split].
    + unfold __init__. cbn.
      rewrite !torch_isclose_refl.
      rewrite (@torch_isclose_near 0 (1 / 2000000))
        by (unfold Rabs; repeat destruct (Rcase_abs _); lra).
      rewrite (@torch_isclose_near (1 / 2000000) 0)
        by (unfold Rabs; repeat destruct (Rcase_abs _); lra).
      repeat (progress (r_decide; cbn)).
      reflexivity.
    + cbn. lra.
    + cbn. reflexivity.
Qed.

(** ** Non-finite costs *)

Lemma xadd_nan_r (a : xreal) : xadd a NaN = NaN.
Proof. destruct a; reflexivity. Qed.

Lemma xadd_nan_l (a : xreal) : xadd NaN a = NaN.
Proof. destruct a; reflexivity. Qed.

Lemma xmul_nan_r (a : xreal) : xmul a NaN = NaN.
Proof. destruct a; reflexivity. Qed.

Lemma xmul_nan_l (a : xreal) : xmul NaN a = NaN.
Proof. destruct a; reflexivity. Qed.

Lemma xsub_nan_r (a : xreal) : xsub a NaN = NaN.
Proof. destruct a; reflexivity. Qed.

Lemma xsub_self (a : xreal) : non_finite a -> xsub a a = NaN.
Proof. destruct a; simpl; intros H; [contradiction | | |]; reflexivity. Qed.

Lemma xmin_choice (a b : xreal) :
  xmin a b = NaN \/ xmin a b = a \/ xmin a b = b.
Proof.
  destruct a, b; simpl; auto;
    match goal with
    | |- context [if ?c then _ else _] => destruct c; auto
    end.
Qed.

Lemma fold_xmin_choice (l : list xreal) (x : xreal) :
  fold_left xmin l x = NaN \/ In (fold_left xmin l x) (x :: l).
Proof.
  revert x. induction l as [|y l IH]; intros x; simpl.
  - right. now left.
  - destruct (IH (xmin x y)) as [H | [H | H]].
    + now left.
    + destruct (xmin_choice x y) as [E | [E | E]].
      * left. rewrite E in *. clear IH H.
        induction l as [|z l IHl]; simpl; [reflexivity|]. exact IHl.
      * right. left. congruence.
      * right. right. left. congruence.
    + right. right. right. exact H.
Qed.

Lemma torch_sum_nan (l : list xreal) : In NaN l -> torch_sum l = NaN.
Proof.
  unfold torch_sum. induction l as [|a l IH]; intros H; [contradiction|].
  cbn [fold_right]. destruct H as [-> | H].
  - apply xadd_nan_l.
  - rewrite (IH H). apply xadd_nan_r.
Qed.

(** On a non-empty cost vector whose entries are all non-finite, and with
    a temperature that is not zero, the softmin step raises nothing:
    [eta] is [nan] and so is every weight in [omega]. *)
Lemma softmin_non_finite_cost (lam : xreal) (cost : list xreal) :
  cost <> [] -> Forall non_finite cost -> struthy lam = true ->
  exists nz,
    softmin lam cost = Some (nz, NaN, map (fun _ => NaN) cost).
Proof.
  intros Hne Hnf Hlam. destruct cost as [|x rest]; [contradiction|].
  unfold softmin, torch_min, py_inv. rewrite Hlam.
  change (fold_left smin rest x) with (fold_left xmin rest x).
  set (beta := fold_left xmin rest x).
  set (factor := sdiv s1 lam).
  set (nz := _ensure_non_zero (x :: rest) beta factor).
  assert (Hin : In NaN nz).
  { unfold nz, _ensure_non_zero. apply in_map_iff.
    destruct (fold_xmin_choice rest x) as [E | E]; fold beta in E.
    - exists x. split; [|now left]. simpl. rewrite E, xsub_nan_r, xmul_nan_r.
      reflexivity.
    - exists beta. split; [|exact E]. rewrite Forall_forall in Hnf.
      simpl. rewrite (xsub_self _ (Hnf beta E)), xmul_nan_r. reflexivity. }
  exists nz. cbv zeta. rewrite (torch_sum_nan _ Hin).
  do 2 f_equal. unfold vscale, nz, _ensure_non_zero. rewrite map_map.
  apply map_ext. intros c. reflexivity.
Qed.

Lemma softmin_non_finite_cost_witness :
  exists nz,
    softmin (Fin 1) [PInf; NaN; NInf]
    = Some (nz, NaN, map (fun _ => NaN) [PInf; NaN; NInf]).
Proof.
  apply softmin_non_finite_cost.
  - discriminate.
  - repeat constructor.
  - simpl. apply Rtruthy_true. lra.
Defined.

Lemma vadd_nan_l (n : nat) (w : list xreal) :
  length w = n -> vadd (repeat NaN n) w = repeat NaN n.
Proof.
  revert w. induction n as [|n IH]; intros [|b w] H; try discriminate;
    [reflexivity|].
  simpl in H. injection H as H. specialize (IH w H).
  unfold vadd in *. simpl in *. rewrite IH. destruct b; reflexivity.
Qed.

Lemma vadd_nan_r (n : nat) (w : list xreal) :
  length w = n -> vadd w (repeat NaN n) = repeat NaN n.
Proof.
  revert w. induction n as [|n IH]; intros [|b w] H; try discriminate;
    [reflexivity|].
  simpl in H. injection H as H. specialize (IH w H).
  unfold vadd in *. simpl in *. rewrite IH. destruct b; reflexivity.
Qed.

Lemma vscale_nan (v : list xreal) :
  vscale NaN v = repeat NaN (length v).
Proof.
  unfold vscale. induction v as [|a v IH]; simpl in *; [reflexivity|].
  rewrite IH. destruct a; reflexivity.
Qed.

(** The weighted noise of one step when every weight is [nan]. *)
Lemma nan_weighted_sum (n : nat) (cost : list xreal)
    (rows : list (list xreal)) :
  cost <> [] -> length rows = length cost ->
  Forall (fun v => length v = n) rows ->
  sum_dim0 n (map2 vscale (map (fun _ => NaN) cost) rows) = repeat NaN n.
Proof.
  intros Hne Hlen Hrows.
  destruct cost as [|c cost]; [contradiction|].
  destruct rows as [|r rows]; [discriminate|].
  apply Forall_cons_iff in Hrows. destruct Hrows as [Hr Hrows].
  cbn [map map2]. change (sum_dim0 n (?v :: ?m)) with (vadd v (sum_dim0 n m)).
  rewrite vscale_nan, Hr. apply vadd_nan_l. apply sum_dim0_length.
  apply (@map2_Forall _ _ _ vscale (fun _ => True)
           (fun v => length v = n)); auto.
  - intros w v _ Hv. unfold vscale. now rewrite length_map.
  - apply Forall_forall. auto.
Qed.

Lemma update_U_nan {St : Type} (p : MPPIPlanner xreal St)
    (cost : list xreal) (pa' : list (list (list xreal))) :
  cost <> [] -> length cost = K p ->
  batch_ok (fun _ => True) (K p) (T p) (nu p) pa' ->
  is_matrix (T p) (nu p) (U p) = true ->
  let U2 := update_U p (map (fun _ => NaN) cost)
              (map (fun pk => map2 vsub pk (U p)) pa') (U p) in
  length U2 = T p /\ Forall (Forall (eq NaN)) U2.
Proof.
  intros Hne Hlen Hpa HU U2.
  apply is_matrix_true in HU. destruct HU as [HUl HU].
  set (nse := map (fun pk => map2 vsub pk (U p)) pa') in *.
  set (f := fun t Ut =>
              vadd Ut (sum_dim0 (nu p)
                         (map2 vscale (map (fun _ => NaN) cost) (col t nse)))).
  assert (Hfold : forall t,
    length U2 = length (U p) /\
    nth t U2 [] = if (0 <=? t)%nat && (t <? 0 + T p)%nat
                  then f t (nth t (U p) []) else nth t (U p) []).
  { intros t. apply (@update_fold_nth xreal f (T p) 0 (U p) t). lia. }
  split; [destruct (Hfold 0%nat) as [Hl _]; now rewrite Hl|].
  apply Forall_nth. intros t d Ht.
  destruct (Hfold t) as [Hl Hn]. rewrite Hl, HUl in Ht.
  rewrite (nth_indep _ d []) by (rewrite Hl, HUl; exact Ht).
  rewrite Hn.
  replace (t <? 0 + T p)%nat with true by (symmetry; apply Nat.ltb_lt; lia).
  cbn [Nat.leb andb]. unfold f.
  assert (HUt : length (nth t (U p) []) = nu p).
  { apply (@Forall_nth_in _ (fun v => length v = nu p)); [exact HU | lia]. }
  rewrite nan_weighted_sum.
  - rewrite (@vadd_nan_r _ _ HUt). apply Forall_forall. intros x Hx.
    apply repeat_spec in Hx. now subst.
  - exact Hne.
  - unfold col, nse. rewrite !length_map. destruct Hpa as [Hpl _]. lia.
  - unfold col, nse. rewrite map_map. apply Forall_map.
    destruct Hpa as [_ Hpa]. eapply Forall_impl; [|exact Hpa].
    intros pk [Hpl Hrows].
    rewrite (nth_map2 vsub pk (U p) [] [] []) by lia.
    unfold vsub. rewrite map2_length, HUt.
    assert (Hr : row_ok (fun _ : xreal => True) (nu p) (nth t pk []))
      by (apply Forall_nth_in; [exact Hrows | lia]).
    destruct Hr as [Hr _]. lia.
Qed.

(** C9, as amended.  When the cost vector of a cycle is entirely
    non-finite (one sample at least, a temperature that is not zero, no
    filtering), [command] raises nothing on its account: every weight in
    [omega] is [nan], every entry of the new [U] is [nan], and the action
    it returns consists of [nan]. *)
Theorem command_non_finite_cost {St : Type} (lib : Library xreal)
    (p : MPPIPlanner xreal St) (s : St) (draw : list (list (list xreal)))
    (cost : list xreal) (sts : list St)
    (acts nse pa : list (list (list xreal))) :
  K p <> 0%nat -> struthy (lambda_ p) = true -> filter_u p = false ->
  _compute_total_cost_batch (set_U p (torch_roll (U p))) s draw
    = Some (cost, sts, acts, nse, pa) ->
  Forall non_finite cost ->
  exists p' smp act,
    command lib p s draw = Some (p', smp, act) /\
    cost_total smp = cost /\
    omega smp = map (fun _ => NaN) cost /\
    Forall (Forall (eq NaN)) (U p') /\
    action_all_nan act.
Proof.
  intros HK Hlam Hfilter Hbatch Hnf.
  set (p1 := set_U p (torch_roll (U p))) in *.
  destruct (@cost_batch_ok xreal _ St p1 (fun _ => True)
              (fun _ _ => I) I (fun _ => I)
              (fun _ _ _ u' _ _ =>
                 proj2 (Forall_forall _ u')
                   (fun v _ => proj2 (Forall_forall _ v) (fun _ _ => I)))
              s draw _ _ _ _ _ Hbatch)
    as [Hpa [Hcost [Hnse [HU HT]]]].
  assert (Hne : cost <> []).
  { intros ->. simpl in Hcost. apply HK. symmetry. exact Hcost. }
  destruct (@softmin_non_finite_cost (lambda_ p) cost Hne Hnf Hlam)
    as [nz Hsoft].
  destruct (@update_U_nan St p1 cost pa Hne Hcost Hpa HU) as [HU2l HU2].
  cbv zeta in HU2l, HU2. rewrite <- Hnse in HU2l, HU2.
  set (U2 := update_U p1 (map (fun _ => NaN) cost) nse (U p1)) in *.
  assert (Hcmd : command lib p s draw =
    do out <-
      (if (u_per_command p =? 1)%Z then
         match py_prefix (u_per_command p) U2 with
         | [] => None
         | a :: _ => Some (Vector a)
         end
       else Some (Sequence (py_prefix (u_per_command p) U2)));
    Some (set_U p1 U2,
          {| noise := nse; perturbed_action := pa; cost_total := cost;
             cost_total_non_zero := nz; omega := map (fun _ => NaN) cost;
             states := sts; actions := acts |},
          out)).
  { unfold command. fold p1. rewrite Hbatch.
    change (lambda_ p1) with (lambda_ p). rewrite Hsoft.
    change (filter_u p1) with (filter_u p). rewrite Hfilter.
    reflexivity. }
  rewrite Hcmd. clear Hcmd.
  destruct (u_per_command p =? 1)%Z eqn:Hn.
  - apply Z.eqb_eq in Hn. rewrite Hn.
    destruct U2 as [|a rest] eqn:EU; [cbn [length] in HU2l; lia|].
    cbn [py_prefix Z.leb Z.to_nat firstn]. unfold py_prefix. simpl.
    eexists _, _, _. split; [reflexivity|].
    cbn [cost_total omega U set_U action_all_nan].
    repeat split; auto. now inversion HU2.
  - eexists _, _, _. split; [reflexivity|].
    cbn [cost_total omega U set_U action_all_nan].
    repeat split; auto. now apply Forall_py_prefix.
Qed.

Lemma command_non_finite_cost_witness :
  let p := scalar_planner (F := xreal) echo_dynamics 1 1 [[Fin 0]] (Fin 1) false NaN in
  exists p' smp act,
    command (silent_library xreal) p tt [[[Fin 0]]] = Some (p', smp, act) /\
    cost_total smp = [NaN] /\
    omega smp = map (fun _ => NaN) [NaN] /\
    Forall (Forall (eq NaN)) (U p') /\
    action_all_nan act.
Proof.
  intros p.
  eapply (@command_non_finite_cost unit (silent_library xreal) p tt
            [[[Fin 0]]] [NaN]).
  - discriminate.
  - simpl. apply Rtruthy_true. lra.
  - reflexivity.
  - unfold p, _compute_total_cost_batch, _compute_rollout_costs.
    cbn. r_decide. cbn. reflexivity.
  - repeat constructor.
Defined.

Lemma nan_cost_cycle :
  let p := scalar_planner (F := xreal) echo_dynamics 1 1 [[Fin 0]] (Fin 1) false NaN in
  exists p' smp v,
    command (silent_library xreal) p tt [[[Fin 0]]]
      = Some (p', smp, Vector [v]) /\
    cost_total smp = [NaN] /\ v = NaN.
Proof.
  intros p. eexists _, _, _. split; [|split].
  - unfold p, command, _compute_total_cost_batch, _compute_rollout_costs,
      softmin, py_inv.
    cbn. r_decide. cbn. reflexivity.
  - cbn. r_decide. cbn. reflexivity.
  - cbn. r_decide. cbn. reflexivity.
Qed.

(** C9, as stated, fails: when the running cost of the one sample is
    [nan], the cost vector of the cycle is [[nan]], no error is signalled,
    and [command] returns the action [[nan]]. *)
Lemma command_nan_cost_counterexample :
  let p := scalar_planner (F := xreal) echo_dynamics 1 1 [[Fin 0]] (Fin 1) false NaN in
  exists p' smp,
    command (silent_library xreal) p tt [[[Fin 0]]]
      = Some (p', smp, Vector [NaN]) /\
    Forall non_finite (cost_total smp).
Proof.
  intros p. destruct nan_cost_cycle as [p' [smp [v [H [Hc ->]]]]].
  exists p', smp. split; [exact H|]. rewrite Hc. repeat constructor.
Qed.

(** ** The two readings agree on finite numbers *)

Lemma xmin_fin (a b : R) : xmin (Fin a) (Fin b) = Fin (Rmin a b).
Proof.
  unfold xmin, xleb, Rleb, Rmin. destruct (Rle_dec a b); reflexivity.
Qed.

Lemma fold_xmin_fin (l : list R) (x : R) :
  fold_left xmin (map Fin l) (Fin x) = Fin (fold_left Rmin l x).
Proof.
  revert x. induction l as [|y l IH]; intros x; [reflexivity|].
  cbn [map fold_left]. rewrite xmin_fin. apply IH.
Qed.

Lemma torch_sum_fin (l : list R) :
  torch_sum (map Fin l) = Fin (torch_sum l).
Proof.
  unfold torch_sum. induction l as [|a l IH]; [reflexivity|].
  cbn [map fold_right]. rewrite IH. reflexivity.
Qed.

Lemma xdiv_fin (a b : R) : b <> 0 -> xdiv (Fin a) (Fin b) = Fin (a / b).
Proof.
  intros Hb. unfold xdiv. destruct (Req_dec_T b 0); [contradiction|].
  reflexivity.
Qed.

(** On a non-empty vector of finite costs and a finite non-zero temperature
    the softmin step over the extended reals meets no special value and
    computes what it computes over the reals. *)
Lemma softmin_finite_agrees (lam : R) (cost : list R) :
  lam <> 0 -> cost <> [] ->
  softmin (Fin lam) (map Fin cost)
  = option_map (fun r => let '(nz, eta, om) := r in
                         (map Fin nz, Fin eta, map Fin om))
               (softmin lam cost).
Proof.
  intros Hlam Hne.
  destruct (softmin_defined Hlam Hne) as [beta [Hmin [Heq Heta]]].
  rewrite Heq. cbn [option_map].
  destruct cost as [|x rest]; [contradiction|].
  assert (Hbeta : beta = fold_left Rmin rest x)
    by (injection Hmin as <-; reflexivity).
  unfold softmin, torch_min, py_inv.
  change (map Fin (x :: rest)) with (Fin x :: map Fin rest).
  cbv beta iota.
  change (fold_left smin (map Fin rest) (Fin x))
    with (fold_left xmin (map Fin rest) (Fin x)).
  rewrite fold_xmin_fin, <- Hbeta.
  change (struthy (Fin lam)) with (Rtruthy lam). rewrite (Rtruthy_true Hlam).
  change (sdiv s1 (Fin lam)) with (xdiv (Fin 1) (Fin lam)).
  rewrite (xdiv_fin 1 Hlam). cbv zeta.
  assert (Hnz : _ensure_non_zero (Fin x :: map Fin rest) (Fin beta)
                  (Fin (1 / lam))
                = map Fin (_ensure_non_zero (x :: rest) beta (1 / lam))).
  { change (Fin x :: map Fin rest) with (map Fin (x :: rest)).
    unfold _ensure_non_zero. rewrite !map_map. apply map_ext.
    intros c. reflexivity. }
  rewrite Hnz, torch_sum_fin.
  change (sdiv s1 (Fin ?e)) with (xdiv (Fin 1) (Fin e)).
  rewrite xdiv_fin by lra.
  do 2 f_equal. unfold vscale. rewrite !map_map. apply map_ext.
  intros c. reflexivity.
Qed.

(** * Further properties of the planner *)

(** ** The softmin step: errors, order and size of the weights *)

(** X1.  Over the reals the softmin step of [command] raises in two cases
    only: an empty cost vector ([torch.min] of an empty tensor) and a
    temperature of zero ([1 / self.lambda_]). *)
Theorem softmin_raises_iff (lam : R) (cost : list R) :
  softmin lam cost = None <-> cost = [] \/ lam = 0.
Proof.
  split.
  - intros H. destruct cost as [|x rest]; [now left|]. right.
    destruct (Req_dec_T lam 0) as [E|E]; [exact E|].
    assert (Hne : x :: rest <> []) by discriminate.
    destruct (softmin_defined E Hne) as [beta [_ [Heq _]]].
    rewrite Heq in H. discriminate.
  - intros [-> | ->]; [reflexivity|].
    unfold softmin. destruct (torch_min cost); [|reflexivity].
    unfold py_inv. simpl. rewrite Rtruthy_false by reflexivity. reflexivity.
Qed.

Lemma exp_le_mono (a b : R) : a <= b -> exp a <= exp b.
Proof.
  intros [H | ->]; [left; now apply exp_increasing | right; reflexivity].
Qed.

Lemma nth_softmin_weight (lam eta : R) (cost nz om : list R) (k : nat) :
  lam <> 0 -> softmin lam cost = Some (nz, eta, om) ->
  (k < length cost)%nat ->
  exists beta,
    torch_min cost = Some beta /\ 1 <= eta /\
    eta = torch_sum nz /\
    nth k nz 0 = exp (- (1 / lam) * (nth k cost 0 - beta)) /\
    nth k om 0 = 1 / eta * nth k nz 0.
Proof.
  intros Hlam H Hk.
  assert (Hne : cost <> []) by (intros ->; simpl in Hk; lia).
  destruct (softmin_defined Hlam Hne) as [beta [Hmin [Heq Heta]]].
  rewrite Heq in H. injection H as <- <- <-.
  exists beta. split; [exact Hmin|]. split; [exact Heta|].
  split; [reflexivity|].
  assert (Hnz : nth k (_ensure_non_zero cost beta (1 / lam)) 0
                = exp (- (1 / lam) * (nth k cost 0 - beta))).
  { unfold _ensure_non_zero.
    rewrite (nth_indep _ 0 (exp (- (1 / lam) * (0 - beta))))
      by (now rewrite length_map).
    apply (map_nth (fun c => exp (- (1 / lam) * (c - beta)))). }
  split; [exact Hnz|].
  unfold vscale.
  set (a := 1 / torch_sum (_ensure_non_zero cost beta (1 / lam))).
  rewrite (nth_indep _ 0 (a * 0))
    by (unfold _ensure_non_zero; now rewrite !length_map).
  apply (map_nth (Rmult a)).
Qed.

(** X2.  For a positive temperature the weights are ordered against the
    costs: a sample that costs no more than another gets a weight that is
    no smaller. *)
Theorem softmin_weights_antitone (lam eta : R) (cost nz om : list R)
    (i j : nat) :
  0 < lam -> softmin lam cost = Some (nz, eta, om) ->
  (i < length cost)%nat -> (j < length cost)%nat ->
  nth i cost 0 <= nth j cost 0 -> nth j om 0 <= nth i om 0.
Proof.
  intros Hlam H Hi Hj Hle.
  assert (Hl : lam <> 0) by lra.
  destruct (@nth_softmin_weight lam eta cost nz om i Hl H Hi) as [beta [Hmin [Heta [_ [Hzi Hoi]]]]].
  destruct (@nth_softmin_weight lam eta cost nz om j Hl H Hj) as [beta' [Hmin' [_ [_ [Hzj Hoj]]]]].
  rewrite Hmin in Hmin'. injection Hmin' as <-.
  rewrite Hoi, Hoj, Hzi, Hzj.
  assert (Ha : 0 < 1 / eta) by (apply Rdiv_lt_0_compat; lra).
  assert (Hf : 0 < 1 / lam) by (apply Rdiv_lt_0_compat; lra).
  apply Rmult_le_compat_l; [lra|]. apply exp_le_mono. nra.
Qed.

Lemma softmin_weights_antitone_witness :
  exists nz eta om,
    softmin 1 [3; 1; 2] = Some (nz, eta, om) /\
    nth 0 om 0 <= nth 2 om 0.
Proof.
  destruct (@softmin_defined 1 [3; 1; 2]) as [beta [_ [Heq _]]];
    [lra | discriminate |].
  eexists _, _, _. split; [exact Heq|].
  apply (@softmin_weights_antitone 1 _ [3; 1; 2] _ _ 2 0 Rlt_0_1 Heq);
    simpl; try lia; lra.
Defined.

Lemma torch_sum_le_length (v : list R) :
  Forall (fun y => y <= 1) v -> torch_sum v <= INR (length v).
Proof.
  unfold torch_sum. induction 1 as [|y v Hy Hv IH].
  - simpl. unfold s0. simpl. lra.
  - change (length (y :: v)) with (S (length v)). rewrite S_INR.
    simpl in *. lra.
Qed.

(** X3.  For a positive temperature no weight exceeds one, and a sample
    of least cost gets a weight of at least [1/K]: its exponential is
    [exp(0) = 1] and [eta] is at most [K], so the best sample keeps its
    weight however far the other costs are away. *)
Theorem softmin_best_weight (lam eta : R) (cost nz om : list R) (k : nat) :
  0 < lam -> softmin lam cost = Some (nz, eta, om) ->
  (k < length cost)%nat ->
  (forall j, (j < length cost)%nat -> nth k cost 0 <= nth j cost 0) ->
  Forall (fun w => w <= 1) om /\
  nth k nz 0 = 1 /\ eta <= INR (length cost) /\
  1 / INR (length cost) <= nth k om 0.
Proof.
  intros Hlam H Hk Hbest.
  assert (Hl : lam <> 0) by lra.
  destruct (@nth_softmin_weight lam eta cost nz om k Hl H Hk)
    as [beta [Hmin [Heta [Hsum [Hzk Hok]]]]].
  destruct (torch_min_spec _ Hmin) as [Hin Hlow].
  assert (Hbeta : nth k cost 0 = beta).
  { apply Rle_antisym.
    - destruct (In_nth _ _ 0 Hin) as [j [Hj <-]]. now apply Hbest.
    - apply (@Forall_nth_in _ (fun y => beta <= y)); assumption. }
  assert (Hne : cost <> []) by (intros ->; simpl in Hk; lia).
  destruct (softmin_defined Hl Hne) as [beta' [Hmin' [Heq _]]].
  rewrite Hmin in Hmin'. injection Hmin' as <-.
  rewrite Heq in H. injection H as Hnz _ Hom.
  assert (Hf : 0 < 1 / lam) by (apply Rdiv_lt_0_compat; lra).
  assert (Hle1 : Forall (fun y => y <= 1) nz).
  { rewrite <- Hnz. unfold _ensure_non_zero. apply Forall_map.
    eapply Forall_impl; [|exact Hlow]. intros c Hc. simpl.
    apply (Rle_trans _ (exp 0)); [|rewrite exp_0; lra].
    apply exp_le_mono. simpl in *.
    assert (0 <= 1 / lam * (c - beta)) by (apply Rmult_le_pos; lra).
    lra. }
  assert (Hpos : Forall (fun y => 0 < y) nz)
    by (rewrite <- Hnz; apply ensure_non_zero_pos).
  assert (Hlen : length nz = length cost)
    by (rewrite <- Hnz; unfold _ensure_non_zero; now rewrite length_map).
  assert (HetaK : eta <= INR (length cost)).
  { rewrite Hsum, <- Hlen. now apply torch_sum_le_length. }
  assert (Hz1 : nth k nz 0 = 1).
  { rewrite Hzk, Hbeta. replace (- (1 / lam) * (beta - beta)) with 0 by ring.
    apply exp_0. }
  assert (Ha : 0 < 1 / eta) by (apply Rdiv_lt_0_compat; lra).
  split; [|split; [exact Hz1 | split; [exact HetaK|]]].
  - rewrite <- Hom. unfold vscale. apply Forall_map.
    rewrite Hnz, <- Hsum. apply Forall_forall. intros y Hy.
    assert (Hy0 : 0 < y) by (rewrite Forall_forall in Hpos; auto).
    assert (Hyle : y <= eta).
    { rewrite Hsum. apply torch_sum_ge_member; [|exact Hy].
      eapply Forall_impl; [|exact Hpos]. simpl. intros; lra. }
    apply (Rmult_le_reg_r eta); [lra|].
    change (smul (1 / eta) y) with (1 / eta * y).
    replace (1 / eta * y * eta) with y by (field; lra). lra.
  - rewrite Hok, Hz1, Rmult_1_r.
    assert (HK : 0 < INR (length cost)) by lra.
    unfold Rdiv. rewrite !Rmult_1_l.
    apply Rinv_le_contravar; lra.
Qed.

Lemma softmin_best_weight_witness :
  exists nz eta om,
    softmin 2 [5; 7] = Some (nz, eta, om) /\
    Forall (fun w => w <= 1) om /\
    nth 0 nz 0 = 1 /\ eta <= INR (length [5; 7]) /\
    1 / INR (length [5; 7]) <= nth 0 om 0.
Proof.
  destruct (@softmin_defined 2 [5; 7]) as [beta [_ [Heq _]]];
    [lra | discriminate |].
  eexists _, _, _. split; [exact Heq|].
  apply (@softmin_best_weight 2 _ [5; 7] _ _ 0); [lra | exact Heq | |].
  - simpl. lia.
  - intros [|[|j]] Hj; simpl in *; try lra; lia.
Defined.

Lemma fold_min_repeat (c : R) (n : nat) : fold_left Rmin (repeat c n) c = c.
Proof.
  induction n as [|n IH]; [reflexivity|]. simpl.
  rewrite Rmin_left by lra. exact IH.
Qed.

Lemma torch_sum_repeat (c : R) (n : nat) :
  torch_sum (repeat c n) = INR n * c.
Proof.
  unfold torch_sum. induction n as [|n IH].
  - simpl. unfold s0. simpl. lra.
  - rewrite S_INR. cbn [repeat fold_right]. rewrite IH. simpl. lra.
Qed.

(** X4.  When all [K >= 1] samples cost the same, every weight is [1/K],
    whatever the common cost and the (non-zero) temperature. *)
Theorem softmin_equal_costs_uniform (lam c : R) (k : nat) :
  lam <> 0 -> k <> 0%nat ->
  exists nz eta,
    softmin lam (repeat c k) = Some (nz, eta, repeat (1 / INR k) k).
Proof.
  intros Hlam Hk.
  assert (Hne : repeat c k <> []) by (destruct k; [contradiction|discriminate]).
  destruct (softmin_defined Hlam Hne) as [beta [Hmin [Heq _]]].
  assert (Hbeta : beta = c).
  { destruct k as [|k]; [contradiction|]. simpl in Hmin.
    injection Hmin as <-. apply fold_min_repeat. }
  subst beta. rewrite Heq. eexists _, _. do 2 f_equal.
  unfold _ensure_non_zero, vscale. rewrite !map_repeat.
  rewrite torch_sum_repeat. f_equal. simpl.
  replace (- (1 / lam) * (c - c)) with 0 by lra. rewrite exp_0.
  field. now apply not_0_INR.
Qed.

Lemma softmin_equal_costs_uniform_witness :
  exists nz eta,
    softmin 1 (repeat 10 4) = Some (nz, eta, repeat (1 / INR 4) 4).
Proof.
  apply softmin_equal_costs_uniform; [lra | discriminate].
Defined.

(** ** Clipping *)

Lemma map3_ext_in {A B} (f g : A -> B) (P : A -> Prop)
    (b : list (list (list A))) :
  (forall a, P a -> f a = g a) ->
  Forall (Forall (Forall P)) b ->
  map (map (map f)) b = map (map (map g)) b.
Proof.
  intros Hfg Hb. apply map_ext_in. intros m Hm.
  rewrite Forall_forall in Hb. specialize (Hb m Hm).
  apply map_ext_in. intros v Hv.
  rewrite Forall_forall in Hb. specialize (Hb v Hv).
  apply map_ext_in. intros a Ha.
  rewrite Forall_forall in Hb. auto.
Qed.

Lemma Forall3_true {A} (b : list (list (list A))) :
  Forall (Forall (Forall (fun _ : A => True))) b.
Proof.
  apply Forall_forall. intros m _. apply Forall_forall. intros v _.
  apply Forall_forall. auto.
Qed.

Lemma Forall3_map {A B} (f : A -> B) (Q : B -> Prop)
    (b : list (list (list A))) :
  (forall a, Q (f a)) -> Forall (Forall (Forall Q)) (map (map (map f)) b).
Proof.
  intros Hf. apply Forall_map, Forall_forall. intros m _.
  apply Forall_map, Forall_forall. intros v _.
  apply Forall_map, Forall_forall. intros a _. apply Hf.
Qed.

(** X5.  With [u_min <= u_max], [_bound_action] puts every element of a
    batch within [[u_min, u_max]], keeps its shape, and returns a batch
    that already lies within the bounds as it is. *)
Theorem bound_action_clips {St : Type} (p : MPPIPlanner R St)
    (action : list (list (list R))) :
  u_min p <= u_max p ->
  Forall (Forall (Forall (within (u_min p) (u_max p))))
    (_bound_action p action) /\
  map (map (@length R)) (_bound_action p action)
    = map (map (@length R)) action /\
  (Forall (Forall (Forall (within (u_min p) (u_max p)))) action ->
   _bound_action p action = action).
Proof.
  intros Hle. unfold _bound_action. split; [|split].
  - apply Forall3_map. intros a. now apply clip_within.
  - rewrite map_map. apply map_ext. intros m. rewrite map_map.
    apply map_ext. intros v. apply length_map.
  - intros Hin.
    rewrite (@map3_ext_in R R _ (fun a => a)
               (within (u_min p) (u_max p)) action); [|
      | exact Hin].
    + rewrite <- (map_id action) at 2. apply map_ext. intros m.
      rewrite <- (map_id m) at 2. apply map_ext. intros v. apply map_id.
    + intros a [H1 H2]. simpl.
      rewrite (Rmin_left a (u_max p)) by lra.
      apply Rmax_left. lra.
Qed.

Lemma bound_action_clips_witness :
  let p := scalar_planner echo_dynamics 1 2 [[0]; [0]] 1 false 0 in
  Forall (Forall (Forall (within (u_min p) (u_max p))))
    (_bound_action p [[[3]; [-7]]]) /\
  map (map (@length R)) (_bound_action p [[[3]; [-7]]])
    = map (map (@length R)) [[[3]; [-7]]] /\
  (Forall (Forall (Forall (within (u_min p) (u_max p)))) [[[3]; [-7]]] ->
   _bound_action p [[[3]; [-7]]] = [[[3]; [-7]]]).
Proof.
  intros p. apply (@bound_action_clips unit p [[[3]; [-7]]]).
  simpl. lra.
Defined.

Lemma clip_crossed (lo hi a : R) : hi < lo -> Rmax (Rmin a hi) lo = lo.
Proof.
  intros H. apply Rmax_right. pose proof (Rmin_r a hi). lra.
Qed.

Lemma clip_clip (lo hi a : R) :
  Rmax (Rmin (Rmax (Rmin a hi) lo) hi) lo = Rmax (Rmin a hi) lo.
Proof.
  destruct (Rle_dec lo hi) as [H|H].
  - destruct (clip_within a H) as [H1 H2].
    rewrite (Rmin_left _ hi) by exact H2. apply Rmax_left. exact H1.
  - assert (Hx : hi < lo) by lra.
    rewrite (clip_crossed a Hx). rewrite (Rmin_right lo hi) by lra.
    apply Rmax_right. lra.
Qed.

(** X6.  Clipping twice is clipping once, whatever the two bounds are;
    and when the bounds are crossed ([u_max < u_min]) every element comes
    out as [u_min], since the upper bound is applied first. *)
Theorem bound_action_idempotent {St : Type} (p : MPPIPlanner R St)
    (action : list (list (list R))) :
  _bound_action p (_bound_action p action) = _bound_action p action /\
  (u_max p < u_min p ->
   _bound_action p action = map (map (map (fun _ => u_min p))) action).
Proof.
  unfold _bound_action. split.
  - rewrite map_map.
    apply map_ext. intros m. rewrite map_map.
    apply map_ext. intros v. rewrite map_map.
    apply map_ext. intros a. simpl. apply clip_clip.
  - intros Hx.
    apply (@map3_ext_in R R _ _ (fun _ => True)); [|apply Forall3_true].
    intros a _. simpl. now apply clip_crossed.
Qed.

(** X7.  Clipping does not remove [nan]: a batch of [nan] comes back as
    it is, for any bounds.  Infinite entries are brought to the bound on
    their side when the bounds are finite and ordered. *)
Theorem bound_action_special_values {St : Type} (p : MPPIPlanner xreal St)
    (action : list (list (list xreal))) :
  _bound_action p (map (map (map (fun _ => NaN))) action)
    = map (map (map (fun _ => NaN))) action /\
  (forall lo hi, u_min p = Fin lo -> u_max p = Fin hi -> lo <= hi ->
     _bound_action p (map (map (map (fun _ => PInf))) action)
       = map (map (map (fun _ => Fin hi))) action /\
     _bound_action p (map (map (map (fun _ => NInf))) action)
       = map (map (map (fun _ => Fin lo))) action).
Proof.
  unfold _bound_action. split.
  - rewrite map_map. apply map_ext. intros m. rewrite !map_map.
    apply map_ext. intros v. rewrite !map_map.
    apply map_ext. intros a. simpl.
    destruct (u_max p), (u_min p); reflexivity.
  - intros lo hi Hlo Hhi Hle. rewrite Hlo, Hhi. split.
    + rewrite map_map. apply map_ext. intros m. rewrite !map_map.
      apply map_ext. intros v. rewrite !map_map.
      apply map_ext. intros a. simpl. unfold Rleb.
      destruct (Rle_dec hi lo); [f_equal; lra | reflexivity].
    + rewrite map_map. apply map_ext. intros m. rewrite !map_map.
      apply map_ext. intros v. rewrite !map_map.
      apply map_ext. intros a. reflexivity.
Qed.

Lemma bound_action_idempotent_witness :
  let p := set_bounds (scalar_planner echo_dynamics 1 1 [[0]] 1 false 0) 2 1 in
  _bound_action p (_bound_action p [[[5]]]) = _bound_action p [[[5]]] /\
  _bound_action p [[[5]]] = map (map (map (fun _ => u_min p))) [[[5]]].
Proof.
  intros p.
  destruct (@bound_action_idempotent unit p [[[5]]]) as [H1 H2].
  split; [exact H1|]. apply H2. simpl. lra.
Defined.

Lemma bound_action_special_values_witness :
  let p := scalar_planner (F := xreal) echo_dynamics 1 1 [[Fin 0]] (Fin 1)
             false (Fin 0) in
  _bound_action p [[[PInf]]] = [[[Fin 1]]] /\
  _bound_action p [[[NInf]]] = [[[Fin (- (1))]]].
Proof.
  intros p.
  destruct (@bound_action_special_values unit p [[[Fin 0]]]) as [_ H].
  apply (H (- (1)) 1); [reflexivity | reflexivity | lra].
Defined.

(** ** The roll as a rotation *)

Lemma skipn_nth_cons {A} (k : nat) (l : list A) (d : A) :
  (k < length l)%nat -> skipn k l = nth k l d :: skipn (S k) l.
Proof.
  revert k. induction l as [|a l IH]; intros [|k] H; simpl in *; try lia;
    auto.
  apply IH. lia.
Qed.

Lemma firstn_snoc {A} (k : nat) (l : list A) (d : A) :
  (k < length l)%nat -> firstn (S k) l = firstn k l ++ [nth k l d].
Proof.
  revert k. induction l as [|a l IH]; intros [|k] H; simpl in *; try lia;
    auto.
  f_equal. apply IH. lia.
Qed.

Lemma iter_torch_roll {F : Type} (U0 : list (list F)) (k : nat) :
  (k <= length U0)%nat ->
  Nat.iter k (@torch_roll F) U0 = skipn k U0 ++ firstn k U0.
Proof.
  induction k as [|k IH]; intros Hk.
  - simpl. now rewrite app_nil_r.
  - cbn [Nat.iter nat_rect]. change (nat_rect _ U0 (fun _ => torch_roll) k)
      with (Nat.iter k (@torch_roll F) U0).
    rewrite IH by lia.
    rewrite (skipn_nth_cons U0 [] (k := k)) by lia.
    rewrite (firstn_snoc U0 [] (k := k)) by lia.
    cbn [app torch_roll]. now rewrite <- app_assoc.
Qed.

(** X8.  [torch.roll(U, -1, dims=0)] rotates: the rolled sequence holds
    the same rows as before (none is dropped, none is doubled), and the
    row that was first is the one that comes last. *)
Theorem torch_roll_wraps {F : Type} (U0 : list (list F)) (d : list F) :
  U0 <> [] ->
  Permutation (torch_roll U0) U0 /\
  nth (length U0 - 1) (torch_roll U0) d = nth 0 U0 d.
Proof.
  intros Hne. split.
  - destruct U0 as [|first rest]; [contradiction|]. simpl.
    apply Permutation_sym, Permutation_cons_append.
  - now apply torch_roll_back.
Qed.

Lemma torch_roll_wraps_witness :
  let U0 : list (list R) := [[1]; [2]; [3]] in
  Permutation (torch_roll U0) U0 /\
  nth (length U0 - 1) (torch_roll U0) [] = nth 0 U0 [].
Proof.
  apply torch_roll_wraps. discriminate.
Defined.

(** X9.  Rolling [k] times a sequence of at least [k] rows moves its
    first [k] rows to the end, and rolling a sequence of [T] rows [T]
    times gives the sequence back. *)
Theorem torch_roll_period {F : Type} (U0 : list (list F)) (k : nat) :
  (k <= length U0)%nat ->
  Nat.iter k (@torch_roll F) U0 = skipn k U0 ++ firstn k U0 /\
  Nat.iter (length U0) (@torch_roll F) U0 = U0.
Proof.
  intros Hk. split; [now apply iter_torch_roll|].
  rewrite iter_torch_roll by lia.
  rewrite skipn_all, firstn_all. reflexivity.
Qed.

Lemma torch_roll_period_witness :
  let U0 : list (list R) := [[1]; [2]; [3]] in
  Nat.iter 2 (@torch_roll R) U0 = skipn 2 U0 ++ firstn 2 U0 /\
  Nat.iter (length U0) (@torch_roll R) U0 = U0.
Proof.
  apply (@torch_roll_period R [[1]; [2]; [3]] 2). simpl. lia.
Defined.

(** ** What a cycle keeps and what it leaves *)

Lemma batch_ok_is_batch {F : Type} (P : F -> Prop) (k r c : nat)
    (b : list (list (list F))) :
  batch_ok P k r c b -> is_batch k r c b = true.
Proof.
  intros [Hl Hb]. apply is_batch_true. split; [exact Hl|].
  eapply Forall_impl; [|exact Hb]. intros m [Hm Hrows]. split; [exact Hm|].
  eapply Forall_impl; [|exact Hrows]. intros v [Hv _]. exact Hv.
Qed.

Lemma is_batch_batch_ok {F : Type} (k r c : nat)
    (b : list (list (list F))) :
  is_batch k r c b = true -> batch_ok (fun _ => True) k r c b.
Proof.
  intros H. apply is_batch_true in H. destruct H as [Hl Hb].
  split; [exact Hl|]. eapply Forall_impl; [|exact Hb].
  intros m [Hm Hrows]. split; [exact Hm|].
  eapply Forall_impl; [|exact Hrows]. intros v Hv. split; [exact Hv|].
  apply Forall_forall. auto.
Qed.

Lemma torch_roll_shape {F : Type} (r c : nat) (U0 : list (list F)) :
  is_matrix r c U0 = true -> is_matrix r c (torch_roll U0) = true.
Proof.
  intros H. apply is_matrix_true in H. destruct H as [Hl Hrows].
  apply is_matrix_true. split; [now rewrite torch_roll_length|].
  destruct U0 as [|first rest]; [constructor|]. simpl.
  apply Forall_cons_iff in Hrows. destruct Hrows as [Hf Hr].
  apply Forall_app. split; [exact Hr | now constructor].
Qed.

(** The noise of the update, [perturbed_action - U], has the shape of
    [perturbed_action]. *)
Lemma noise_shape {F : Type} {SF : Scalar F} (k r c : nat)
    (U0 : list (list F)) (pa : list (list (list F))) :
  batch_ok (fun _ => True) k r c pa -> is_matrix r c U0 = true ->
  batch_ok (fun _ => True) k r c (map (fun pk => map2 vsub pk U0) pa).
Proof.
  intros [Hl Hpa] HU. apply is_matrix_true in HU. destruct HU as [HUl HU].
  split; [now rewrite length_map|]. apply Forall_map.
  eapply Forall_impl; [|exact Hpa]. intros pk [Hpl Hrows].
  split; [rewrite map2_length; lia|].
  apply (@map2_Forall _ _ _ vsub (row_ok (fun _ => True) c)
           (fun v => length v = c)); auto.
  intros a b [Ha _] Hb. split.
  - unfold vsub. rewrite map2_length. lia.
  - apply Forall_forall. auto.
Qed.

(** The update loop keeps the shape of [U], whatever the weights. *)
Lemma update_U_shape {F : Type} {SF : Scalar F} {St : Type}
    (p : MPPIPlanner F St) (om : list F) (nse : list (list (list F)))
    (U0 : list (list F)) :
  batch_ok (fun _ => True) (K p) (T p) (nu p) nse ->
  is_matrix (T p) (nu p) U0 = true ->
  is_matrix (T p) (nu p) (update_U p om nse U0) = true.
Proof.
  intros Hn HU. apply is_matrix_true in HU. destruct HU as [HUl HU].
  set (f := fun t Ut =>
              vadd Ut (sum_dim0 (nu p) (map2 vscale om (col t nse)))).
  assert (Hfold : forall t,
    length (update_U p om nse U0) = length U0 /\
    nth t (update_U p om nse U0) []
      = if (0 <=? t)%nat && (t <? 0 + T p)%nat
        then f t (nth t U0 []) else nth t U0 []).
  { intros t. apply (@update_fold_nth F f (T p) 0 U0 t). lia. }
  apply is_matrix_true.
  split; [destruct (Hfold 0%nat) as [Hl _]; now rewrite Hl|].
  apply Forall_nth. intros t d Ht.
  destruct (Hfold t) as [Hl Hnth]. rewrite Hl, HUl in Ht.
  rewrite (nth_indep _ d []) by (rewrite Hl, HUl; exact Ht).
  rewrite Hnth.
  replace (t <? 0 + T p)%nat with true by (symmetry; apply Nat.ltb_lt; lia).
  cbn [Nat.leb andb]. unfold f.
  assert (HUt : length (nth t U0 []) = nu p).
  { apply (@Forall_nth_in _ (fun v => length v = nu p)); [exact HU | lia]. }
  unfold vadd at 1. rewrite map2_length, HUt, sum_dim0_length; [lia|].
  apply (@map2_Forall _ _ _ vscale (fun _ => True)
           (fun v => length v = nu p)).
  - intros w v _ Hv. unfold vscale. now rewrite length_map.
  - apply Forall_forall. auto.
  - destruct (@col_ok F St p (fun _ => True) t nse Ht Hn) as [_ Hcol].
    eapply Forall_impl; [|exact Hcol]. intros v [Hv _]. exact Hv.
Qed.

Lemma softmin_lengths {F : Type} {SF : Scalar F} (lam eta : F)
    (cost nz om : list F) :
  softmin lam cost = Some (nz, eta, om) ->
  length nz = length cost /\ length om = length cost.
Proof.
  unfold softmin. destruct (torch_min cost); [|discriminate].
  destruct (py_inv lam); [|discriminate].
  intros H. injection H as <- _ <-.
  unfold vscale, _ensure_non_zero. now rewrite !length_map.
Qed.

Lemma rollout_loop_lists {F : Type} {SF : Scalar F} {St : Type}
    (p : MPPIPlanner F St) (ts : list nat) :
  forall s pa cs sts acts s' pa' cs' sts' acts',
    rollout_loop p ts (s, pa, cs, sts, acts) = Some (s', pa', cs', sts', acts') ->
    length sts' = (length sts + length ts)%nat /\
    length acts' = (length acts + length ts)%nat.
Proof.
  induction ts as [|t ts IH]; intros s pa cs sts acts s' pa' cs' sts' acts' H.
  - simpl in H. injection H as _ _ _ <- <-. simpl. lia.
  - cbn [rollout_loop] in H.
    destruct (rollout_step p t (s, pa, cs, sts, acts))
      as [[[[[s1 pa1] cs1] sts1] acts1]|] eqn:Hstep; [|discriminate].
    apply IH in H. unfold rollout_step in Hstep.
    destruct (if sample_null_action p then _ else _) as [[u1 pa0]|];
      [|discriminate].
    destruct (dynamics p s u1) as [[s2 u2]|]; [|discriminate].
    destruct (running_cost p s2); [|discriminate].
    destruct (is_matrix (K p) (nu p) u2); [|discriminate].
    destruct (is_vector (K p) _); [|discriminate].
    simpl in Hstep. injection Hstep as _ _ _ <- <-.
    rewrite !length_app in H. simpl in *. lia.
Qed.

Lemma cost_batch_lists {F : Type} {SF : Scalar F} {St : Type}
    (p : MPPIPlanner F St) (s : St) (draw nse pa' : list (list (list F)))
    (cost : list F) (sts : list St) (acts : list (list (list F))) :
  _compute_total_cost_batch p s draw = Some (cost, sts, acts, nse, pa') ->
  length sts = T p /\ length acts = T p.
Proof.
  intros H. unfold _compute_total_cost_batch in H.
  destruct (negb _); [discriminate|].
  destruct (_compute_rollout_costs p s _)
    as [[[[cost0 sts0] acts0] pa0]|] eqn:Hroll; [|discriminate].
  injection H as _ <- <- _ _.
  unfold _compute_rollout_costs in Hroll.
  destruct (negb (is_batch _ _ _ _)); [discriminate|].
  destruct (negb (M p =? 1)%nat); [discriminate|].
  destruct (rollout_loop p (seq 0 (T p)) _)
    as [[[[[s' pa1] cs] sts1] acts1]|] eqn:Hloop; [|discriminate].
  apply rollout_loop_lists in Hloop. rewrite length_seq in Hloop.
  destruct (T p =? 0)%nat; [discriminate|].
  destruct (match terminal_state_cost p with Some _ => _ | None => _ end);
    [|discriminate].
  injection Hroll as _ <- <- _. rewrite !length_map. simpl in Hloop. lia.
Qed.

Lemma cost_batch_shapes {F : Type} {SF : Scalar F} {St : Type}
    (p : MPPIPlanner F St) (s : St) (draw nse pa' : list (list (list F)))
    (cost : list F) (sts : list St) (acts : list (list (list F))) :
  _compute_total_cost_batch p s draw = Some (cost, sts, acts, nse, pa') ->
  batch_ok (fun _ => True) (K p) (T p) (nu p) pa' /\
  length cost = K p /\
  nse = map (fun pk => map2 vsub pk (U p)) pa' /\
  is_matrix (T p) (nu p) (U p) = true /\ T p <> 0%nat.
Proof.
  intros H.
  apply (@cost_batch_ok F SF St p (fun _ => True)
           (fun _ _ => I) I (fun _ => I)
           (fun _ _ _ u' _ _ =>
              proj2 (Forall_forall _ u')
                (fun v _ => proj2 (Forall_forall _ v) (fun _ _ => I)))
           s draw _ _ _ _ _ H).
Qed.

(** ** The shift at the start of a cycle *)





(** A cycle that returned had a usable configuration and a draw of the
    expected shape. *)
Lemma command_some_config {F : Type} {SF : Scalar F} {St : Type}
    (lib : Library F) (p p' : MPPIPlanner F St) (s : St)
    (draw : list (list (list F))) (smp : Sampled F St) (act : Action) :
  command lib p s draw = Some (p', smp, act) ->
  K p <> 0%nat /\ T p <> 0%nat /\ M p = 1%nat /\
  struthy (lambda_ p) = true /\
  is_batch (K p) (T p) (nu p) draw = true /\
  is_matrix (T p) (nu p) (U p) = true /\
  length (cost_total smp) = K p.
Proof.
  intros H. apply command_inv in H. cbv zeta in H.
  destruct H as [Hbatch [[eta Hsm] _]].
  destruct (cost_batch_shapes _ _ _ Hbatch) as [_ [Hc [_ [_ HT]]]].
  cbn [K T nu set_U] in Hc, HT.
  assert (HK : K p <> 0%nat).
  { intros E. rewrite E in Hc. destruct (cost_total smp); [|discriminate].
    discriminate. }
  assert (Hlam : struthy (lambda_ p) = true).
  { unfold softmin in Hsm. destruct (torch_min _); [|discriminate].
    unfold py_inv in Hsm. destruct (struthy _); [reflexivity|discriminate]. }
  unfold _compute_total_cost_batch in Hbatch. cbn [K T nu U M set_U] in Hbatch.
  destruct (is_batch (K p) (T p) (nu p) draw) eqn:Hdraw; [|discriminate].
  destruct (is_matrix (T p) (nu p) (torch_roll (U p))) eqn:HU; [|discriminate].
  cbn [andb] in Hbatch.
  destruct (is_matrix (nu p) (nu p) _); [|discriminate]. cbn [negb] in Hbatch.
  unfold _compute_rollout_costs in Hbatch. cbn [K T nu U M set_U] in Hbatch.
  destruct (negb (is_batch _ _ _ _)); [discriminate|].
  destruct (M p =? 1)%nat eqn:HM; [|discriminate].
  apply Nat.eqb_eq in HM.
  repeat split; auto.
  apply is_matrix_true in HU. destruct HU as [HUl HU].
  rewrite torch_roll_length in HUl.
  apply is_matrix_true. split; [exact HUl|].
  destruct (U p) as [|first rest]; [constructor|]. simpl in HU.
  apply Forall_app in HU. destruct HU as [Hr Hf].
  apply Forall_cons_iff in Hf. constructor; tauto.
Qed.

(** X10.  The update keeps the shape of the control sequence: after a
    cycle that returns, [U] is again a [T x nu] matrix, and so is its
    roll, which the next cycle starts from. *)
Theorem command_keeps_U_shape {F : Type} {SF : Scalar F} {St : Type}
    (lib : Library F) (p p' : MPPIPlanner F St) (s : St)
    (draw : list (list (list F))) (smp : Sampled F St) (act : Action) :
  command lib p s draw = Some (p', smp, act) ->
  is_matrix (T p) (nu p) (U p) = true /\
  is_matrix (T p) (nu p) (U p') = true /\
  is_matrix (T p) (nu p) (torch_roll (U p')) = true.
Proof.
  intros H. pose proof (command_some_config _ _ _ _ H) as Hcfg.
  destruct Hcfg as [_ [_ [_ [_ [_ [HU0 _]]]]]].
  apply command_inv in H. cbv zeta in H.
  set (p1 := set_U p (torch_roll (U p))) in *.
  destruct H as [Hbatch [_ [Hp' _]]].
  destruct (cost_batch_shapes _ _ _ Hbatch) as [Hpa [_ [Hnse [HU _]]]].
  assert (HU2 : is_matrix (T p1) (nu p1)
                  (update_U p1 (omega smp) (noise smp) (torch_roll (U p)))
                = true).
  { apply update_U_shape; [|exact HU]. rewrite Hnse.
    now apply noise_shape. }
  subst p'. cbn [U set_U T nu p1] in *. split; [exact HU0|].
  split; [exact HU2 | now apply torch_roll_shape].
Qed.

Lemma command_keeps_U_shape_witness :
  let p := scalar_planner echo_dynamics 2 1 [[0]] 1 true 0 in
  exists p' smp act,
    command scalar_library p tt [[[1]]; [[1]]] = Some (p', smp, act) /\
    is_matrix (T p) (nu p) (U p) = true /\
    is_matrix (T p) (nu p) (U p') = true /\
    is_matrix (T p) (nu p) (torch_roll (U p')) = true.
Proof.
  intros p. destruct null_action_cycle as [p' [smp [v [H _]]]].
  exists p', smp, (Vector [v]). split; [exact H|].
  exact (@command_keeps_U_shape R _ unit scalar_library p p' tt _ smp _ H).
Defined.

(** X11.  The tensors a returning cycle leaves on the planner have the
    shapes the docstrings give: [cost_total], [cost_total_non_zero] and
    [omega] hold [K] numbers, [noise] and [perturbed_action] are
    [K x T x nu], [states] and [actions] hold one entry per horizon step,
    and the action is a vector of [nu] numbers when [u_per_command == 1]
    and at most [T] rows of [nu] numbers otherwise. *)
Theorem command_sample_shapes {F : Type} {SF : Scalar F} {St : Type}
    (lib : Library F) (p p' : MPPIPlanner F St) (s : St)
    (draw : list (list (list F))) (smp : Sampled F St) (act : Action) :
  command lib p s draw = Some (p', smp, act) ->
  length (cost_total smp) = K p /\
  length (cost_total_non_zero smp) = K p /\
  length (omega smp) = K p /\
  is_batch (K p) (T p) (nu p) (noise smp) = true /\
  is_batch (K p) (T p) (nu p) (perturbed_action smp) = true /\
  length (states smp) = T p /\
  length (actions smp) = T p /\
  match act with
  | Vector v => u_per_command p = 1%Z /\ length v = nu p
  | Sequence m =>
      u_per_command p <> 1%Z /\
      (length m <= T p)%nat /\ Forall (fun v => length v = nu p) m
  end.
Proof.
  intros H. pose proof (command_inv _ _ _ _ H) as Hinv. cbv zeta in Hinv.
  set (p1 := set_U p (torch_roll (U p))) in *.
  destruct Hinv as [Hbatch [[eta Hsm] [Hp' Hread]]].
  destruct (cost_batch_shapes _ _ _ Hbatch) as [Hpa [Hc [Hnse [HU _]]]].
  destruct (cost_batch_lists _ _ _ Hbatch) as [Hsts Hacts].
  destruct (softmin_lengths _ _ Hsm) as [Hnz Hom].
  assert (Hn : batch_ok (fun _ => True) (K p1) (T p1) (nu p1) (noise smp)).
  { rewrite Hnse. now apply noise_shape. }
  assert (HU2 : is_matrix (T p) (nu p) (U p') = true).
  { subst p'. cbn [U set_U].
    apply (@update_U_shape F SF St p1 (omega smp) (noise smp) _ Hn HU). }
  apply is_matrix_true in HU2. destruct HU2 as [HU2l HU2].
  cbn [K T nu set_U p1] in *.
  repeat split; try congruence.
  - now apply (@batch_ok_is_batch F (fun _ => True)).
  - now apply (@batch_ok_is_batch F (fun _ => True)).
  - unfold read_from in Hread.
    destruct (u_per_command p =? 1)%Z eqn:Hn1.
    + apply Z.eqb_eq in Hn1. destruct act as [a|m]; [|contradiction].
      destruct Hread as [rest Hpre]. split; [exact Hn1|].
      pose proof (@Forall_py_prefix _ (fun v => length v = nu p)
                    (u_per_command p) _ HU2) as Hall.
      rewrite Hpre in Hall. apply Forall_cons_iff in Hall. tauto.
    + apply Z.eqb_neq in Hn1. subst act. split; [exact Hn1|]. split.
      * unfold py_prefix. destruct (0 <=? _)%Z;
          rewrite length_firstn; lia.
      * now apply Forall_py_prefix.
Qed.

Lemma command_sample_shapes_witness :
  let p := scalar_planner echo_dynamics 2 1 [[0]] 1 true 0 in
  exists p' smp act,
    command scalar_library p tt [[[1]]; [[1]]] = Some (p', smp, act) /\
    length (cost_total smp) = K p /\
    length (cost_total_non_zero smp) = K p /\
    length (omega smp) = K p /\
    is_batch (K p) (T p) (nu p) (noise smp) = true /\
    is_batch (K p) (T p) (nu p) (perturbed_action smp) = true /\
    length (states smp) = T p /\
    length (actions smp) = T p /\
    match act with
    | Vector v => u_per_command p = 1%Z /\ length v = nu p
    | Sequence m =>
        u_per_command p <> 1%Z /\
        (length m <= T p)%nat /\ Forall (fun v => length v = nu p) m
    end.
Proof.
  intros p. destruct null_action_cycle as [p' [smp [v [H _]]]].
  exists p', smp, (Vector [v]). split; [exact H|].
  exact (@command_sample_shapes R _ unit scalar_library p p' tt _ smp _ H).
Defined.

(** X12.  [command] raises when there is nothing to plan with: no sample
    ([torch.min] of an empty tensor), an empty horizon ([torch.stack] of an
    empty list), a temperature that is zero ([1 / self.lambda_]), or a
    draw that is not [K x T x nu]. *)
Theorem command_raises_on_degenerate {F : Type} {SF : Scalar F} {St : Type}
    (lib : Library F) (p : MPPIPlanner F St) (s : St)
    (draw : list (list (list F))) :
  K p = 0%nat \/ T p = 0%nat \/ struthy (lambda_ p) = false \/
  is_batch (K p) (T p) (nu p) draw = false ->
  command lib p s draw = None.
Proof.
  intros Hbad.
  destruct (command lib p s draw) as [[[p' smp] act]|] eqn:H; [|reflexivity].
  apply command_some_config in H.
  destruct H as [HK [HT [_ [Hlam [Hdraw _]]]]].
  destruct Hbad as [E | [E | [E | E]]]; congruence.
Qed.

Lemma command_raises_on_degenerate_witness :
  command scalar_library
    (scalar_planner echo_dynamics 0 1 [[0]] 1 false 0) tt [] = None /\
  command scalar_library
    (scalar_planner echo_dynamics 1 0 [] 1 false 0) tt [[]] = None.
Proof.
  split.
  - apply (@command_raises_on_degenerate R _ unit). left. reflexivity.
  - apply (@command_raises_on_degenerate R _ unit). right. left. reflexivity.
Defined.

(** ** The update as a weighted average *)

Lemma map2_map_r {A B B' C} (f : A -> B -> C) (g : B' -> B)
    (l : list A) (l' : list B') :
  map2 f l (map g l') = map2 (fun a b => f a (g b)) l l'.
Proof.
  revert l'. induction l as [|a l IH]; intros [|b l']; simpl; auto.
  now rewrite IH.
Qed.

Lemma nth_scaled_deviation (n i : nat) (Ut : list R) (om : list R)
    (rows : list (list R)) :
  (i < n)%nat -> length Ut = n -> length om = length rows ->
  Forall (fun r => length r = n) rows ->
  map (fun v => nth i v 0) (map2 vscale om (map (fun r => vsub r Ut) rows))
  = map2 (fun w x => w * (x - nth i Ut 0)) om (map (fun r => nth i r 0) rows).
Proof.
  intros Hi HUt. revert rows.
  induction om as [|w om IH]; intros [|r rows] Hlen Hrows;
    simpl; try reflexivity; try discriminate.
  apply Forall_cons_iff in Hrows. destruct Hrows as [Hr Hrows].
  simpl in Hlen. injection Hlen as Hlen.
  rewrite (IH rows Hlen Hrows). f_equal.
  unfold vscale, vsub.
  rewrite (nth_indep _ 0 (w * 0)) by
    (rewrite length_map, map2_length; lia).
  rewrite map_nth. rewrite (nth_map2 _ _ _ 0 0 0) by lia. reflexivity.
Qed.

Lemma weighted_deviation_sum (c : R) (ws xs : list R) :
  length ws = length xs ->
  torch_sum (map2 (fun w x => w * (x - c)) ws xs)
  = torch_sum (map2 Rmult ws xs) - c * torch_sum ws.
Proof.
  unfold torch_sum. revert xs.
  induction ws as [|w ws IH]; intros [|x xs] Hlen; try discriminate.
  - simpl. unfold s0. simpl. lra.
  - simpl in Hlen. injection Hlen as Hlen. specialize (IH xs Hlen).
    simpl in *. lra.
Qed.

(** One row of the update with weights that sum to one: the old row
    cancels, what is left is the weighted sum of the sampled rows. *)
Lemma weighted_row (n i : nat) (Ut : list R) (om : list R)
    (rows : list (list R)) :
  torch_sum om = 1 -> length om = length rows ->
  Forall (fun r => length r = n) rows -> length Ut = n -> (i < n)%nat ->
  nth i (vadd Ut (sum_dim0 n (map2 vscale om (map (fun r => vsub r Ut) rows))))
      0
  = torch_sum (map2 (fun w r => w * nth i r 0) om rows).
Proof.
  intros Hsum Hlen Hrows HUt Hi.
  assert (Hshape : Forall (fun v => length v = n)
            (map2 vscale om (map (fun r => vsub r Ut) rows))).
  { apply (@map2_Forall _ _ _ vscale (fun _ => True)
             (fun v => length v = n)).
    - intros w v _ Hv. unfold vscale. now rewrite length_map.
    - apply Forall_forall. auto.
    - apply Forall_map. eapply Forall_impl; [|exact Hrows].
      intros r Hr. unfold vsub. rewrite map2_length.
      cbv beta in Hr. lia. }
  unfold vadd. rewrite (nth_map2 _ _ _ 0 0 0);
    [| lia | rewrite sum_dim0_length; auto].
  rewrite nth_sum_dim0 by auto.
  rewrite (@nth_scaled_deviation n) by auto.
  rewrite weighted_deviation_sum by (now rewrite length_map).
  rewrite Hsum, map2_map_r. simpl. lra.
Qed.

(** X13.  Over the reals, every entry of the control sequence a cycle
    leaves is the weighted average, with the weights [omega], of that
    entry over the trajectories in [perturbed_action]: the rolled [U]
    enters the new one only through the samples. *)
Theorem command_U_weighted_average {St : Type} (lib : Library R)
    (p p' : MPPIPlanner R St) (s : St) (draw : list (list (list R)))
    (smp : Sampled R St) (act : Action) (t i : nat) :
  command lib p s draw = Some (p', smp, act) ->
  (t < T p)%nat -> (i < nu p)%nat ->
  nth i (nth t (U p') []) 0
  = torch_sum (map2 (fun w traj => w * nth i (nth t traj []) 0)
                 (omega smp) (perturbed_action smp)).
Proof.
  intros H Ht Hi. apply command_inv in H. cbv zeta in H.
  set (p1 := set_U p (torch_roll (U p))) in *.
  destruct H as [Hbatch [[eta Hsm] [Hp' _]]].
  destruct (cost_batch_shapes _ _ _ Hbatch) as [Hpa [Hc [Hnse [HU _]]]].
  destruct (@softmin_some_distribution _ _ _ _ _ Hsm) as [Hom [_ Hsum]].
  subst p'. cbn [U set_U]. change (U p1) with (torch_roll (U p)) in *.
  cbn [K T nu set_U p1] in *.
  apply is_matrix_true in HU. destruct HU as [HUl HU].
  set (U1 := torch_roll (U p)) in *.
  set (f := fun t Ut =>
              vadd Ut (sum_dim0 (nu p)
                         (map2 vscale (omega smp) (col t (noise smp))))).
  destruct (@update_fold_nth R f (T p) 0 U1 t) as [_ Hn]; [lia|].
  cbv zeta in Hn.
  change (nth t (update_U p1 (omega smp) (noise smp) U1) []
          = if (0 <=? t)%nat && (t <? 0 + T p)%nat
            then f t (nth t U1 []) else nth t U1 []) in Hn.
  rewrite Hn.
  replace (t <? 0 + T p)%nat with true by (symmetry; apply Nat.ltb_lt; lia).
  cbn [Nat.leb andb]. unfold f.
  assert (Hcol : col t (noise smp)
                 = map (fun r => vsub r (nth t U1 []))
                       (col t (perturbed_action smp))).
  { rewrite Hnse. unfold col. rewrite !map_map. apply map_ext_in.
    intros pk Hpk. destruct Hpa as [_ Hpa]. rewrite Forall_forall in Hpa.
    destruct (Hpa pk Hpk) as [Hpl _].
    apply (nth_map2 vsub pk U1 [] [] []); lia. }
  rewrite Hcol.
  destruct (@col_ok R St p1 (fun _ => True) t (perturbed_action smp) Ht Hpa)
    as [Hcl Hrows].
  cbn [K nu set_U p1] in Hcl, Hrows.
  rewrite (@weighted_row (nu p)); auto.
  - unfold col. now rewrite map2_map_r.
  - lia.
  - eapply Forall_impl; [|exact Hrows]. intros v [Hv _]. exact Hv.
  - apply (@Forall_nth_in _ (fun v => length v = nu p)); [exact HU | lia].
Qed.

Lemma command_U_weighted_average_witness :
  let p := scalar_planner echo_dynamics 2 1 [[0]] 1 true 0 in
  exists p' smp act,
    command scalar_library p tt [[[1]]; [[1]]] = Some (p', smp, act) /\
    nth 0 (nth 0 (U p') []) 0
    = torch_sum (map2 (fun w traj => w * nth 0 (nth 0 traj []) 0)
                   (omega smp) (perturbed_action smp)).
Proof.
  intros p. destruct null_action_cycle as [p' [smp [v [H _]]]].
  exists p', smp, (Vector [v]). split; [exact H|].
  apply (@command_U_weighted_average unit scalar_library p p' tt _ smp _
           0%nat 0%nat H); simpl; lia.
Defined.

(** ** A constant added to the running cost *)

Lemma map2_map_l {A A' B C} (f : A -> B -> C) (g : A' -> A)
    (l : list A') (l' : list B) :
  map2 f (map g l) l' = map2 (fun a b => f (g a) b) l l'.
Proof.
  revert l'. induction l as [|a l IH]; intros [|b l']; simpl; auto.
  now rewrite IH.
Qed.

Lemma map_map2 {A B C D} (f : A -> B -> C) (g : C -> D)
    (l : list A) (l' : list B) :
  map g (map2 f l l') = map2 (fun a b => g (f a b)) l l'.
Proof.
  revert l'. induction l as [|a l IH]; intros [|b l']; simpl; auto.
  now rewrite IH.
Qed.

Lemma map2_ext {A B C} (f g : A -> B -> C) (l : list A) (l' : list B) :
  (forall a b, f a b = g a b) -> map2 f l l' = map2 g l l'.
Proof.
  intros H. revert l'. induction l as [|a l IH]; intros [|b l']; simpl; auto.
  now rewrite H, IH.
Qed.

Lemma vadd_offsets (d c : R) (cs cc : list R) :
  vadd (map (fun x => x + d) cs) (map (fun x => x + c) cc)
  = map (fun x => x + (d + c)) (vadd cs cc).
Proof.
  unfold vadd. rewrite map2_map_l, map2_map_r, map_map2.
  apply map2_ext. intros a b. simpl. lra.
Qed.

Lemma vadd_offset_l (d : R) (cs cc : list R) :
  vadd (map (fun x => x + d) cs) cc = map (fun x => x + d) (vadd cs cc).
Proof.
  unfold vadd. rewrite map2_map_l, map_map2.
  apply map2_ext. intros a b. simpl. lra.
Qed.

Lemma vadd_offset_r (d : R) (cs cc : list R) :
  vadd cs (map (fun x => x + d) cc) = map (fun x => x + d) (vadd cs cc).
Proof.
  unfold vadd. rewrite map2_map_r, map_map2.
  apply map2_ext. intros a b. simpl. lra.
Qed.

Lemma rollout_step_offset {St : Type} (p : MPPIPlanner R St) (c d : R)
    (t : nat) (s : St) (pa : list (list (list R))) (cs : list R)
    (sts : list St) (acts : list (list (list R))) :
  rollout_step (set_running_cost p (offset_cost (running_cost p) c)) t
    (s, pa, map (fun x => x + d) cs, sts, acts)
  = match rollout_step p t (s, pa, cs, sts, acts) with
    | Some (s1, pa1, cs1, sts1, acts1) =>
        Some (s1, pa1, map (fun x => x + (d + c)) cs1, sts1, acts1)
    | None => None
    end.
Proof.
  unfold rollout_step.
  cbn [set_running_cost u_scale sample_null_action K nu dynamics
       running_cost].
  destruct (if sample_null_action p then _ else _) as [[u1 pa1]|];
    [|reflexivity].
  destruct (dynamics p s u1) as [[s2 u2]|]; [|reflexivity].
  unfold offset_cost.
  destruct (running_cost p s2) as [cc|]; [|reflexivity].
  cbn [option_map].
  destruct (is_matrix (K p) (nu p) u2); [|reflexivity]. cbn [negb].
  unfold is_vector. rewrite length_map.
  destruct (length cc =? K p)%nat; [|reflexivity]. cbn [negb].
  change (fun x : R => sadd x c) with (fun x : R => x + c).
  now rewrite vadd_offsets.
Qed.

Lemma rollout_loop_offset {St : Type} (p : MPPIPlanner R St) (c : R)
    (ts : list nat) :
  forall (d : R) (s : St) (pa : list (list (list R))) (cs : list R)
         (sts : list St) (acts : list (list (list R))),
  rollout_loop (set_running_cost p (offset_cost (running_cost p) c)) ts
    (s, pa, map (fun x => x + d) cs, sts, acts)
  = match rollout_loop p ts (s, pa, cs, sts, acts) with
    | Some (s1, pa1, cs1, sts1, acts1) =>
        Some (s1, pa1, map (fun x => x + (d + INR (length ts) * c)) cs1,
              sts1, acts1)
    | None => None
    end.
Proof.
  induction ts as [|t ts IH]; intros d s pa cs sts acts.
  - cbn [rollout_loop length INR]. f_equal. f_equal. f_equal. f_equal.
    apply map_ext. intros x. lra.
  - cbn [rollout_loop]. rewrite rollout_step_offset.
    destruct (rollout_step p t (s, pa, cs, sts, acts))
      as [[[[[s1 pa1] cs1] sts1] acts1]|]; [|reflexivity].
    rewrite IH.
    destruct (rollout_loop p ts (s1, pa1, cs1, sts1, acts1))
      as [[[[[s2 pa2] cs2] sts2] acts2]|]; [|reflexivity].
    f_equal. f_equal. f_equal. f_equal.
    apply map_ext. intros x. change (length (t :: ts)) with (S (length ts)).
    rewrite S_INR. lra.
Qed.

Lemma rollout_costs_offset {St : Type} (p : MPPIPlanner R St) (c : R)
    (s : St) (pa : list (list (list R))) :
  _compute_rollout_costs
    (set_running_cost p (offset_cost (running_cost p) c)) s pa
  = match _compute_rollout_costs p s pa with
    | Some (cost, sts, acts, pa') =>
        Some (map (fun x => x + INR (T p) * c) cost, sts, acts, pa')
    | None => None
    end.
Proof.
  unfold _compute_rollout_costs.
  cbn [set_running_cost K T nu M terminal_state_cost rollout_var_cost].
  destruct (negb (is_batch (K p) (T p) (nu p) pa)); [reflexivity|].
  destruct (negb (M p =? 1)%nat); [reflexivity|].
  replace (zeros (K p)) with (map (fun x => x + 0) (zeros (K p))) at 1
    by (rewrite <- (map_id (zeros (K p))) at 2; apply map_ext; intros; lra).
  rewrite rollout_loop_offset, length_seq.
  destruct (rollout_loop p (seq 0 (T p)) _)
    as [[[[[s1 pa1] cs1] sts1] acts1]|]; [|reflexivity].
  destruct (T p =? 0)%nat; [reflexivity|].
  replace (map (fun x => x + (0 + INR (T p) * c)) cs1)
    with (map (fun x => x + INR (T p) * c) cs1)
    by (apply map_ext; intros; lra).
  destruct (terminal_state_cost p) as [terminal|].
  - destruct (terminal sts1 acts1) as [tc|]; [|reflexivity].
    unfold is_vector. destruct (length tc =? K p)%nat; [|reflexivity].
    now rewrite vadd_offset_l, vadd_offset_r, vadd_offset_l.
  - now rewrite vadd_offset_r, vadd_offset_l.
Qed.

Lemma cost_batch_offset {St : Type} (p : MPPIPlanner R St) (c : R)
    (s : St) (draw : list (list (list R))) :
  _compute_total_cost_batch
    (set_running_cost p (offset_cost (running_cost p) c)) s draw
  = match _compute_total_cost_batch p s draw with
    | Some (cost, sts, acts, nse, pa') =>
        Some (map (fun x => x + INR (T p) * c) cost, sts, acts, nse, pa')
    | None => None
    end.
Proof.
  unfold _compute_total_cost_batch.
  change (_bound_action (set_running_cost p (offset_cost (running_cost p) c)))
    with (_bound_action p).
  cbn [set_running_cost K T nu U noise_sigma_inv u_scale noise_abs_cost
       lambda_].
  destruct (negb _); [reflexivity|].
  rewrite rollout_costs_offset.
  destruct (_compute_rollout_costs p s _)
    as [[[[cost sts] acts] pa']|]; [|reflexivity].
  now rewrite vadd_offset_l.
Qed.

(** The softmin step sees cost differences only. *)
Lemma softmin_offset (lam d : R) (cost : list R) :
  softmin lam (map (fun x => x + d) cost) = softmin lam cost.
Proof.
  destruct cost as [|x rest]; [reflexivity|].
  unfold softmin, torch_min. cbn [map].
  change (fold_left smin) with (fold_left Rmin). rewrite fold_min_shift.
  destruct (py_inv lam) as [factor|]; [|reflexivity].
  replace (_ensure_non_zero ((x + d) :: map (fun y => y + d) rest)
             (fold_left Rmin rest x + d) factor)
    with (_ensure_non_zero (x :: rest) (fold_left Rmin rest x) factor);
    [reflexivity|].
  unfold _ensure_non_zero.
  change ((x + d) :: map (fun y => y + d) rest)
    with (map (fun y => y + d) (x :: rest)).
  rewrite map_map. apply map_ext. intros y. simpl. f_equal. lra.
Qed.

(** X14.  Over the reals, raising the running cost by the same number
    [c] for every sample at every step changes nothing of what a cycle
    plans: it raises and returns on the same inputs, and when it returns
    the weights, the samples, the new [U] and the action are the same;
    only [cost_total] is higher, by [T * c].  The filter is left out of
    the comparison when the null action is sampled, as the sequence it is
    handed then depends on the sign of the last cost. *)
Theorem command_cost_offset {St : Type} (lib : Library R)
    (p : MPPIPlanner R St) (c : R) (s : St) (draw : list (list (list R))) :
  filter_u p && sample_null_action p = false ->
  command lib (set_running_cost p (offset_cost (running_cost p) c)) s draw
  = match command lib p s draw with
    | Some (p', smp, act) =>
        Some (set_running_cost p' (offset_cost (running_cost p) c),
              set_cost_total smp
                (map (fun x => x + INR (T p) * c) (cost_total smp)),
              act)
    | None => None
    end.
Proof.
  intros Hdead. unfold command.
  change (set_U (set_running_cost p (offset_cost (running_cost p) c))
            (torch_roll
               (U (set_running_cost p (offset_cost (running_cost p) c)))))
    with (set_running_cost (set_U p (torch_roll (U p)))
            (offset_cost (running_cost (set_U p (torch_roll (U p)))) c)).
  set (p1 := set_U p (torch_roll (U p))).
  rewrite cost_batch_offset.
  destruct (_compute_total_cost_batch p1 s draw)
    as [[[[[cost sts] acts] nse] pa]|]; [|reflexivity].
  cbn [set_running_cost lambda_ U filter_u sample_null_action T
       u_per_command].
  change (T p1) with (T p). rewrite softmin_offset.
  destruct (softmin (lambda_ p1) cost) as [[[nz eta] om]|]; [|reflexivity].
  change (update_U (set_running_cost p1 (offset_cost (running_cost p1) c)))
    with (update_U p1).
  change (filter_u p1) with (filter_u p).
  change (sample_null_action p1) with (sample_null_action p).
  destruct (filter_u p) eqn:Hf.
  - destruct (sample_null_action p); [discriminate|]. cbn [andb].
    destruct (savgol_filter lib _ (T p) 2); [|reflexivity].
    destruct (u_per_command p1 =? 1)%Z.
    + destruct (py_prefix _ _); reflexivity.
    + reflexivity.
  - destruct (u_per_command p1 =? 1)%Z.
    + destruct (py_prefix _ _); reflexivity.
    + reflexivity.
Qed.

Lemma command_cost_offset_witness :
  let p := scalar_planner echo_dynamics 2 1 [[0]] 1 true 0 in
  command scalar_library
    (set_running_cost p (offset_cost (running_cost p) 3)) tt
    [[[1]]; [[1]]]
  = match command scalar_library p tt [[[1]]; [[1]]] with
    | Some (p', smp, act) =>
        Some (set_running_cost p' (offset_cost (running_cost p) 3),
              set_cost_total smp
                (map (fun x => x + INR (T p) * 3) (cost_total smp)),
              act)
    | None => None
    end.
Proof.
  intros p.
  apply (@command_cost_offset unit scalar_library p 3 tt [[[1]]; [[1]]]).
  reflexivity.
Defined.

(** ** The null-action sample *)

Lemma zeros_like_zeros {F : Type} {SF : Scalar F} (v : list F) :
  zeros_like v = zeros (length v).
Proof.
  unfold zeros_like, zeros. induction v as [|a v IH]; simpl; [reflexivity|].
  now rewrite IH.
Qed.

Lemma rollout_step_shape {F : Type} {SF : Scalar F} {St : Type}
    (p : MPPIPlanner F St) (t : nat) (acc acc' : LoopState (F := F) St) :
  (t < T p)%nat -> loop_ok (fun _ => True) p acc ->
  rollout_step p t acc = Some acc' -> loop_ok (fun _ => True) p acc'.
Proof.
  intros Ht Hok Hstep.
  eapply (@rollout_step_ok F SF St p (fun _ => True)); eauto.
  intros s u s' u' _ _. apply Forall_forall. intros v _.
  apply Forall_forall. auto.
Qed.

Section NullSample.
Context {F : Type} {SF : Scalar F}.
Variable St : Type.
Variable p : MPPIPlanner F St.
Hypothesis null : sample_null_action p = true.
Hypothesis echo : forall s u s' u',
  dynamics p s u = Some (s', u') -> u' = u.

(** One horizon step writes the zero row at its own place of the last
    trajectory and leaves the other rows of that trajectory alone. *)
Lemma rollout_step_null_row (t : nat) (s s' : St)
    (pa pa' : list (list (list F))) (cs cs' : list F) (sts sts' : list St)
    (acts acts' : list (list (list F))) :
  (t < T p)%nat -> loop_ok (fun _ => True) p (s, pa, cs, sts, acts) ->
  rollout_step p t (s, pa, cs, sts, acts) = Some (s', pa', cs', sts', acts') ->
  nth t (nth (K p - 1) pa' []) [] = zeros (nu p) /\
  forall t', t' <> t ->
    nth t' (nth (K p - 1) pa' []) [] = nth t' (nth (K p - 1) pa []) [].
Proof.
  intros Ht [Hpa Hcs] Hstep.
  destruct (@col_ok F St p (fun _ => True) t pa Ht Hpa) as [Hcl Hcol].
  destruct Hpa as [Hpl Hpa].
  unfold rollout_step in Hstep. rewrite null in Hstep.
  destruct (K p) as [|k] eqn:HK; [discriminate|].
  replace (S k - 1)%nat with k by lia.
  set (u := map (vscale (u_scale p)) (col t pa)) in *.
  assert (Hul : length u = S k) by (unfold u; now rewrite length_map).
  assert (Hz : zeros_like (nth k u []) = zeros (nu p)).
  { rewrite zeros_like_zeros. f_equal.
    assert (Hrows : Forall (fun v => length v = nu p) u).
    { unfold u. apply Forall_map. eapply Forall_impl; [|exact Hcol].
      intros v [Hv _]. unfold vscale. now rewrite length_map. }
    apply (@Forall_nth_in _ (fun v => length v = nu p)); [exact Hrows | lia]. }
  rewrite Hz in Hstep.
  destruct (dynamics p s (upd k (zeros (nu p)) u)) as [[s2 u2]|] eqn:Hdyn;
    [|discriminate].
  apply echo in Hdyn. subst u2.
  destruct (running_cost p s2); [|discriminate].
  destruct (is_matrix (S k) (nu p) _); [|discriminate].
  destruct (is_vector (S k) _); [|discriminate].
  cbn [negb] in Hstep. injection Hstep as _ <- _ _ _.
  assert (Htraj : length (nth k pa []) = T p).
  { apply (@Forall_nth_in _ (fun m => length m = T p)); [|lia].
    eapply Forall_impl; [|exact Hpa]. intros m [Hm _]. exact Hm. }
  unfold set_col.
  rewrite (nth_map2 _ _ _ [] [] []) by (rewrite upd_length; lia).
  rewrite (@nth_upd_same (list F) k _ [] u) by lia.
  rewrite (@nth_upd_same (list (list F)) k _ [] pa) by lia.
  split.
  - apply nth_upd_same. rewrite upd_length. lia.
  - intros t' Hne. rewrite !nth_upd_other by auto. reflexivity.
Qed.

Lemma rollout_loop_null_rows (m : nat) :
  forall (n : nat) (s s' : St) (pa pa' : list (list (list F)))
         (cs cs' : list F) (sts sts' : list St)
         (acts acts' : list (list (list F))),
  (n + m <= T p)%nat -> loop_ok (fun _ => True) p (s, pa, cs, sts, acts) ->
  rollout_loop p (seq n m) (s, pa, cs, sts, acts)
    = Some (s', pa', cs', sts', acts') ->
  (forall t, (t < n)%nat -> nth t (nth (K p - 1) pa []) [] = zeros (nu p)) ->
  forall t, (t < n + m)%nat ->
    nth t (nth (K p - 1) pa' []) [] = zeros (nu p).
Proof.
  induction m as [|m IH];
    intros n s s' pa pa' cs cs' sts sts' acts acts' Hn Hok Hloop Hinv t Ht.
  - cbn [seq rollout_loop] in Hloop. injection Hloop as _ <- _ _ _.
    apply Hinv. lia.
  - cbn [seq rollout_loop] in Hloop.
    destruct (rollout_step p n (s, pa, cs, sts, acts))
      as [[[[[s1 pa1] cs1] sts1] acts1]|] eqn:Hstep; [|discriminate].
    assert (Hn' : (n < T p)%nat) by lia.
    pose proof (@rollout_step_shape _ _ _ _ _ _ _ Hn' Hok Hstep) as Hok1.
    destruct (rollout_step_null_row Hn' Hok Hstep) as [Hrow Hother].
    apply (IH (S n) _ _ _ _ _ _ _ _ _ _ ltac:(lia) Hok1 Hloop); [|lia].
    intros t' Ht'. destruct (Nat.eq_dec t' n) as [->|Hne]; [exact Hrow|].
    rewrite Hother by exact Hne. apply Hinv. lia.
Qed.

End NullSample.

(** X15.  With [sample_null_action] and a dynamics that hands the action
    back as it came (as the wrapper's [dynamics] does), the last
    trajectory of [perturbed_action] after a cycle is zero at every step
    and in every action dimension. *)
Theorem command_null_sample_zero {F : Type} {SF : Scalar F} {St : Type}
    (lib : Library F) (p p' : MPPIPlanner F St) (s : St)
    (draw : list (list (list F))) (smp : Sampled F St) (act : Action) :
  sample_null_action p = true ->
  (forall s u s' u', dynamics p s u = Some (s', u') -> u' = u) ->
  command lib p s draw = Some (p', smp, act) ->
  nth (K p - 1) (perturbed_action smp) [] = repeat (zeros (nu p)) (T p).
Proof.
  intros Hnull Hecho H. pose proof (command_some_config _ _ _ _ H) as Hcfg.
  destruct Hcfg as [HK _].
  apply command_inv in H. cbv zeta in H.
  set (p1 := set_U p (torch_roll (U p))) in *.
  destruct H as [Hbatch _].
  destruct (cost_batch_shapes _ _ _ Hbatch) as [Hpa' _].
  unfold _compute_total_cost_batch in Hbatch.
  destruct (is_batch (K p1) (T p1) (nu p1) draw) eqn:Hdraw; [|discriminate].
  destruct (is_matrix (T p1) (nu p1) (U p1)) eqn:HU; [|discriminate].
  destruct (is_matrix (nu p1) (nu p1) (noise_sigma_inv p1)); [|discriminate].
  cbn [andb negb] in Hbatch.
  set (pa0 := _bound_action p1 (map (fun nk => map2 vadd (U p1) nk) draw))
    in *.
  assert (Hpa0 : batch_ok (fun _ => True) (K p1) (T p1) (nu p1) pa0).
  { apply is_batch_batch_ok.
    apply (@batch_ok_is_batch F (fun _ => True)).
    apply (@bound_action_ok F SF St p1 (fun _ => True) (fun _ => I) draw
             Hdraw HU). }
  destruct (_compute_rollout_costs p1 s pa0)
    as [[[[cost0 sts0] acts0] pa1]|] eqn:Hroll; [|discriminate].
  injection Hbatch as _ _ _ _ Hpa1.
  unfold _compute_rollout_costs in Hroll.
  destruct (negb (is_batch _ _ _ pa0)); [discriminate|].
  destruct (negb (M p1 =? 1)%nat); [discriminate|].
  destruct (rollout_loop p1 (seq 0 (T p1)) (s, pa0, zeros (K p1), [], []))
    as [[[[[s' pa2] cs] sts1] acts1]|] eqn:Hloop; [|discriminate].
  destruct (T p1 =? 0)%nat; [discriminate|].
  destruct (match terminal_state_cost p1 with Some _ => _ | None => _ end);
    [|discriminate].
  injection Hroll as _ _ _ Hpa2. subst pa2. rewrite Hpa1 in Hloop.
  assert (Hrows : forall t, (t < 0 + T p1)%nat ->
            nth t (nth (K p1 - 1) (perturbed_action smp) []) []
            = zeros (nu p1)).
  { apply (@rollout_loop_null_rows F SF St p1 Hnull Hecho (T p1) 0%nat
             s s' pa0 (perturbed_action smp) (zeros (K p1)) cs [] sts1
             [] acts1).
    - lia.
    - split; [exact Hpa0|]. unfold zeros. apply repeat_length.
    - exact Hloop.
    - intros t Ht. lia. }
  cbn [K T nu set_U p1] in *.
  destruct Hpa' as [Hl Hall].
  assert (Htraj : length (nth (K p - 1) (perturbed_action smp) []) = T p).
  { apply (@Forall_nth_in _ (fun m => length m = T p)); [|lia].
    eapply Forall_impl; [|exact Hall]. intros m [Hm _]. exact Hm. }
  apply (nth_ext _ _ [] []).
  - now rewrite repeat_length.
  - intros t Ht. rewrite Htraj in Ht. rewrite Hrows by lia.
    symmetry. apply nth_repeat_lt. exact Ht.
Qed.

Lemma command_null_sample_zero_witness :
  let p := scalar_planner echo_dynamics 2 1 [[0]] 1 true 0 in
  exists p' smp act,
    command scalar_library p tt [[[1]]; [[1]]] = Some (p', smp, act) /\
    nth (K p - 1) (perturbed_action smp) [] = repeat (zeros (nu p)) (T p).
Proof.
  intros p. destruct null_action_cycle as [p' [smp [v [H _]]]].
  exists p', smp, (Vector [v]). split; [exact H|].
  apply (@command_null_sample_zero R _ unit scalar_library p p' tt
           [[[1]]; [[1]]] smp (Vector [v])); [reflexivity | | exact H].
  intros s u s' u' E. unfold p in E. simpl in E. unfold echo_dynamics in E.
  injection E as _ <-. reflexivity.
Defined.

(** ** What the constructor builds *)

Lemma is_square_matrix {F : Type} (m : list (list F)) :
  is_square m = true ->
  m <> [] /\ is_matrix (length m) (length m) m = true.
Proof.
  unfold is_square. destruct m as [|row rest]; [discriminate|].
  intros H. split; [discriminate|]. apply is_matrix_true.
  split; [reflexivity|]. apply Forall_forall. intros v Hv.
  rewrite forallb_forall in H. apply Nat.eqb_eq. now apply H.
Qed.

Lemma init_inv {F : Type} {SF : Scalar F} {St : Type} (lib : Library F)
    (cfg : MPPIConfig F) (nx0 : nat)
    (dyn : St -> list (list F) -> option (St * list (list F)))
    (cost : St -> option (list F)) (p : MPPIPlanner F St) :
  __init__ lib cfg nx0 dyn cost = Some p ->
  let sigma := or_default (cfg_noise_sigma cfg) (identity (Nat.div nx0 2)) in
  let mu := or_default (cfg_noise_mu cfg) (repeat s0 (length sigma)) in
  let U0 := or_default (cfg_U_init cfg)
              (repeat (repeat s0 (length mu)) (cfg_horizon cfg)) in
  is_square sigma = true /\
  sltb s0 (u_max p) = true /\ sltb (u_min p) s0 = true /\
  noise_sigma p = sigma /\ noise_mu p = mu /\ U p = U0 /\
  nu p = length sigma /\ K p = cfg_num_samples cfg /\
  T p = cfg_horizon cfg /\ dynamics p = dyn /\ running_cost p = cost /\
  terminal_state_cost p = None.
Proof.
  intros H. cbv zeta. unfold __init__ in H.
  destruct (negb (rows_same_length _)); [discriminate|].
  match type of H with
  | context [negb (sltb s0 ?a && sltb ?b s0)] =>
      destruct (sltb s0 a) eqn:Hmax; [|discriminate];
      destruct (sltb b s0) eqn:Hmin; [|discriminate]
  end.
  cbn [andb negb] in H. unfold torch_inverse in H.
  destruct (is_square _) eqn:Hsq; [|discriminate].
  destruct (inverse_values lib _); [|discriminate].
  destruct (negb (is_symmetric _)); [discriminate|].
  destruct (negb (mvn_valid lib _ _)); [discriminate|].
  destruct (negb (rows_same_length _)); [discriminate|].
  injection H as <-. cbn [u_max u_min noise_sigma noise_mu U nu K T dynamics
                          running_cost terminal_state_cost].
  repeat split; auto.
Qed.

(** X16.  A planner that [__init__] built has a strictly negative lower
    and a strictly positive upper bound, has at least one action
    dimension, a square [nu x nu] covariance, no terminal cost, and the
    collaborators and the counts of the configuration. *)
Theorem init_builds {St : Type} (lib : Library R) (cfg : MPPIConfig R)
    (nx0 : nat) (dyn : St -> list (list R) -> option (St * list (list R)))
    (cost : St -> option (list R)) (p : MPPIPlanner R St) :
  __init__ lib cfg nx0 dyn cost = Some p ->
  u_min p < 0 < u_max p /\
  nu p <> 0%nat /\
  is_matrix (nu p) (nu p) (noise_sigma p) = true /\
  K p = cfg_num_samples cfg /\ T p = cfg_horizon cfg /\
  dynamics p = dyn /\ running_cost p = cost /\
  terminal_state_cost p = None.
Proof.
  intros H. apply init_inv in H. cbv zeta in H.
  destruct H as [Hsq [Hmax [Hmin [Hs [_ [_ [Hnu [HK [HT [Hd [Hc Ht]]]]]]]]]]].
  apply is_square_matrix in Hsq. destruct Hsq as [Hne Hm].
  simpl in Hmax, Hmin. unfold Rltb in Hmax, Hmin.
  destruct (Rlt_dec 0 (u_max p)); [|discriminate].
  destruct (Rlt_dec (u_min p) 0); [|discriminate].
  rewrite Hs, Hnu. repeat split; auto.
  intros E. apply Hne. now apply length_zero_iff_nil.
Qed.

Lemma init_builds_witness :
  exists p : MPPIPlanner R unit,
    __init__ scalar_library (scalar_config (-1) 1) 2 echo_dynamics
      (flat_cost 1 0) = Some p /\
    u_min p < 0 < u_max p /\
    nu p <> 0%nat /\
    is_matrix (nu p) (nu p) (noise_sigma p) = true /\
    K p = cfg_num_samples (scalar_config (-1) 1) /\
    T p = cfg_horizon (scalar_config (-1) 1) /\
    dynamics p = echo_dynamics /\ running_cost p = flat_cost 1 0 /\
    terminal_state_cost p = None.
Proof.
  destruct (@init_accepts unit scalar_library (scalar_config (-1) 1) 2
              echo_dynamics (flat_cost 1 0)) as [p [Hp _]].
  - reflexivity.
  - simpl. rewrite Rtruthy_true by lra. discriminate.
  - apply is_symmetric_scalar.
  - simpl. apply Rltb_true. lra.
  - reflexivity.
  - simpl. intros [H|[H|[H _]]]; lra.
  - exists p. split; [exact Hp|].
    exact (@init_builds unit scalar_library _ 2 _ _ p Hp).
Defined.

(** X17.  When the configuration gives neither [noise_mu] nor [U_init]
    (or gives them empty), the planner starts from the zero mean and the
    zero control sequence of [T] rows of [nu] entries: [U] has the shape
    the first [command] asks for. *)
Theorem init_default_sequence {F : Type} {SF : Scalar F} {St : Type}
    (lib : Library F) (cfg : MPPIConfig F) (nx0 : nat)
    (dyn : St -> list (list F) -> option (St * list (list F)))
    (cost : St -> option (list F)) (p : MPPIPlanner F St) :
  cfg_noise_mu cfg = None \/ cfg_noise_mu cfg = Some [] ->
  cfg_U_init cfg = None \/ cfg_U_init cfg = Some [] ->
  __init__ lib cfg nx0 dyn cost = Some p ->
  noise_mu p = zeros (nu p) /\
  U p = repeat (zeros (nu p)) (T p) /\
  is_matrix (T p) (nu p) (U p) = true.
Proof.
  intros Hmu HU H. apply init_inv in H. cbv zeta in H.
  destruct H as [_ [_ [_ [_ [Hm [HU0 [Hnu [_ [HT _]]]]]]]]].
  assert (Emu : noise_mu p = zeros (nu p)).
  { rewrite Hm, Hnu. destruct Hmu as [-> | ->]; reflexivity. }
  assert (EU : U p = repeat (zeros (nu p)) (T p)).
  { rewrite HU0, HT. rewrite <- Hm, Emu.
    unfold zeros at 1. rewrite repeat_length.
    destruct HU as [-> | ->]; reflexivity. }
  split; [exact Emu|]. split; [exact EU|].
  rewrite EU. apply is_matrix_true. split; [apply repeat_length|].
  apply Forall_forall. intros v Hv. apply repeat_spec in Hv. subst v.
  apply repeat_length.
Qed.

Lemma init_default_sequence_witness :
  exists p : MPPIPlanner R unit,
    __init__ scalar_library (scalar_config (-1) 1) 2 echo_dynamics
      (flat_cost 1 0) = Some p /\
    noise_mu p = zeros (nu p) /\
    U p = repeat (zeros (nu p)) (T p) /\
    is_matrix (T p) (nu p) (U p) = true.
Proof.
  destruct (@init_accepts unit scalar_library (scalar_config (-1) 1) 2
              echo_dynamics (flat_cost 1 0)) as [p [Hp _]].
  - reflexivity.
  - simpl. rewrite Rtruthy_true by lra. discriminate.
  - apply is_symmetric_scalar.
  - simpl. apply Rltb_true. lra.
  - reflexivity.
  - simpl. intros [H|[H|[H _]]]; lra.
  - exists p. split; [exact Hp|].
    apply (@init_default_sequence R _ unit scalar_library
             (scalar_config (-1) 1) 2 echo_dynamics (flat_cost 1 0) p);
      [left; reflexivity | left; reflexivity | exact Hp].
Defined.

(** ** What an echoing dynamics leaves in [perturbed_action] *)

Section EchoSamples.
Context {F : Type} {SF : Scalar F}.
Variable St : Type.
Variable p : MPPIPlanner F St.
Hypothesis echo : forall s u s' u',
  dynamics p s u = Some (s', u') -> u' = u.

(** One horizon step scales its own row of every trajectory but the
    null-action one and leaves the other rows alone. *)
Lemma rollout_step_echo_rows (t : nat) (s s' : St)
    (pa pa' : list (list (list F))) (cs cs' : list F) (sts sts' : list St)
    (acts acts' : list (list (list F))) (k : nat) :
  (t < T p)%nat -> loop_ok (fun _ => True) p (s, pa, cs, sts, acts) ->
  rollout_step p t (s, pa, cs, sts, acts) = Some (s', pa', cs', sts', acts') ->
  (k < K p)%nat ->
  sample_null_action p = false \/ k <> (K p - 1)%nat ->
  nth t (nth k pa' []) [] = vscale (u_scale p) (nth t (nth k pa []) []) /\
  forall t', t' <> t -> nth t' (nth k pa' []) [] = nth t' (nth k pa []) [].
Proof.
  intros Ht [Hpa Hcs] Hstep Hk Hcond.
  destruct Hpa as [Hpl Hpa].
  assert (Htraj : length (nth k pa []) = T p).
  { apply (@Forall_nth_in _ (fun m => length m = T p)); [|lia].
    eapply Forall_impl; [|exact Hpa]. intros m [Hm _]. exact Hm. }
  unfold rollout_step in Hstep.
  set (u := map (vscale (u_scale p)) (col t pa)) in *.
  assert (Hul : length u = K p)
    by (unfold u, col; now rewrite !length_map).
  assert (Hu : nth k u [] = vscale (u_scale p) (nth t (nth k pa []) [])).
  { unfold u, col. rewrite map_map.
    rewrite (nth_indep _ []
               (vscale (u_scale p) (nth t (@nil (list F)) [])))
      by (rewrite length_map; lia).
    apply (map_nth (fun traj => vscale (u_scale p) (nth t traj []))). }
  assert (Hgoal : forall u1 pa1,
    nth k u1 [] = nth k u [] -> nth k pa1 [] = nth k pa [] ->
    length u1 = K p -> length pa1 = K p ->
    nth t (nth k (set_col t u1 pa1) []) []
      = vscale (u_scale p) (nth t (nth k pa []) []) /\
    forall t', t' <> t ->
      nth t' (nth k (set_col t u1 pa1) []) [] = nth t' (nth k pa []) []).
  { intros u1 pa1 E1 E2 L1 L2. unfold set_col.
    rewrite (nth_map2 _ _ _ [] [] []) by lia. rewrite E1, E2, Hu. split.
    - apply nth_upd_same. lia.
    - intros t' Hne. now apply nth_upd_other. }
  destruct (sample_null_action p) eqn:Hnull.
  - destruct Hcond as [Hc|Hc]; [discriminate|].
    destruct (K p) as [|kk] eqn:HK; [discriminate|].
    replace (S kk - 1)%nat with kk in Hc by lia.
    destruct (dynamics p s _) as [[s2 u2]|] eqn:Hdyn; [|discriminate].
    apply echo in Hdyn. subst u2.
    destruct (running_cost p s2); [|discriminate].
    destruct (is_matrix (S kk) (nu p) _); [|discriminate].
    destruct (is_vector (S kk) _); [|discriminate].
    cbn [negb] in Hstep. injection Hstep as _ <- _ _ _.
    apply Hgoal; rewrite ?upd_length; auto.
    + apply nth_upd_other. auto.
    + apply nth_upd_other. auto.
  - destruct (dynamics p s u) as [[s2 u2]|] eqn:Hdyn; [|discriminate].
    apply echo in Hdyn. subst u2.
    destruct (running_cost p s2); [|discriminate].
    destruct (is_matrix (K p) (nu p) _); [|discriminate].
    destruct (is_vector (K p) _); [|discriminate].
    cbn [negb] in Hstep. injection Hstep as _ <- _ _ _.
    apply Hgoal; auto.
Qed.

Lemma rollout_loop_echo_rows (k : nat) (pa0 : list (list (list F)))
    (m : nat) :
  forall (n : nat) (s s' : St) (pa pa' : list (list (list F)))
         (cs cs' : list F) (sts sts' : list St)
         (acts acts' : list (list (list F))),
  (n + m <= T p)%nat -> loop_ok (fun _ => True) p (s, pa, cs, sts, acts) ->
  rollout_loop p (seq n m) (s, pa, cs, sts, acts)
    = Some (s', pa', cs', sts', acts') ->
  (k < K p)%nat ->
  sample_null_action p = false \/ k <> (K p - 1)%nat ->
  (forall t, nth t (nth k pa []) []
             = if (t <? n)%nat
               then vscale (u_scale p) (nth t (nth k pa0 []) [])
               else nth t (nth k pa0 []) []) ->
  forall t, nth t (nth k pa' []) []
            = if (t <? n + m)%nat
              then vscale (u_scale p) (nth t (nth k pa0 []) [])
              else nth t (nth k pa0 []) [].
Proof.
  induction m as [|m IH];
    intros n s s' pa pa' cs cs' sts sts' acts acts' Hn Hok Hloop Hk Hcond
           Hinv t.
  - cbn [seq rollout_loop] in Hloop. injection Hloop as _ <- _ _ _.
    rewrite Nat.add_0_r. apply Hinv.
  - cbn [seq rollout_loop] in Hloop.
    destruct (rollout_step p n (s, pa, cs, sts, acts))
      as [[[[[s1 pa1] cs1] sts1] acts1]|] eqn:Hstep; [|discriminate].
    assert (Hn' : (n < T p)%nat) by lia.
    pose proof (@rollout_step_shape _ _ _ _ _ _ _ Hn' Hok Hstep) as Hok1.
    destruct (rollout_step_echo_rows Hn' Hok Hstep Hk Hcond)
      as [Hrow Hother].
    replace (n + S m)%nat with (S n + m)%nat by lia.
    apply (IH (S n) _ _ _ _ _ _ _ _ _ _ ltac:(lia) Hok1 Hloop Hk Hcond).
    intros t'. destruct (Nat.eq_dec t' n) as [->|Hne].
    + rewrite Hrow, Hinv.
      replace (n <? n)%nat with false by (symmetry; apply Nat.ltb_ge; lia).
      replace (n <? S n)%nat with true by (symmetry; apply Nat.ltb_lt; lia).
      reflexivity.
    + rewrite Hother by exact Hne. rewrite Hinv.
      destruct (t' <? n)%nat eqn:E1; destruct (t' <? S n)%nat eqn:E2;
        try reflexivity.
      * apply Nat.ltb_lt in E1. apply Nat.ltb_ge in E2. lia.
      * apply Nat.ltb_ge in E1. apply Nat.ltb_lt in E2. lia.
Qed.

End EchoSamples.

(** X18.  With a dynamics that hands the action back as it came, what a
    cycle leaves in [perturbed_action] is, for every trajectory but the
    null-action one, [u_scale] times the clipped sum of the rolled [U]
    and the drawn noise: the scale factor stays in the samples that the
    update of [U] averages. *)
Theorem command_echo_samples {F : Type} {SF : Scalar F} {St : Type}
    (lib : Library F) (p p' : MPPIPlanner F St) (s : St)
    (draw : list (list (list F))) (smp : Sampled F St) (act : Action)
    (k t : nat) :
  (forall s u s' u', dynamics p s u = Some (s', u') -> u' = u) ->
  command lib p s draw = Some (p', smp, act) ->
  (k < K p)%nat -> (t < T p)%nat ->
  sample_null_action p = false \/ k <> (K p - 1)%nat ->
  nth t (nth k (perturbed_action smp) []) []
  = vscale (u_scale p)
      (nth t (nth k (_bound_action p
                       (map (fun nk => map2 vadd (torch_roll (U p)) nk) draw))
                 []) []).
Proof.
  intros Hecho H Hk Ht Hcond.
  apply command_inv in H. cbv zeta in H.
  set (p1 := set_U p (torch_roll (U p))) in *.
  destruct H as [Hbatch _].
  unfold _compute_total_cost_batch in Hbatch.
  destruct (is_batch (K p1) (T p1) (nu p1) draw) eqn:Hdraw; [|discriminate].
  destruct (is_matrix (T p1) (nu p1) (U p1)) eqn:HU; [|discriminate].
  destruct (is_matrix (nu p1) (nu p1) (noise_sigma_inv p1)); [|discriminate].
  cbn [andb negb] in Hbatch.
  change (_bound_action p) with (_bound_action p1).
  change (torch_roll (U p)) with (U p1).
  set (pa0 := _bound_action p1 (map (fun nk => map2 vadd (U p1) nk) draw))
    in *.
  assert (Hpa0 : batch_ok (fun _ => True) (K p1) (T p1) (nu p1) pa0).
  { apply (@bound_action_ok F SF St p1 (fun _ => True) (fun _ => I) draw
             Hdraw HU). }
  destruct (_compute_rollout_costs p1 s pa0)
    as [[[[cost0 sts0] acts0] pa1]|] eqn:Hroll; [|discriminate].
  injection Hbatch as _ _ _ _ Hpa1.
  unfold _compute_rollout_costs in Hroll.
  destruct (negb (is_batch _ _ _ pa0)); [discriminate|].
  destruct (negb (M p1 =? 1)%nat); [discriminate|].
  destruct (rollout_loop p1 (seq 0 (T p1)) (s, pa0, zeros (K p1), [], []))
    as [[[[[s' pa2] cs] sts1] acts1]|] eqn:Hloop; [|discriminate].
  destruct (T p1 =? 0)%nat; [discriminate|].
  destruct (match terminal_state_cost p1 with Some _ => _ | None => _ end);
    [|discriminate].
  injection Hroll as _ _ _ Hpa2. subst pa2. rewrite Hpa1 in Hloop.
  pose proof (@rollout_loop_echo_rows F SF St p1 Hecho k pa0 (T p1) 0%nat
                s s' pa0 (perturbed_action smp) (zeros (K p1)) cs [] sts1
                [] acts1) as Hrows.
  rewrite (Hrows ltac:(lia)
             (conj Hpa0 (repeat_length _ _)) Hloop Hk Hcond
             (fun t => eq_refl) t).
  change (T p1) with (T p).
  replace (t <? 0 + T p)%nat with true by (symmetry; apply Nat.ltb_lt; lia).
  reflexivity.
Qed.

Lemma command_echo_samples_witness :
  let p := scalar_planner echo_dynamics 1 1 [[0]] 2 false 0 in
  exists p' smp act,
    command scalar_library p tt [[[1]]] = Some (p', smp, act) /\
    nth 0 (nth 0 (perturbed_action smp) []) []
    = vscale (u_scale p)
        (nth 0 (nth 0 (_bound_action p
                         (map (fun nk => map2 vadd (torch_roll (U p)) nk)
                              [[[1]]])) []) []).
Proof.
  intros p. destruct scaled_cycle as [p' [smp [v [H _]]]].
  exists p', smp, (Vector [v]). split; [exact H|].
  apply (@command_echo_samples R _ unit scalar_library p p' tt
           [[[1]]] smp (Vector [v]) 0%nat 0%nat).
  - intros s u s' u' E. unfold p in E. simpl in E. unfold echo_dynamics in E.
    injection E as _ <-. reflexivity.
  - exact H.
  - simpl. lia.
  - simpl. lia.
  - left. reflexivity.
Defined.

(** ** The heart surface *)

Lemma cube_nonneg (w : R) : 0 <= w -> 0 <= w ^ 3.
Proof. intros H. replace (w ^ 3) with (w * (w * w)) by ring. nra. Qed.

Lemma heart_poly_positive (a b w : R) :
  0 <= a -> 0 <= b -> 3 <= a + b + w ^ 2 ->
  0 < (a + b + w ^ 2 - 1) ^ 3 - a * w ^ 3 - (b / 20) * w ^ 3.
Proof.
  intros Ha Hb Hs.
  set (s := a + b + w ^ 2) in *.
  assert (Hcube : 8 <= (s - 1) ^ 3).
  { assert (2 <= s - 1) by lra. nra. }
  destruct (Rle_dec w 0) as [Hw|Hw].
  - assert (w ^ 3 <= 0).
    { replace (w ^ 3) with (w * (w * w)) by ring. nra. }
    assert (a * w ^ 3 <= 0) by nra.
    assert (b / 20 * w ^ 3 <= 0) by nra.
    lra.
  - assert (Hw0 : 0 < w) by lra.
    destruct (Rle_dec w 1) as [H1|H1].
    + assert (0 <= w ^ 3 <= 1).
      { replace (w ^ 3) with (w * (w * w)) by ring. split; nra. }
      assert (a * w ^ 3 <= a) by nra.
      assert (b / 20 * w ^ 3 <= b) by nra.
      assert (0 <= w ^ 2) by nra.
      assert (s < (s - 1) ^ 3).
      { assert (2 <= s - 1) by lra. nra. }
      unfold s in *. lra.
    + assert (Hw1 : 1 < w) by lra.
      set (t := w ^ 2).
      assert (Ht : 1 < t) by (unfold t; nra).
      assert (H3 : w ^ 3 <= t * t).
      { unfold t. replace (w ^ 3) with (w * (w * w)) by ring.
        replace (w ^ 2 * w ^ 2) with (w * w * (w * w)) by ring. nra. }
      assert (H0 : 0 <= w ^ 3) by (apply cube_nonneg; lra).
      assert (a * w ^ 3 <= a * (t * t)) by nra.
      assert (b / 20 * w ^ 3 <= b * (t * t)) by nra.
      assert (Hab : a + b = s - t) by (unfold s, t; ring).
      assert (Hmax : (s - t) * (t * t) <= 4 * s ^ 3 / 27).
      { assert (0 <= (t - 2 * s / 3) ^ 2 * (t + s / 3)).
        { apply Rmult_le_pos; [apply pow2_ge_0 | lra]. }
        nra. }
      assert (Hlast : 4 * s ^ 3 / 27 < (s - 1) ^ 3).
      { assert (3 <= s) by lra. nra. }
      assert (a * (t * t) + b * (t * t) = (s - t) * (t * t))
        by (rewrite <- Hab; ring).
      lra.
Qed.

Lemma heart_poly_negative (a b w : R) :
  0 <= a -> 0 <= b -> a + b + w ^ 2 <= 1 / 4 ->
  (a + b + w ^ 2 - 1) ^ 3 - a * w ^ 3 - (b / 20) * w ^ 3 < 0.
Proof.
  intros Ha Hb Hs.
  assert (Hw2 : 0 <= w ^ 2) by apply pow2_ge_0.
  set (s := a + b + w ^ 2) in *.
  assert (Hcube : (s - 1) ^ 3 <= - (27 / 64)).
  { assert (H34 : 3 / 4 <= 1 - s) by lra.
    assert (27 / 64 <= (1 - s) ^ 3) by nra.
    replace ((s - 1) ^ 3) with (- (1 - s) ^ 3) by ring. lra. }
  assert (Hw : -1 <= w <= 1) by (unfold s in Hs; nra).
  assert (Hw3 : -1 <= w ^ 3 <= 1).
  { replace (w ^ 3) with (w * (w * w)) by ring. split; nra. }
  assert (Hab : a + b <= 1 / 4) by (unfold s in Hs; lra).
  assert (- a <= a * w ^ 3) by nra.
  assert (- b <= b / 20 * w ^ 3) by nra.
  lra.
Qed.

Lemma heart_implicit_poly (x y z : R) :
  heart_implicit x y z
  = ((5 * x) ^ 2 + (9 / 4) * (5 * y) ^ 2 + (5 * z) ^ 2 - 1) ^ 3
    - (5 * x) ^ 2 * (5 * z) ^ 3
    - ((9 / 4) * (5 * y) ^ 2 / 20) * (5 * z) ^ 3.
Proof. unfold heart_implicit. field. Qed.

(** X19.  The heart function is mirror symmetric in [x] and in [y],
    strictly positive wherever
    [(5x)^2 + (9/4)(5y)^2 + (5z)^2 >= 3] and strictly negative wherever
    that sum is at most [1/4]: its zero set, the surface that is
    contoured, lies between the two ellipsoids. *)
Theorem heart_implicit_sign (x y z : R) :
  heart_implicit (- x) y z = heart_implicit x y z /\
  heart_implicit x (- y) z = heart_implicit x y z /\
  (3 <= (5 * x) ^ 2 + (9 / 4) * (5 * y) ^ 2 + (5 * z) ^ 2 ->
   0 < heart_implicit x y z) /\
  ((5 * x) ^ 2 + (9 / 4) * (5 * y) ^ 2 + (5 * z) ^ 2 <= 1 / 4 ->
   heart_implicit x y z < 0).
Proof.
  assert (Ha : 0 <= (5 * x) ^ 2) by apply pow2_ge_0.
  assert (Hb : 0 <= (9 / 4) * (5 * y) ^ 2)
    by (pose proof (pow2_ge_0 (5 * y)); lra).
  split; [unfold heart_implicit; ring|].
  split; [unfold heart_implicit; ring|].
  split; intros H; rewrite heart_implicit_poly.
  - now apply heart_poly_positive.
  - now apply heart_poly_negative.
Qed.

Lemma heart_implicit_sign_witness :
  heart_implicit (- 1) 0 0 = heart_implicit 1 0 0 /\
  0 < heart_implicit 1 0 0 /\
  heart_implicit 0 0 0 < 0.
Proof.
  destruct (heart_implicit_sign 1 0 0) as [Hx [_ [Hpos _]]].
  destruct (heart_implicit_sign 0 0 0) as [_ [_ [_ Hneg]]].
  split; [exact Hx|]. split; [apply Hpos; lra | apply Hneg; lra].
Defined.

Lemma heart_grid_ends : heart_grid 0 = - 3 / 2 /\ heart_grid 249 = 3 / 2.
Proof.
  unfold heart_grid, linspace.
  replace (INR (250 - 1)) with 249
    by (rewrite INR_IZR_INZ; simpl; reflexivity).
  replace (INR 249) with 249 by (rewrite INR_IZR_INZ; simpl; reflexivity).
  simpl INR. split; field.
Qed.

(** X20.  On the grid that [generate_stl_files] evaluates, 250 points
    from [-1.5] to [1.5] on each axis, the heart function is strictly
    positive at every point of the six outer faces and strictly negative
    at the grid point next to the centre: the contour at zero is not
    empty and does not reach the border of the grid. *)
Theorem heart_contour_inside_grid (i j k : nat) :
  i = 0%nat \/ i = 249%nat \/ j = 0%nat \/ j = 249%nat \/
  k = 0%nat \/ k = 249%nat ->
  0 < heart_implicit (heart_grid i) (heart_grid j) (heart_grid k) /\
  heart_implicit (heart_grid 124) (heart_grid 124) (heart_grid 124) < 0.
Proof.
  intros Hface. destruct heart_grid_ends as [Hlo Hhi]. split.
  - rewrite heart_implicit_poly.
    pose proof (pow2_ge_0 (5 * heart_grid i)) as Hx.
    pose proof (pow2_ge_0 (5 * heart_grid j)) as Hy.
    pose proof (pow2_ge_0 (5 * heart_grid k)) as Hz.
    apply heart_poly_positive; [lra | lra |].
    destruct Hface as [-> | [-> | [-> | [-> | [-> | ->]]]]];
      rewrite ?Hlo, ?Hhi in *; nra.
  - rewrite heart_implicit_poly.
    assert (Hg : heart_grid 124 = - (1 / 166)).
    { unfold heart_grid, linspace.
      replace (INR (250 - 1)) with 249
        by (rewrite INR_IZR_INZ; simpl; reflexivity).
      replace (INR 124) with 124
        by (rewrite INR_IZR_INZ; simpl; reflexivity).
      field. }
    rewrite Hg.
    pose proof (pow2_ge_0 (5 * - (1 / 166))) as Hsq.
    apply heart_poly_negative; lra.
Qed.

Lemma heart_contour_inside_grid_witness :
  0 < heart_implicit (heart_grid 0) (heart_grid 7) (heart_grid 100) /\
  heart_implicit (heart_grid 124) (heart_grid 124) (heart_grid 124) < 0.
Proof.
  apply (@heart_contour_inside_grid 0%nat 7%nat 100%nat).
  left. reflexivity.
Defined.

(** ** The files the generators write *)

Lemma chars_append (a b : String.string) :
  String.list_ascii_of_string (String.append a b)
  = String.list_ascii_of_string a ++ String.list_ascii_of_string b.
Proof.
  induction a as [|c a IH]; simpl; [reflexivity|]. now rewrite IH.
Qed.

Lemma chars_inj (a b : String.string) :
  String.list_ascii_of_string a = String.list_ascii_of_string b -> a = b.
Proof.
  intros H. rewrite <- (String.string_of_list_ascii_of_string a),
    <- (String.string_of_list_ascii_of_string b). now rewrite H.
Qed.

Lemma append_inv_head (a x y : String.string) :
  String.append a x = String.append a y -> x = y.
Proof.
  intros H. apply chars_inj. apply (f_equal String.list_ascii_of_string) in H.
  rewrite !chars_append in H. now apply app_inv_head in H.
Qed.

Lemma append_inv_tail (t x y : String.string) :
  String.append x t = String.append y t -> x = y.
Proof.
  intros H. apply chars_inj. apply (f_equal String.list_ascii_of_string) in H.
  rewrite !chars_append in H. now apply app_inv_tail in H.
Qed.

Lemma str_of_nat_inj (i j : nat) : str_of_nat i = str_of_nat j -> i = j.
Proof.
  unfold str_of_nat. intros H.
  apply (f_equal DecimalString.NilEmpty.uint_of_string) in H.
  rewrite !DecimalString.NilEmpty.usu in H. injection H as H.
  apply (f_equal Nat.of_uint) in H.
  now rewrite !DecimalNat.Unsigned.of_to in H.
Qed.

Lemma startswith_sep_stem (stem x : String.string) :
  startswith_sep (String.append stem (String.append "_"%string x))
  = startswith_sep stem.
Proof. destruct stem; reflexivity. Qed.

Lemma endswith_sep_append (a b : String.string) :
  b <> String.EmptyString ->
  endswith_sep (String.append a b) = endswith_sep b.
Proof.
  intros Hb. induction a as [|c a IH]; [reflexivity|].
  cbn [String.append endswith_sep]. rewrite IH.
  destruct (String.append a b) eqn:E; [|reflexivity].
  destruct a; [contradiction | discriminate].
Qed.

(** What [os.path.join] puts in front of an indexed name does not depend
    on the index. *)
Lemma os_path_join_indexed (dir stem : String.string) :
  exists pre, forall i ext,
    os_path_join dir (indexed_name stem i ext)
    = String.append pre
        (String.append "_"%string (String.append (str_of_nat i) ext)).
Proof.
  unfold os_path_join, indexed_name.
  destruct (startswith_sep stem) eqn:Hs.
  - exists stem. intros i ext. now rewrite startswith_sep_stem, Hs.
  - destruct (String.eqb dir String.EmptyString || endswith_sep dir).
    + exists (String.append dir stem). intros i ext.
      rewrite startswith_sep_stem, Hs.
      apply chars_inj. now rewrite !chars_append, !app_assoc.
    + exists (String.append dir (String.append "/"%string stem)).
      intros i ext. rewrite startswith_sep_stem, Hs.
      apply chars_inj. rewrite !chars_append. simpl.
      now rewrite <- !app_assoc.
Qed.

Lemma indexed_path_inj (dir stem ext : String.string) (i j : nat) :
  os_path_join dir (indexed_name stem i ext)
  = os_path_join dir (indexed_name stem j ext) -> i = j.
Proof.
  destruct (os_path_join_indexed dir stem) as [pre Hpre].
  rewrite !Hpre. intros H.
  apply append_inv_head, append_inv_head, append_inv_tail in H.
  now apply str_of_nat_inj.
Qed.

(** X21.  In [generate_actor_yaml_files] two different indices never
    give the same file, whatever the actor name and the output directory
    are: the paths that are opened differ, and so do the actor names and
    the URDF files the two configurations refer to.  No configuration of a
    run overwrites another. *)
Theorem yaml_files_distinct (actor_name output_dir : String.string)
    (init_pos_val : list R) (i j : nat) :
  i <> j ->
  file_path actor_name output_dir i <> file_path actor_name output_dir j /\
  actor_cfg_name (actor_cfg actor_name i init_pos_val)
    <> actor_cfg_name (actor_cfg actor_name j init_pos_val) /\
  actor_cfg_urdf_file (actor_cfg actor_name i init_pos_val)
    <> actor_cfg_urdf_file (actor_cfg actor_name j init_pos_val).
Proof.
  intros Hne. unfold file_path. cbn [actor_cfg actor_cfg_name
    actor_cfg_urdf_file].
  split; [|split]; intros H; apply Hne.
  - now apply indexed_path_inj in H.
  - apply append_inv_head, append_inv_head in H. now apply str_of_nat_inj.
  - unfold indexed_name in H.
    apply append_inv_head, append_inv_head, append_inv_head,
      append_inv_head, append_inv_tail in H.
    now apply str_of_nat_inj.
Qed.

Lemma yaml_files_distinct_witness :
  file_path "heart1"%string "./heart1"%string 9
    <> file_path "heart1"%string "./heart1"%string 10 /\
  actor_cfg_name (actor_cfg "heart1"%string 9 [0; 3 / 10; 85 / 100])
    <> actor_cfg_name (actor_cfg "heart1"%string 10 [0; 3 / 10; 85 / 100]) /\
  actor_cfg_urdf_file (actor_cfg "heart1"%string 9 [0; 3 / 10; 85 / 100])
    <> actor_cfg_urdf_file
         (actor_cfg "heart1"%string 10 [0; 3 / 10; 85 / 100]).
Proof.
  apply (@yaml_files_distinct "heart1"%string "./heart1"%string
           [0; 3 / 10; 85 / 100] 9%nat 10%nat).
  lia.
Defined.

(** X22.  In heart_gen.py, which writes the URDF files and the meshes
    into one directory, two different indices never give the same URDF
    path nor the same mesh path, and no mesh path is a URDF path: no file
    of a run overwrites another. *)
Theorem heart_files_distinct (obs output_dir : String.string) (i j : nat) :
  (i <> j ->
   output_path obs output_dir i <> output_path obs output_dir j /\
   stl_filename obs output_dir i <> stl_filename obs output_dir j) /\
  output_path obs output_dir i <> stl_filename obs output_dir j.
Proof.
  unfold output_path, stl_filename. split.
  - intros Hne. split; intros H; apply Hne; now apply indexed_path_inj in H.
  - intros H.
    destruct (os_path_join_indexed output_dir obs) as [pre Hpre].
    rewrite !Hpre in H.
    apply append_inv_head, append_inv_head in H.
    apply (f_equal String.list_ascii_of_string) in H.
    rewrite !chars_append in H. simpl in H.
    change (String.list_ascii_of_string (str_of_nat j)
            ++ ["."; "s"; "t"; "l"]%char)
      with (String.list_ascii_of_string (str_of_nat j)
            ++ ["."; "s"; "t"]%char ++ ["l"%char]) in H.
    change (String.list_ascii_of_string (str_of_nat i)
            ++ ["."; "u"; "r"; "d"; "f"]%char)
      with (String.list_ascii_of_string (str_of_nat i)
            ++ ["."; "u"; "r"; "d"]%char ++ ["f"%char]) in H.
    rewrite !app_assoc in H. apply app_inj_tail in H.
    destruct H as [_ H]. discriminate.
Qed.

Lemma heart_files_distinct_witness :
  (output_path "heart2"%string "./heart2/uncertain"%string 1
     <> output_path "heart2"%string "./heart2/uncertain"%string 11 /\
   stl_filename "heart2"%string "./heart2/uncertain"%string 1
     <> stl_filename "heart2"%string "./heart2/uncertain"%string 11) /\
  output_path "heart2"%string "./heart2/uncertain"%string 1
    <> stl_filename "heart2"%string "./heart2/uncertain"%string 11.
Proof.
  destruct (@heart_files_distinct "heart2"%string
              "./heart2/uncertain"%string 1%nat 11%nat) as [Hd Hx].
  split; [apply Hd; lia | exact Hx].
Defined.

(** X23.  The two generators agree on where the URDF files are: for an
    obstacle name that does not start with a separator, the [urdf_file]
    entry of the [i]-th configuration, taken relative to the current
    directory, is the path of the [i]-th URDF file that heart_gen.py
    writes with its output directory [./<obs>/uncertain]. *)
Theorem yaml_refers_to_generated_urdf (obs : String.string)
    (num_files : nat) (init_pos_val : list R) :
  startswith_sep obs = false ->
  map (fun i => String.append "./"%string
                  (actor_cfg_urdf_file (actor_cfg obs i init_pos_val)))
      (seq 0 num_files)
  = map (output_path obs
           (String.append "./"%string
              (String.append obs "/uncertain"%string)))
        (seq 0 num_files).
Proof.
  intros Hobs. apply map_ext. intros i.
  unfold output_path. cbn [actor_cfg actor_cfg_urdf_file].
  unfold os_path_join.
  assert (Hname : startswith_sep (indexed_name obs i ".urdf"%string) = false).
  { unfold indexed_name. now rewrite startswith_sep_stem. }
  rewrite Hname.
  assert (Hend : endswith_sep
            (String.append "./"%string
               (String.append obs "/uncertain"%string)) = false).
  { change (String.append "./"%string
              (String.append obs "/uncertain"%string))
      with (String.String "."%char
              (String.String "/"%char
                 (String.append obs "/uncertain"%string))).
    assert (E : endswith_sep (String.append obs "/uncertain"%string) = false)
      by (rewrite endswith_sep_append; [reflexivity | discriminate]).
    cbn [endswith_sep].
    destruct (String.append obs "/uncertain"%string) eqn:Eo.
    - destruct obs; discriminate.
    - exact E. }
  rewrite Hend. cbn [String.eqb String.append orb].
  do 2 f_equal. apply chars_inj. rewrite !chars_append.
  cbn [String.list_ascii_of_string app]. rewrite <- !app_assoc.
  reflexivity.
Qed.

Lemma yaml_refers_to_generated_urdf_witness :
  map (fun i => String.append "./"%string
                  (actor_cfg_urdf_file
                     (actor_cfg "heart2"%string i [0; 3 / 10; 85 / 100])))
      (seq 0 3)
  = map (output_path "heart2"%string
           (String.append "./"%string
              (String.append "heart2"%string "/uncertain"%string)))
        (seq 0 3).
Proof.
  apply (@yaml_refers_to_generated_urdf "heart2"%string 3%nat
           [0; 3 / 10; 85 / 100]).
  reflexivity.
Defined.

(** ** The filter switch *)

(** X24.  The only thing [filter_u] can change is whether a cycle
    returns: whenever the cycle with the filter returns, the cycle
    without it returns the same tensors and the same action; and when
    the filter raises for the horizon [T] (scipy does for [T <= 2], as
    the order 2 has to stay below the window), the cycle raises although
    nothing it returns would have used the filtered sequence. *)
Theorem command_filter_only_raises {F : Type} {SF : Scalar F} {St : Type}
    (lib : Library F) (p : MPPIPlanner F St) (s : St)
    (draw : list (list (list F))) :
  (forall p' smp act,
     command lib (set_filter_u p true) s draw = Some (p', smp, act) ->
     command lib (set_filter_u p false) s draw
       = Some (set_filter_u p' false, smp, act)) /\
  ((forall x, savgol_filter lib x (T p) 2 = None) ->
   command lib (set_filter_u p true) s draw = None).
Proof.
  split.
  - intros p' smp act H. now apply command_discards_filter.
  - intros Hraise. unfold command.
    destruct (_compute_total_cost_batch _ s draw)
      as [[[[[cost sts] acts] nse] pa]|]; [|reflexivity].
    destruct (softmin _ cost) as [[[nz eta] om]|]; [|reflexivity].
    cbn [filter_u set_U set_filter_u T]. now rewrite Hraise.
Qed.

Lemma command_filter_only_raises_witness :
  (exists p' smp act,
     command scalar_library
       (set_filter_u
          (scalar_planner echo_dynamics 1 5 [[0]; [0]; [0]; [0]; [0]] 1
             false 0) false) tt [[[1]; [0]; [0]; [0]; [0]]]
     = Some (p', smp, act)) /\
  command scalar_library
    (set_filter_u (scalar_planner echo_dynamics 1 1 [[0]] 1 false 0) true)
    tt [[[1]]] = None.
Proof.
  split.
  - destruct filter_cycle as [p' [smp [v0 [v1 [v2 [v3 [v4 [H _]]]]]]]].
    exists (set_filter_u p' false), smp, (Vector [v0]).
    apply (proj1 (@command_filter_only_raises R _ unit scalar_library
                    (scalar_planner echo_dynamics 1 5
                       [[0]; [0]; [0]; [0]; [0]] 1 false 0) tt
                    [[[1]; [0]; [0]; [0]; [0]]])).
    exact H.
  - apply (proj2 (@command_filter_only_raises R _ unit scalar_library
                    (scalar_planner echo_dynamics 1 1 [[0]] 1 false 0) tt
                    [[[1]]])).
    intros x. simpl. unfold savgol_whole_window.
    now rewrite andb_false_r.
Defined.

(** ** Costs and temperature on another scale *)

Lemma fold_min_scale (l : list R) (x c : R) :
  0 <= c ->
  fold_left Rmin (map (Rmult c) l) (c * x) = c * fold_left Rmin l x.
Proof.
  intros Hc. revert x. induction l as [|y l IH]; intros x; simpl.
  - reflexivity.
  - replace (Rmin (c * x) (c * y)) with (c * Rmin x y); [apply IH|].
    unfold Rmin. destruct (Rle_dec x y), (Rle_dec (c * x) (c * y));
      try reflexivity; nra.
Qed.

(** X26.  Over the reals the softmin step depends on the ratio of the
    costs to the temperature only: multiplying every cost and [lambda_]
    by the same positive number leaves [cost_total_non_zero], [eta] and
    the weights as they were (and raises when the step raised). *)
Theorem softmin_scale_invariant (lam c : R) (cost : list R) :
  0 < c ->
  softmin (c * lam) (map (Rmult c) cost) = softmin lam cost.
Proof.
  intros Hc. destruct cost as [|x rest]; [reflexivity|].
  unfold softmin, torch_min. cbn [map].
  change (fold_left smin) with (fold_left Rmin).
  rewrite fold_min_scale by lra.
  unfold py_inv. change (@struthy R R_scalar) with Rtruthy.
  destruct (Req_dec_T lam 0) as [Hl|Hl].
  - subst lam. rewrite Rmult_0_r, Rtruthy_false by reflexivity.
    reflexivity.
  - rewrite !Rtruthy_true by (try exact Hl; nra).
    replace (_ensure_non_zero (c * x :: map (Rmult c) rest)
               (c * fold_left Rmin rest x) (sdiv s1 (c * lam)))
      with (_ensure_non_zero (x :: rest) (fold_left Rmin rest x)
              (sdiv s1 lam)); [reflexivity|].
    unfold _ensure_non_zero.
    change (c * x :: map (Rmult c) rest) with (map (Rmult c) (x :: rest)).
    rewrite map_map. apply map_ext. intros y. simpl. f_equal.
    unfold s1. simpl. field. split; lra.
Qed.

Lemma softmin_scale_invariant_witness :
  softmin (2 * 1) (map (Rmult 2) [1; 3]) = softmin 1 [1; 3].
Proof.
  apply (@softmin_scale_invariant 1 2 [1; 3]). lra.
Defined.

(** ** The control cost of a zero sequence *)

Lemma torch_sum_zero (v : list R) :
  Forall (fun x => x = 0) v -> torch_sum v = 0.
Proof.
  unfold torch_sum. induction 1 as [|x v Hx Hv IH]; simpl in *.
  - reflexivity.
  - rewrite IH, Hx. lra.
Qed.

Lemma sum_all_zero_rows (m ac : list (list R)) :
  Forall (Forall (fun x => x = 0)) m -> sum_all (map2 vmul m ac) = 0.
Proof.
  intros Hm. unfold sum_all. apply torch_sum_zero. apply Forall_map.
  revert ac. induction Hm as [|u m Hu Hm IH]; intros [|a ac]; simpl;
    constructor; auto.
  apply torch_sum_zero. unfold vmul. clear - Hu. revert a.
  induction Hu as [|x u Hx Hu IH]; intros [|y a]; simpl; constructor; auto.
  rewrite Hx. lra.
Qed.

Lemma vadd_zero_r (v z : list R) :
  Forall (fun x => x = 0) z -> (length v <= length z)%nat -> vadd v z = v.
Proof.
  intros Hz. revert v. unfold vadd.
  induction Hz as [|x z Hx Hz IH]; intros [|a v] Hl; simpl in *;
    try reflexivity; try lia.
  rewrite IH by lia. rewrite Hx. f_equal. lra.
Qed.

(** X27.  When the control sequence is zero (as it is in the first cycle
    of a planner built with the default [U_init]), the control cost of
    [_compute_total_cost_batch] vanishes: [cost_total] is the cost that
    [_compute_rollout_costs] returned, whatever [lambda_], the noise and
    the inverse covariance are. *)
Theorem cost_total_of_zero_sequence {St : Type} (p : MPPIPlanner R St)
    (s : St) (draw nse pa : list (list (list R))) (cost : list R)
    (sts : list St) (acts : list (list (list R))) :
  Forall (Forall (fun x => x = 0)) (U p) ->
  _compute_total_cost_batch p s draw = Some (cost, sts, acts, nse, pa) ->
  exists sts0 acts0,
    _compute_rollout_costs p s
      (_bound_action p (map (fun nk => map2 vadd (U p) nk) draw))
    = Some (cost, sts0, acts0, pa).
Proof.
  intros Hzero H. unfold _compute_total_cost_batch in H.
  destruct (is_batch (K p) (T p) (nu p) draw) eqn:Hd; [|discriminate].
  destruct (is_matrix (T p) (nu p) (U p)) eqn:HU; [|discriminate].
  destruct (is_matrix (nu p) (nu p) (noise_sigma_inv p)); [|discriminate].
  cbn [andb negb] in H.
  destruct (_compute_rollout_costs p s _)
    as [[[[cost0 sts0] acts0] pa0]|] eqn:Hroll; [|discriminate].
  pose proof (@bound_action_ok R _ St p (fun _ => True) (fun _ => I) draw
                Hd HU) as Hpa.
  destruct (@rollout_costs_ok R _ St p (fun _ => True)
              (fun _ _ => I) I
              (fun _ _ _ u' _ _ =>
                 proj2 (Forall_forall _ u')
                   (fun v _ => proj2 (Forall_forall _ v) (fun _ _ => I)))
              s _ _ _ _ _ Hpa Hroll)
    as [[Hl0 _] [Hc0 _]].
  injection H as <- _ _ _ <-. exists sts0, acts0.
  do 4 f_equal. symmetry. apply vadd_zero_r.
  - apply Forall_map. apply Forall_forall. intros ac _.
    now apply sum_all_zero_rows.
  - rewrite length_map. destruct (noise_abs_cost p);
      rewrite !length_map; lia.
Qed.

Lemma cost_total_of_zero_sequence_witness :
  let p := scalar_planner echo_dynamics 1 1 [[0]] 2 false 0 in
  exists cost sts acts pa,
    _compute_rollout_costs p tt
      (_bound_action p (map (fun nk => map2 vadd (U p) nk) [[[1]]]))
    = Some (cost, sts, acts, pa).
Proof.
  intros p. destruct scaled_cycle as [p' [smp [v [H _]]]].
  apply command_inv in H. cbv zeta in H. destruct H as [H _].
  destruct (@cost_total_of_zero_sequence unit
              (set_U p (torch_roll (U p))) tt [[[1]]] _ _ _ _ _
              ltac:(repeat constructor) H) as [sts0 [acts0 H0]].
  exists (cost_total smp), sts0, acts0, (perturbed_action smp). exact H0.
Defined.
